(** * A shallow embedding of the pesapal RDBMS core

    The development follows the TypeScript sources:
    - [Js]        the JavaScript primitives the engine relies on
                  (values, [===], [Number], [parseInt], [parseFloat], ...);
    - [Column]    src/core/database/Column.ts;
    - [Table]     src/core/database/Table.ts;
    - [FileQueue] src/core/storage/FileQueue.ts;
    - [Database]  src/core/database/Database.ts;
    - [Routes]    src/api/routes/database.ts.

    Objects used as dictionaries ([RowData], [Map<string, _>]) are finite
    maps; a [Map] keyed by arbitrary values is an insertion-ordered
    association list compared with SameValueZero, as in ECMAScript. *)

From Stdlib Require Import ZArith Bool List Ascii String Lia.
From stdpp Require Import base option list gmap strings fin_maps pretty sorting.

Open Scope string_scope.
Open Scope list_scope.

(** ** JavaScript primitives *)

Module Js.

(** A JavaScript number, an IEEE 754 binary64 value.  A finite one is kept
    as the decimal [m / 10^k] that [Number::toString] prints for it, the
    shortest decimal that rounds to it; the conversions from strings round
    to binary64 ([to_double]).  [+0] and [-0] are one value (no operation
    used by the engine separates them). *)
Inductive Num : Type :=
  | NaN
  | Infinity (negative : bool)
  | Finite (m : Z) (k : nat).

(** An object, array or function, by what the engine observes of it:
    whether it is callable ([typeof] is ["function"] rather than
    ["object"]), the string [ToPrimitive] converts it to (["[object Object]"]
    for an object of a JSON body, the joined elements for an array, the
    source text for a function), and [oid], which tells apart objects that
    print alike.  An object [ToPrimitive] throws on -- a JSON object with a
    property of its own named [toString] -- is no value of the model. *)
Record Obj : Type := mkObj {
  callable : bool;
  text : string;
  oid : nat
}.

(** The values a JSON request body or a stored row can hold, and the
    members every row inherits from [Object.prototype]. *)
Inductive Value : Type :=
  | Undefined
  | Null
  | Boolean (b : bool)
  | Number (n : Num)
  | Str (s : string)
  | Object (o : Obj).

(** Abrupt completions: the exceptions the engine can raise. *)
Inductive Error : Type :=
  | RangeError (message : string)
  | PlainError (message : string).

Inductive Completion (A : Type) : Type :=
  | Returns (a : A)
  | Throws (e : Error).
Arguments Returns {A} a.
Arguments Throws {A} e.

#[global] Instance completion_ret : MRet Completion := @Returns.

#[global] Instance completion_bind : MBind Completion := λ A B f c,
  match c with
  | Returns a => f a
  | Throws e => Throws e
  end.

(** Monadic left fold: [xs.forEach(x => { acc = f(acc, x) })] where the body
    may throw. *)
Fixpoint foldM {A S} (f : S → A → Completion S) (xs : list A) (s : S) : Completion S :=
  match xs with
  | [] => Returns s
  | x :: xs' => s' ← f s x; foldM f xs' s'
  end.

(** *** Numbers *)

(** Lowest terms of [m / 10^k]. *)
Fixpoint normalize (m : Z) (k : nat) : Z * nat :=
  match k with
  | O => (m, O)
  | S k' => if (m mod 10 =? 0)%Z then normalize (m / 10) k' else (m, k)
  end.

Definition finite (m : Z) (k : nat) : Num :=
  let '(m', k') := normalize m k in Finite m' k'.

Definition int (z : Z) : Num := Finite z 0.

(** [m * 10^e] for a signed decimal exponent. *)
Definition scaled (m e : Z) : Num :=
  if (0 <=? e)%Z then Finite (m * 10 ^ e) 0 else finite m (Z.to_nat (- e)).

(** *** Binary64 *)

(** [floor (log2 (p / q))] for positive [p] and [q]. *)
Definition binade (p q : Z) : Z :=
  let e := (Z.log2 p - Z.log2 q)%Z in
  let below := if (0 <=? e)%Z then (p <? q * 2 ^ e)%Z else (p * 2 ^ (- e) <? q)%Z in
  if below then (e - 1)%Z else e.

(** The integer nearest to [p / q], the even one of two equally near. *)
Definition round_half_even (p q : Z) : Z :=
  let d := (p / q)%Z in
  let r := (p mod q)%Z in
  if (2 * r <? q)%Z then d
  else if (q <? 2 * r)%Z then (d + 1)%Z
  else if Z.even d then d else (d + 1)%Z.

(** The binary64 value nearest to [p / q > 0], ties to the even
    significand: [(M, b)] stands for [M * 2^b], with [2^52 <= M < 2^53] for
    a normal number and [b = -1074] for a subnormal one or zero; [None]
    when [p / q] rounds to infinity. *)
Definition nearest (p q : Z) : option (Z * Z) :=
  let b := (Z.max (binade p q) (-1022) - 52)%Z in
  let M :=
    if (0 <=? b)%Z then round_half_even p (q * 2 ^ b)
    else round_half_even (p * 2 ^ (- b)) q in
  let '(M, b) := if (M =? 2 ^ 53)%Z then (2 ^ 52, b + 1)%Z else (M, b) in
  if (971 <? b)%Z then None else Some (M, b).

(** Whether the decimal [s * 10^j] rounds to the binary64 value [d]. *)
Definition denotes (s j : Z) (d : Z * Z) : bool :=
  match (if (0 <=? j)%Z then nearest (s * 10 ^ j) 1 else nearest s (10 ^ (- j))) with
  | Some (M, b) => (M =? d.1)%Z && (b =? d.2)%Z
  | None => false
  end.

Fixpoint decimal_length_go (fuel : nat) (m : Z) : Z :=
  match fuel with
  | O => 0%Z
  | S fuel' => if (m <? 10)%Z then 1%Z else (1 + decimal_length_go fuel' (m / 10))%Z
  end.

(** The number of decimal digits of a positive integer. *)
Definition decimal_length (m : Z) : Z :=
  decimal_length_go (S (Z.to_nat (Z.log2 m))) m.

(** The digits [Number::toString] prints for the binary64 value [d], whose
    exact value is [m * 10^e] with [n] digits before the decimal point: the
    significand [s] and exponent [j] of a decimal [s * 10^j] with as few
    digits [k] as possible that rounds to [d]; of two such decimals the one
    nearer to the value, and the even [s] when they are equally near.
    Seventeen digits always suffice. *)
Fixpoint shortest (fuel : nat) (k : Z) (m e n : Z) (d : Z * Z) : Z * Z :=
  match fuel with
  | O => (m, e)
  | S fuel' =>
      let j := (n - k)%Z in
      let unit := (10 ^ (j - e))%Z in
      let '(lo, twice_rest) :=
        if (j <=? e)%Z then (m * 10 ^ (e - j), 0)%Z else (m / unit, 2 * (m mod unit))%Z in
      let hi := (lo + 1)%Z in
      match denotes lo j d, denotes hi j d with
      | true, true =>
          if (twice_rest <? unit)%Z then (lo, j)
          else if (unit <? twice_rest)%Z then (hi, j)
          else if Z.even lo then (lo, j) else (hi, j)
      | true, false => (lo, j)
      | false, true => (hi, j)
      | false, false => shortest fuel' (k + 1)%Z m e n d
      end
  end.

(** The number an exact decimal denotes. *)
Definition to_double (n : Num) : Num :=
  match n with
  | Finite m k =>
      if (m =? 0)%Z then Finite 0 0
      else
        match nearest (Z.abs m) (10 ^ Z.of_nat k) with
        | None => Infinity (m <? 0)%Z
        | Some (M, b) =>
            if (M =? 0)%Z then Finite 0 0
            else
              let '(mant, e) :=
                if (0 <=? b)%Z then (M * 2 ^ b, 0)%Z else (M * 5 ^ (- b), b)%Z in
              let '(s, j) := shortest 17 1 mant e (decimal_length mant + e) (M, b) in
              scaled (if (m <? 0)%Z then - s else s)%Z j
        end
  | _ => n
  end.

Definition num_eqb (a b : Num) : bool :=
  match a, b with
  | NaN, NaN => true
  | Infinity s, Infinity s' => Bool.eqb s s'
  | Finite m k, Finite m' k' =>
      let '(a1, a2) := normalize m k in
      let '(b1, b2) := normalize m' k' in
      (a1 =? b1)%Z && (a2 =? b2)%nat
  | _, _ => false
  end.

(** [isNaN] applied to a number. *)
Definition isNaN (n : Num) : bool :=
  match n with NaN => true | _ => false end.

(** [Number.isInteger]. *)
Definition Number_isInteger (n : Num) : bool :=
  match n with
  | Finite m k => (snd (normalize m k) =? 0)%nat
  | _ => false
  end.

(** *** Equality *)

(** Whether two objects are one and the same. *)
Definition same_object (a b : Obj) : bool :=
  Bool.eqb (callable a) (callable b) && String.eqb (text a) (text b)
  && (oid a =? oid b)%nat.

(** SameValueZero, the key comparison of [Map] and of [Array.includes]. *)
Definition same_value_zero (a b : Value) : bool :=
  match a, b with
  | Undefined, Undefined => true
  | Null, Null => true
  | Boolean x, Boolean y => Bool.eqb x y
  | Number x, Number y => num_eqb x y
  | Str x, Str y => String.eqb x y
  | Object x, Object y => same_object x y
  | _, _ => false
  end.

(** [a === b]: as SameValueZero, except that [NaN] differs from itself. *)
Definition strict_equals (a b : Value) : bool :=
  match a, b with
  | Number NaN, Number NaN => false
  | _, _ => same_value_zero a b
  end.

Definition typeof (v : Value) : string :=
  match v with
  | Undefined => "undefined"
  | Null => "object"
  | Boolean _ => "boolean"
  | Number _ => "number"
  | Str _ => "string"
  | Object o => if callable o then "function" else "object"
  end.

(** [v === null || v === undefined]. *)
Definition nullish (v : Value) : bool :=
  match v with Undefined | Null => true | _ => false end.

(** *** Numeric literals *)

Definition digit_of (c : ascii) : option Z :=
  let n := Z.of_nat (nat_of_ascii c) in
  if (48 <=? n)%Z && (n <=? 57)%Z then Some (n - 48)%Z
  else if (97 <=? n)%Z && (n <=? 122)%Z then Some (n - 87)%Z
  else if (65 <=? n)%Z && (n <=? 90)%Z then Some (n - 55)%Z
  else None.

Definition digit_in (radix : Z) (c : ascii) : option Z :=
  match digit_of c with
  | Some d => if (d <? radix)%Z then Some d else None
  | None => None
  end.

(** Longest prefix of digits of the radix, and what follows it. *)
Fixpoint take_digits (radix : Z) (l : list ascii) : list Z * list ascii :=
  match l with
  | [] => ([], [])
  | c :: r =>
      match digit_in radix c with
      | Some d => let '(ds, rest) := take_digits radix r in (d :: ds, rest)
      | None => ([], l)
      end
  end.

Definition digits_value (radix : Z) (ds : list Z) : Z :=
  fold_left (fun acc d => acc * radix + d)%Z ds 0%Z.

Definition ascii_eqb (a b : ascii) : bool := (nat_of_ascii a =? nat_of_ascii b)%nat.

Fixpoint strip_prefix (p l : list ascii) : option (list ascii) :=
  match p, l with
  | [], _ => Some l
  | a :: p', b :: l' => if ascii_eqb a b then strip_prefix p' l' else None
  | _ :: _, [] => None
  end.

(** White space and line terminators (StrWhiteSpaceChar), in the UTF-8
    encoding strings are kept in: TAB, LF, VT, FF, CR, SP, U+00A0, U+1680,
    U+2000 to U+200A, U+2028, U+2029, U+202F, U+205F, U+3000 and U+FEFF. *)
Definition white_space : list (list ascii) :=
  map (map ascii_of_nat)
    ([[9]; [10]; [11]; [12]; [13]; [32]; [194; 160]; [225; 154; 128]]
     ++ map (fun n => [226; 128; n]) (seq 128 11)
     ++ [[226; 128; 168]; [226; 128; 169]; [226; 128; 175]; [226; 129; 159];
         [227; 128; 128]; [239; 187; 191]])%nat.

(** What follows the first of the sequences [ps] that [l] starts with. *)
Fixpoint strip_any (ps : list (list ascii)) (l : list ascii) : option (list ascii) :=
  match ps with
  | [] => None
  | p :: ps' =>
      match strip_prefix p l with
      | Some r => Some r
      | None => strip_any ps' l
      end
  end.

Fixpoint drop_any (fuel : nat) (ps : list (list ascii)) (l : list ascii) : list ascii :=
  match fuel with
  | O => l
  | S fuel' =>
      match strip_any ps l with
      | Some r => drop_any fuel' ps r
      | None => l
      end
  end.

Definition drop_white (l : list ascii) : list ascii :=
  drop_any (length l) white_space l.

Definition trim (l : list ascii) : list ascii :=
  rev (drop_any (length l) (map (@rev ascii) white_space) (rev (drop_white l))).

Definition take_sign (l : list ascii) : bool * list ascii :=
  match l with
  | "+"%char :: r => (false, r)
  | "-"%char :: r => (true, r)
  | _ => (false, l)
  end.

Definition signed (negative : bool) (z : Z) : Z :=
  if negative then (- z)%Z else z.

(** Longest prefix that is a StrUnsignedDecimalLiteral other than
    [Infinity]: mantissa, decimal exponent, and the unparsed rest. *)
Definition unsigned_decimal (l : list ascii) : option (Z * Z * list ascii) :=
  let '(ip, r1) := take_digits 10 l in
  let '(fp, r2) :=
    match r1 with
    | "."%char :: r' =>
        let '(fp, r2) := take_digits 10 r' in
        match ip, fp with
        | [], [] => ([], r1)
        | _, _ => (fp, r2)
        end
    | _ => ([], r1)
    end in
  match ip, fp with
  | [], [] => None
  | _, _ =>
      let '(ex, r3) :=
        match r2 with
        | c :: r' =>
            if ascii_eqb c "e" || ascii_eqb c "E" then
              let '(neg, r'') := take_sign r' in
              match take_digits 10 r'' with
              | ([], _) => (0%Z, r2)
              | (ds, rest) => (signed neg (digits_value 10 ds), rest)
              end
            else (0%Z, r2)
        | [] => (0%Z, r2)
        end in
      Some (digits_value 10 (ip ++ fp), (ex - Z.of_nat (length fp))%Z, r3)
  end.

Definition radix_literal (radix : Z) (l : list ascii) : Num :=
  match take_digits radix l with
  | (d :: ds, []) => to_double (int (digits_value radix (d :: ds)))
  | _ => NaN
  end.

Definition signed_decimal (l : list ascii) (whole : bool) : Num :=
  let '(neg, r) := take_sign l in
  match strip_prefix (list_ascii_of_string "Infinity") r with
  | Some rest =>
      match rest, whole with
      | _ :: _, true => NaN
      | _, _ => Infinity neg
      end
  | None =>
      match unsigned_decimal r with
      | Some (m, e, rest) =>
          match rest, whole with
          | _ :: _, true => NaN
          | _, _ => to_double (scaled (signed neg m) e)
          end
      | None => NaN
      end
  end.

(** StringToNumber: [Number(s)] for a string. *)
Definition StringToNumber (s : string) : Num :=
  match trim (list_ascii_of_string s) with
  | [] => int 0
  | ("0"%char :: c :: r) as l =>
      if ascii_eqb c "x" || ascii_eqb c "X" then radix_literal 16 r
      else if ascii_eqb c "o" || ascii_eqb c "O" then radix_literal 8 r
      else if ascii_eqb c "b" || ascii_eqb c "B" then radix_literal 2 r
      else signed_decimal l true
  | l => signed_decimal l true
  end.

(** [Number(v)]. *)
Definition ToNumber (v : Value) : Num :=
  match v with
  | Undefined => NaN
  | Null => int 0
  | Boolean b => int (if b then 1 else 0)
  | Number n => n
  | Str s => StringToNumber s
  | Object o => StringToNumber (text o)
  end.

(** *** Number to string *)

Fixpoint strip_zeros (rev_digits : list ascii) : list ascii :=
  match rev_digits with
  | "0"%char :: r => strip_zeros r
  | _ => rev_digits
  end.

Definition zeros (n : Z) : list ascii := replicate (Z.to_nat n) "0"%char.

(** Number::toString for a positive [m / 10^k] in lowest terms. *)
Definition positive_to_string (m : Z) (k : nat) : string :=
  let s := list_ascii_of_string (pretty (Z.to_N m)) in
  let n := (Z.of_nat (length s) - Z.of_nat k)%Z in
  let digits := rev (strip_zeros (rev s)) in
  let kk := Z.of_nat (length digits) in
  string_of_list_ascii
    (if (kk <=? n)%Z && (n <=? 21)%Z then digits ++ zeros (n - kk)
     else if (0 <? n)%Z && (n <=? 21)%Z then
       take (Z.to_nat n) digits ++ "."%char :: drop (Z.to_nat n) digits
     else if (-6 <? n)%Z && (n <=? 0)%Z then
       "0"%char :: "."%char :: zeros (- n) ++ digits
     else
       let e := (n - 1)%Z in
       let exponent :=
         "e"%char :: (if (e <? 0)%Z then "-"%char else "+"%char)
                  :: list_ascii_of_string (pretty (Z.to_N (Z.abs e))) in
       match digits with
       | [d] => d :: exponent
       | d :: ds => d :: "."%char :: ds ++ exponent
       | [] => exponent
       end).

Definition NumberToString (n : Num) : string :=
  match n with
  | NaN => "NaN"
  | Infinity negative => if negative then "-Infinity" else "Infinity"
  | Finite m k =>
      let '(m', k') := normalize m k in
      if (m' =? 0)%Z then "0"
      else if (m' <? 0)%Z then "-" +:+ positive_to_string (- m') k'
      else positive_to_string m' k'
  end.

(** [String(v)]. *)
Definition ToString (v : Value) : string :=
  match v with
  | Undefined => "undefined"
  | Null => "null"
  | Boolean b => if b then "true" else "false"
  | Number n => NumberToString n
  | Str s => s
  | Object o => text o
  end.

(** [Boolean(v)]. *)
Definition ToBoolean (v : Value) : bool :=
  match v with
  | Undefined | Null => false
  | Boolean b => b
  | Number NaN => false
  | Number (Infinity _) => true
  | Number (Finite m _) => negb (m =? 0)%Z
  | Str s => negb (String.eqb s "")
  | Object _ => true
  end.

(** [parseFloat(v)]: the longest decimal prefix of [String(v)]. *)
Definition parseFloat (v : Value) : Num :=
  signed_decimal (drop_white (list_ascii_of_string (ToString v))) false.

(** [parseInt(v)] with no radix argument. *)
Definition parseInt (v : Value) : Num :=
  let '(neg, r) := take_sign (drop_white (list_ascii_of_string (ToString v))) in
  let '(radix, r') :=
    match r with
    | "0"%char :: c :: r' =>
        if ascii_eqb c "x" || ascii_eqb c "X" then (16%Z, r') else (10%Z, r)
    | _ => (10%Z, r)
    end in
  match take_digits radix r' with
  | ([], _) => NaN
  | (ds, _) => to_double (int (signed neg (digits_value radix ds)))
  end.

(** *** Map objects *)

(** A [Map] keyed by values: entries in insertion order, keys pairwise
    distinct under SameValueZero. *)
Section JsMap.
Context {V : Type}.

Fixpoint Map_get (key : Value) (m : list (Value * V)) : option V :=
  match m with
  | [] => None
  | (k, v) :: m' => if same_value_zero k key then Some v else Map_get key m'
  end.

Definition Map_has (key : Value) (m : list (Value * V)) : bool :=
  match Map_get key m with Some _ => true | None => false end.

(** [m.set(key, v)]: overwrite in place, or append a new entry. *)
Fixpoint Map_set (key : Value) (v : V) (m : list (Value * V)) : list (Value * V) :=
  match m with
  | [] => [(key, v)]
  | (k, w) :: m' =>
      if same_value_zero k key then (k, v) :: m' else (k, w) :: Map_set key v m'
  end.

Fixpoint Map_delete (key : Value) (m : list (Value * V)) : list (Value * V) :=
  match m with
  | [] => []
  | (k, w) :: m' =>
      if same_value_zero k key then m' else (k, w) :: Map_delete key m'
  end.

End JsMap.

(** *** Dates *)

(** [Date.parse] accepts implementation-defined formats besides ISO 8601,
    so the date functions of the host are an interface: [Date_parse s] is
    the time value in milliseconds, or [None] for [NaN];
    [Date_toISOString] renders a valid time value. *)
Class DateEngine : Type := {
  Date_parse : string → option Z;
  Date_toISOString : Z → string
}.

(** The time value of [new Date(v)]: a string, and the string an object
    converts to, is parsed; anything else is converted to a number,
    truncated and clipped to +-8.64e15 ms. *)
Definition new_Date `{DateEngine} (v : Value) : option Z :=
  match v with
  | Str s => Date_parse s
  | Object o => Date_parse (text o)
  | _ =>
      match ToNumber v with
      | Finite m k =>
          let t := Z.quot m (10 ^ Z.of_nat k) in
          if (Z.abs t <=? 8640000000000000)%Z then Some t else None
      | _ => None
      end
  end.

End Js.

Import Js.

(** ** Rows *)

(** [RowData]: an object used as a dictionary from column names to values;
    the map holds its own properties. *)
Abbreviation RowData := (gmap string Value).

(** What reading [key] yields on an object that has no such property of
    its own: the member of that name of [Object.prototype], [undefined]
    when there is none. *)
Definition inherited (key : string) : Value :=
  if String.eqb key "__proto__" then Object (mkObj false "[object Object]" 0)
  else if String.eqb key "constructor" then
    Object (mkObj true "function Object() { [native code] }" 0)
  else if existsb (String.eqb key)
            ["toString"; "toLocaleString"; "valueOf"; "hasOwnProperty";
             "isPrototypeOf"; "propertyIsEnumerable"; "__defineGetter__";
             "__defineSetter__"; "__lookupGetter__"; "__lookupSetter__"] then
    Object (mkObj true ("function " +:+ key +:+ "() { [native code] }") 0)
  else Undefined.

(** [data[key]]. *)
Definition get (data : RowData) (key : string) : Value :=
  match data !! key with
  | Some v => v
  | None => inherited key
  end.

(** ** Column.ts *)

Module Column.

Record t : Type := mk {
  name : string;
  type : string;
  primaryKey : bool;
  unique : bool;
  nullable : bool;
  defaultValue : Value
}.

(** The constructor: an omitted (or [undefined]) argument takes its default,
    [primaryKey = false], [unique = false], [nullable = true],
    [defaultValue = null]. *)
Definition new (name type : string) (primaryKey unique nullable : option bool)
    (defaultValue : Value) : t :=
  {| name := name;
     type := type;
     primaryKey := default false primaryKey;
     unique := default false unique;
     nullable := default true nullable;
     defaultValue := match defaultValue with Undefined => Null | v => v end |}.

Section WithDates.
Context `{DateEngine}.

Definition validate (c : t) (value : Value) : bool :=
  if nullish value then nullable c
  else if String.eqb (type c) "INTEGER" then Number_isInteger (ToNumber value)
  else if String.eqb (type c) "FLOAT" then negb (isNaN (ToNumber value))
  else if String.eqb (type c) "STRING" then String.eqb (typeof value) "string"
  else if String.eqb (type c) "BOOLEAN" then
    String.eqb (typeof value) "boolean"
    || strict_equals value (Str "true") || strict_equals value (Str "false")
    || strict_equals value (Number (int 0)) || strict_equals value (Number (int 1))
  else if String.eqb (type c) "DATE" then
    (* [value instanceof Date] is false for every scalar *)
    negb (bool_decide (Date_parse (ToString value) = None)) || false
  else false.

Definition serialize (c : t) (value : Value) : Completion Value :=
  if nullish value then Returns Null
  else if String.eqb (type c) "INTEGER" then Returns (Number (parseInt value))
  else if String.eqb (type c) "FLOAT" then Returns (Number (parseFloat value))
  else if String.eqb (type c) "BOOLEAN" then Returns (Boolean (ToBoolean value))
  else if String.eqb (type c) "STRING" then Returns (Str (ToString value))
  else if String.eqb (type c) "DATE" then
    match new_Date value with
    | Some t => Returns (Str (Date_toISOString t))
    | None => Throws (RangeError "Invalid time value")
    end
  else Returns value.

End WithDates.

(** [column.primaryKey || column.unique]: the column has a secondary index. *)
Definition indexed (c : t) : bool := primaryKey c || unique c.

End Column.

(** ** Table.ts *)

Module Table.

(** A secondary index: [Map<any, number[]>], value to row positions. *)
Abbreviation Index := (list (Value * list nat)).

Record t : Type := mk {
  name : string;
  columns : list Column.t;
  primaryKeyColumn : option string;
  rows : list RowData;
  indexes : gmap string Index;
  (** whether an [onChange] callback is installed *)
  onChange : bool
}.

Definition with_rows (rs : list RowData) (tb : t) : t :=
  mk (name tb) (columns tb) (primaryKeyColumn tb) rs (indexes tb) (onChange tb).

Definition with_indexes (ix : gmap string Index) (tb : t) : t :=
  mk (name tb) (columns tb) (primaryKeyColumn tb) (rows tb) ix (onChange tb).

Definition with_onChange (cb : bool) (tb : t) : t :=
  mk (name tb) (columns tb) (primaryKeyColumn tb) (rows tb) (indexes tb) cb.

(** What a mutating method leaves behind: the table, the completion of the
    call, and whether [notifyChange] invoked the owner's callback. *)
Record Outcome (R : Type) : Type := mkOutcome {
  after : t;
  completion : Completion R;
  notified : bool
}.
Arguments mkOutcome {R} _ _ _.
Arguments after {R} _.
Arguments completion {R} _.
Arguments notified {R} _.

(** The object returned by [insert], [update] and [delete]; an absent
    property is [None]. *)
Record Result : Type := mkResult {
  success : bool;
  row : option RowData;
  rowsAffected : option nat;
  errors : option (list string)
}.

Definition createIndexes (cols : list Column.t) : gmap string Index :=
  fold_left
    (fun ix column =>
       if Column.indexed column then <[Column.name column := []]> ix else ix)
    cols ∅.

Definition new (name : string) (cols : list Column.t)
    (primaryKeyColumn : option string) (onChange : bool) : t :=
  mk name cols primaryKeyColumn [] (createIndexes cols) onChange.

(** [updateIndex] and [removeFromIndex] touch [this.indexes] only; they are
    functions on that field. *)
Definition updateIndex (columnName : string) (value : Value) (rowIndex : nat)
    (indexes : gmap string Index) : gmap string Index :=
  match indexes !! columnName with
  | Some index =>
      let index := if Map_has value index then index else Map_set value [] index in
      let indices := default [] (Map_get value index) in
      let index :=
        if existsb (Nat.eqb rowIndex) indices then index
        else Map_set value (indices ++ [rowIndex]) index in
      <[columnName := index]> indexes
  | None => indexes
  end.

Definition removeFromIndex (columnName : string) (value : Value) (rowIndex : nat)
    (indexes : gmap string Index) : gmap string Index :=
  match indexes !! columnName with
  | Some index =>
      match Map_get value index with
      | Some indices =>
          let updatedIndices := filter (fun i => i ≠ rowIndex) indices in
          let index :=
            if (length updatedIndices =? 0)%nat then Map_delete value index
            else Map_set value updatedIndices index in
          <[columnName := index]> indexes
      | None => indexes
      end
  | None => indexes
  end.

(** [notifyChange]: true when a callback is installed and gets called. *)
Definition notifyChange (tb : t) : bool := onChange tb.

(** [{ ...this.rows[i] }]: the copy of a missing row is the empty object. *)
Definition row_at (tb : t) (i : nat) : RowData := default ∅ (rows tb !! i).

Definition findByIndex (columnName : string) (value : Value) (tb : t) : list RowData :=
  match indexes tb !! columnName with
  | Some index =>
      match Map_get value index with
      | Some indices => map (row_at tb) indices
      | None => []
      end
  | None => []
  end.

(** [Object.keys(data)]. *)
Definition keys (data : RowData) : list string := (map_to_list data).*1.

Section WithDates.
Context `{DateEngine}.

(** The errors [validateRow] pushes for one column. *)
Definition validateColumn (data : RowData) (tb : t) (column : Column.t) : list string :=
  let value := get data (Column.name column) in
  if negb (Column.nullable column) && nullish value then
    ["Column '" +:+ Column.name column +:+ "' is required"]
  else
    (if negb (nullish value) && negb (Column.validate column value) then
       ["Invalid value for column '" +:+ Column.name column +:+ "'. Expected "
          +:+ Column.type column +:+ ", got " +:+ typeof value]
     else [])
    ++
    (if Column.unique column && negb (nullish value) then
       let existing := findByIndex (Column.name column) value tb in
       if (0 <? length existing)%nat then
         let isSameRow :=
           forallb
             (fun row =>
                existsb
                  (fun key => negb (strict_equals (get data key) (get row key)))
                  (keys data))
             existing in
         if negb isSameRow then
           ["Duplicate value for unique column '" +:+ Column.name column +:+ "': "
              +:+ ToString value]
         else []
       else []
     else []).

Definition validateRow (data : RowData) (tb : t) : bool * list string :=
  let errors := flat_map (validateColumn data tb) (columns tb) in
  ((length errors =? 0)%nat, errors).

(** The row [insert] stores: serialized supplied values, defaults elsewhere. *)
Definition buildRow (data : RowData) (cols : list Column.t) : Completion RowData :=
  foldM
    (fun (row : RowData) column =>
       value ←
         (if negb (strict_equals (get data (Column.name column)) Undefined)
          then Column.serialize column (get data (Column.name column))
          else Returns (Column.defaultValue column));
       Returns (<[Column.name column := value]> row))
    cols ∅.

(** The index updates of [insert] for the row stored at [rowIndex]. *)
Definition indexRow (row : RowData) (rowIndex : nat) (cols : list Column.t)
    (indexes : gmap string Index) : gmap string Index :=
  fold_left
    (fun indexes column =>
       if Column.indexed column
       then updateIndex (Column.name column) (get row (Column.name column)) rowIndex indexes
       else indexes)
    cols indexes.

Definition insert (data : RowData) (tb : t) : Outcome Result :=
  let validation := validateRow data tb in
  if negb validation.1 then
    mkOutcome tb (Returns (mkResult false None None (Some validation.2))) false
  else
    match buildRow data (columns tb) with
    | Throws e => mkOutcome tb (Throws e) false
    | Returns row =>
        let rowIndex := length (rows tb) in
        let tb := with_rows (rows tb ++ [row]) tb in
        let tb := with_indexes (indexRow row rowIndex (columns tb) (indexes tb)) tb in
        mkOutcome tb (Returns (mkResult true (Some row) None None)) (notifyChange tb)
    end.

Definition select (where_ : option (RowData → bool)) (tb : t) : list RowData :=
  match where_ with
  | None => rows tb
  | Some p => List.filter p (rows tb)
  end.

(** Phase one of [update]: the positions and copies of the matching rows. *)
Definition rowsToUpdate (where_ : option (RowData → bool)) (tb : t) : list (nat * RowData) :=
  List.filter
    (fun '(_, row) => match where_ with None => true | Some p => p row end)
    (imap (fun i row => (i, row)) (rows tb)).

(** [updatedRow]: the copy of [row] with each supplied value of a known
    column serialized into it. *)
Definition applyUpdates (updates row : RowData) (cols : list Column.t) : Completion RowData :=
  foldM
    (fun (updatedRow : RowData) key =>
       match List.find (fun c => String.eqb (Column.name c) key) cols with
       | Some column =>
           if negb (strict_equals (get updates key) Undefined) then
             value ← Column.serialize column (get updates key);
             Returns (<[key := value]> updatedRow)
           else Returns updatedRow
       | None => Returns updatedRow
       end)
    (keys updates) row.

(** [{name, oldValue, newValue}] for every indexed column whose value changed. *)
Definition changedIndexedColumns (row updatedRow : RowData) (cols : list Column.t)
    : list (string * Value * Value) :=
  flat_map
    (fun column =>
       let name := Column.name column in
       if Column.indexed column && negb (strict_equals (get row name) (get updatedRow name))
       then [(name, get row name, get updatedRow name)]
       else [])
    cols.

(** Phase two of [update], one candidate row after the other; an exception
    raised by [serialize] leaves the rows processed so far updated. *)
Fixpoint updateLoop (updates : RowData) (candidates : list (nat * RowData))
    (tb : t) (affected : nat) (errors : list string)
    : t * Completion (nat * list string) :=
  match candidates with
  | [] => (tb, Returns (affected, errors))
  | (index, row) :: rest =>
      match applyUpdates updates row (columns tb) with
      | Throws e => (tb, Throws e)
      | Returns updatedRow =>
          let validation := validateRow updatedRow tb in
          if negb validation.1 then
            updateLoop updates rest tb affected
              (errors ++ ["Row at index " +:+ pretty index +:+ ": "
                            +:+ String.concat ", " validation.2])
          else
            let changed := changedIndexedColumns row updatedRow (columns tb) in
            let tb :=
              with_indexes
                (fold_left (fun ix '(name, oldValue, _) => removeFromIndex name oldValue index ix)
                   changed (indexes tb))
                tb in
            let tb := with_rows (<[index := updatedRow]> (rows tb)) tb in
            let tb :=
              with_indexes
                (fold_left (fun ix '(name, _, newValue) => updateIndex name newValue index ix)
                   changed (indexes tb))
                tb in
            updateLoop updates rest tb (S affected) errors
      end
  end.

Definition update (updates : RowData) (where_ : option (RowData → bool)) (tb : t)
    : Outcome Result :=
  match updateLoop updates (rowsToUpdate where_ tb) tb 0 [] with
  | (tb, Throws e) => mkOutcome tb (Throws e) false
  | (tb, Returns (affected, errors)) =>
      mkOutcome tb
        (Returns
           (mkResult (length errors =? 0)%nat None (Some affected)
              (if (0 <? length errors)%nat then Some errors else None)))
        (if (0 <? affected)%nat then notifyChange tb else false)
  end.

End WithDates.

(** [indicesToDelete.sort((a, b) => b - a)]: descending order. *)
Fixpoint insert_desc (x : nat) (l : list nat) : list nat :=
  match l with
  | [] => [x]
  | y :: r => if (y <? x)%nat then x :: l else y :: insert_desc x r
  end.

Definition sort_desc (l : list nat) : list nat := foldr insert_desc [] l.

(** The renumbering [delete] applies to one index entry after removing the
    row at [index]: positions above it shift down, then positions equal to
    [index] are filtered out. *)
Definition renumber (index : nat) (indices : list nat) : list nat :=
  let updatedIndices := map (fun i => if (index <? i)%nat then i - 1 else i) indices in
  filter (fun i => i ≠ index) updatedIndices.

(** The first loop over the columns in [delete]: strip the row's entries. *)
Definition unindexRow (row : RowData) (index : nat) (cols : list Column.t)
    (indexes : gmap string Index) : gmap string Index :=
  fold_left
    (fun indexes column =>
       if Column.indexed column
       then removeFromIndex (Column.name column) (get row (Column.name column)) index indexes
       else indexes)
    cols indexes.

(** The second loop: renumber every entry of every indexed column. *)
Definition renumberIndexes (index : nat) (cols : list Column.t)
    (indexes : gmap string Index) : gmap string Index :=
  fold_left
    (fun indexes column =>
       if Column.indexed column then
         match indexes !! Column.name column with
         | Some indexMap =>
             (* [set] on the key being visited rewrites that entry in place *)
             <[Column.name column :=
                 map (fun '(value, indices) => (value, renumber index indices)) indexMap]>
               indexes
         | None => indexes
         end
       else indexes)
    cols indexes.

(** The body of [indicesToDelete.forEach]: the row at [index] exists, since
    positions are removed highest first. *)
Definition deleteAt (tb : t) (index : nat) : t :=
  let row := row_at tb index in
  let tb := with_indexes (unindexRow row index (columns tb) (indexes tb)) tb in
  let tb := with_rows (base.delete index (rows tb)) tb in
  with_indexes (renumberIndexes index (columns tb) (indexes tb)) tb.

Definition indicesToDelete (where_ : option (RowData → bool)) (tb : t) : list nat :=
  List.filter
    (fun i => match where_ with None => true | Some p => p (row_at tb i) end)
    (seq 0 (length (rows tb))).

Definition delete (where_ : option (RowData → bool)) (tb : t) : Outcome Result :=
  let found := indicesToDelete where_ tb in
  let tb := fold_left deleteAt (sort_desc found) tb in
  mkOutcome tb
    (Returns (mkResult true None (Some (length found)) None))
    (if (0 <? length found)%nat then notifyChange tb else false).

(** [getSchema().rowCount]. *)
Definition rowCount (tb : t) : nat := length (rows tb).

(** [column] has a secondary index and is named [columnName]. *)
Definition indexedAs (columnName : string) (column : Column.t) : bool :=
  Column.indexed column && String.eqb (Column.name column) columnName.

End Table.

(** ** A reference date engine

    The ISO 8601 interchange format every engine must implement:
    [Date.parse] of [YYYY-MM-DD] and of [YYYY-MM-DDTHH:mm:ss.sssZ], and
    [toISOString].  Strings in other formats are not recognised. *)

Module Iso8601.

#[local] Open Scope Z_scope.

(** Days since 1970-01-01 of a proleptic Gregorian date. *)
Definition days_from_civil (y m d : Z) : Z :=
  let y := if m <=? 2 then y - 1 else y in
  let era := y / 400 in
  let yoe := y - era * 400 in
  let doy := (153 * (if 2 <? m then m - 3 else m + 9) + 2) / 5 + d - 1 in
  let doe := yoe * 365 + yoe / 4 - yoe / 100 + doy in
  era * 146097 + doe - 719468.

Definition civil_from_days (z : Z) : Z * Z * Z :=
  let z := z + 719468 in
  let era := z / 146097 in
  let doe := z - era * 146097 in
  let yoe := (doe - doe / 1460 + doe / 36524 - doe / 146096) / 365 in
  let doy := doe - (365 * yoe + yoe / 4 - yoe / 100) in
  let mp := (5 * doy + 2) / 153 in
  let d := doy - (153 * mp + 2) / 5 + 1 in
  let m := if mp <? 10 then mp + 3 else mp - 9 in
  let y := yoe + era * 400 in
  ((if m <=? 2 then y + 1 else y), m, d).

Definition fixed_digits (n : nat) (l : list ascii) : option (Z * list ascii) :=
  let ds := (take_digits 10 (take n l)).1 in
  if (length ds =? n)%nat then Some (digits_value 10 ds, drop n l) else None.

Definition expect (c : ascii) (l : list ascii) : option (list ascii) :=
  match l with
  | x :: r => if ascii_eqb x c then Some r else None
  | [] => None
  end.

Definition check (b : bool) : option unit := if b then Some tt else None.

Definition parse (s : string) : option Z :=
  '(y, l) ← fixed_digits 4 (list_ascii_of_string s);
  l ← expect "-" l;
  '(mo, l) ← fixed_digits 2 l;
  l ← expect "-" l;
  '(d, l) ← fixed_digits 2 l;
  let days := days_from_civil y mo d in
  _ ← check ((1 <=? mo) && (mo <=? 12) && (1 <=? d)
             && bool_decide (civil_from_days days = (y, mo, d)));
  match l with
  | [] => Some (days * 86400000)
  | _ =>
      l ← expect "T" l;
      '(hh, l) ← fixed_digits 2 l;
      l ← expect ":" l;
      '(mm, l) ← fixed_digits 2 l;
      l ← expect ":" l;
      '(ss, l) ← fixed_digits 2 l;
      l ← expect "." l;
      '(ms, l) ← fixed_digits 3 l;
      l ← expect "Z" l;
      _ ← check ((hh <=? 23) && (mm <=? 59) && (ss <=? 59)
                 && match l with [] => true | _ => false end);
      Some (days * 86400000 + hh * 3600000 + mm * 60000 + ss * 1000 + ms)
  end.

(** [z] in decimal, left-padded with zeros to [n] digits. *)
Definition pad (n : nat) (z : Z) : string :=
  let s := pretty (Z.to_N z) in
  string_of_list_ascii (replicate (n - String.length s)%nat "0"%char) +:+ s.

Definition toISOString (t : Z) : string :=
  let days := t / 86400000 in
  let ms := t mod 86400000 in
  let '(y, mo, d) := civil_from_days days in
  (if (0 <=? y) && (y <=? 9999) then pad 4 y
   else (if y <? 0 then "-" else "+") +:+ pad 6 (Z.abs y))
  +:+ "-" +:+ pad 2 mo +:+ "-" +:+ pad 2 d
  +:+ "T" +:+ pad 2 (ms / 3600000) +:+ ":" +:+ pad 2 (ms / 60000 mod 60)
  +:+ ":" +:+ pad 2 (ms / 1000 mod 60) +:+ "." +:+ pad 3 (ms mod 1000) +:+ "Z".

#[global] Instance engine : DateEngine :=
  {| Date_parse := parse; Date_toISOString := toISOString |}.

End Iso8601.


(** ** FileQueue.ts *)

Module FileQueue.

#[local] Open Scope nat_scope.

Definition MAX_RETRIES : nat := 3.

(** What the queue writes to the console, plus the start of each write. *)
Inductive Event : Type :=
  | Attempt (uid : nat)              (* [fs.writeFile] started for the item *)
  | Saved (uid : nat)                (* "Saved to ..." *)
  | Retrying (uid : nat) (n : nat)   (* "Retrying save (n/3)" *)
  | Failed (uid : nat).              (* "Failed to save after 3 attempts" *)

Section WithPayload.
Context {A : Type}.

(** A queued item [{ filePath, data }]; [uid] stands for the identity of
    the object, fresh at every [enqueue]. *)
Record Item : Type := mkItem {
  filePath : string;
  data : A;
  uid : nat
}.

(** The continuations [processQueue] leaves with the event loop. *)
Inductive Task : Type :=
  | Write (item : Item)                  (* the awaited [mkdir]/[writeFile] *)
  | Timeout (item : Item) (delay : nat)  (* [setTimeout]: unshift, processQueue *)
  | Immediate.                           (* [setImmediate]: processQueue *)

Record t : Type := mk {
  queue : list Item;
  isProcessing : bool;
  retryAttempts : gmap string nat;
  tasks : list Task;
  nextUid : nat;
  log : list Event
}.

Definition new : t := mk [] false ∅ [] 0 [].

Definition with_tasks (ts : list Task) (q : t) : t :=
  mk (queue q) (isProcessing q) (retryAttempts q) ts (nextUid q) (log q).

Definition processQueue (q : t) : t :=
  match queue q with
  | [] => mk [] false (retryAttempts q) (tasks q) (nextUid q) (log q)
  | item :: rest =>
      mk rest true (retryAttempts q) (tasks q ++ [Write item]) (nextUid q)
         (log q ++ [Attempt (uid item)])
  end.

Definition enqueue (filePath : string) (data : A) (q : t) : t :=
  let item := mkItem filePath data (nextUid q) in
  let q := mk (queue q ++ [item]) (isProcessing q) (retryAttempts q) (tasks q)
              (S (nextUid q)) (log q) in
  if isProcessing q then q else processQueue q.

(** The [try] block ran to its end. *)
Definition writeSucceeded (item : Item) (q : t) : t :=
  mk (queue q) (isProcessing q) (base.delete (filePath item) (retryAttempts q))
     (tasks q ++ [Immediate]) (nextUid q) (log q ++ [Saved (uid item)]).

(** The [catch] block. *)
Definition writeFailed (item : Item) (q : t) : t :=
  let retryCount := default 0 (retryAttempts q !! filePath item) in
  if (retryCount <? MAX_RETRIES)%nat then
    mk (queue q) (isProcessing q)
       (<[filePath item := retryCount + 1]> (retryAttempts q))
       (tasks q ++ [Timeout item (100 * (retryCount + 1))]) (nextUid q)
       (log q ++ [Retrying (uid item) (retryCount + 1)])
  else
    mk (queue q) (isProcessing q) (base.delete (filePath item) (retryAttempts q))
       (tasks q ++ [Immediate]) (nextUid q) (log q ++ [Failed (uid item)]).

(** The [setTimeout] callback. *)
Definition timeoutFired (item : Item) (q : t) : t :=
  processQueue
    (mk (item :: queue q) (isProcessing q) (retryAttempts q) (tasks q) (nextUid q) (log q)).

(** The [setImmediate] callback. *)
Definition immediateFired (q : t) : t := processQueue q.

Definition clear (q : t) : t :=
  mk [] (isProcessing q) ∅ (tasks q) (nextUid q) (log q).

Definition getQueueLength (q : t) : nat := length (queue q).

(** One turn of the event loop: a caller enqueues, or a pending
    continuation runs.  A write settles either way; [clear], which nothing
    in the repository calls, is not a step. *)
Inductive step : t → t → Prop :=
  | step_enqueue q filePath data :
      step q (enqueue filePath data q)
  | step_write_ok q pre item post :
      tasks q = pre ++ Write item :: post →
      step q (writeSucceeded item (with_tasks (pre ++ post) q))
  | step_write_failed q pre item post :
      tasks q = pre ++ Write item :: post →
      step q (writeFailed item (with_tasks (pre ++ post) q))
  | step_timeout q pre item delay post :
      tasks q = pre ++ Timeout item delay :: post →
      step q (timeoutFired item (with_tasks (pre ++ post) q))
  | step_immediate q pre post :
      tasks q = pre ++ Immediate :: post →
      step q (immediateFired (with_tasks (pre ++ post) q)).

(** Runs of the queue. *)
Inductive steps : t → t → Prop :=
  | steps_refl q : steps q q
  | steps_step q1 q2 q3 : steps q1 q2 → step q2 q3 → steps q1 q3.

Definition reachable (q : t) : Prop := steps new q.

(** The item an event is about. *)
Definition subject (e : Event) : nat :=
  match e with Attempt v | Saved v | Retrying v _ | Failed v => v end.

(** How often the write of an item was started, how often the item was
    scheduled for a retry, and whether it was given up, read off the log. *)
Definition attemptsIn (u : nat) (l : list Event) : nat :=
  length (List.filter (fun e => match e with Attempt v => (v =? u)%nat | _ => false end) l).

Definition retriesIn (u : nat) (l : list Event) : nat :=
  length (List.filter (fun e => match e with Retrying v _ => (v =? u)%nat | _ => false end) l).

Definition attempts (u : nat) (q : t) : nat := attemptsIn u (log q).

Definition retries (u : nat) (q : t) : nat := retriesIn u (log q).

Definition dropped (u : nat) (q : t) : Prop := In (Failed u) (log q).

(** [this.retryAttempts.get(filePath) || 0]. *)
Definition retryCountOf (filePath : string) (q : t) : nat :=
  default 0 (retryAttempts q !! filePath).

(** *** The invariant of the runs *)

(** [retryAttempts] when the only counter that may be set is that of
    [filePath], at [c]. *)
Definition counter (filePath : string) (c : nat) : gmap string nat :=
  if (c =? 0)%nat then ∅ else {[filePath := c]}.

(** A queued item that was never attempted. *)
Definition untouched (q : t) (item : Item) : Prop :=
  uid item < nextUid q
  ∧ attempts (uid item) q = 0
  ∧ retries (uid item) q = 0
  ∧ ¬ dropped (uid item) q.

(** The item a pending continuation holds was retried [c] times, and [c] is
    what the counter of its destination says. *)
Definition in_flight (q : t) (item : Item) (c started : nat) : Prop :=
  retryAttempts q = counter (filePath item) c
  ∧ attempts (uid item) q = started
  ∧ retries (uid item) q = c
  ∧ uid item < nextUid q
  ∧ ¬ dropped (uid item) q
  ∧ ¬ In (uid item) (map uid (queue q)).

Definition task_ok (q : t) (task : Task) : Prop :=
  match task with
  | Write item => ∃ c, c ≤ MAX_RETRIES ∧ in_flight q item c (S c)
  | Timeout item _ => ∃ c, 1 ≤ c ∧ c ≤ MAX_RETRIES ∧ in_flight q item c c
  | Immediate => retryAttempts q = ∅
  end.

Record Inv (q : t) : Prop := mkInv {
  inv_idle : isProcessing q = false → tasks q = [] ∧ queue q = [] ∧ retryAttempts q = ∅;
  inv_busy : isProcessing q = true → ∃ task, tasks q = [task] ∧ task_ok q task;
  inv_queue : Forall (untouched q) (queue q);
  inv_nodup : NoDup (map uid (queue q));
  inv_bound : ∀ u, attempts u q ≤ S MAX_RETRIES ∧ retries u q ≤ MAX_RETRIES;
  inv_fresh : ∀ u, nextUid q ≤ u → attempts u q = 0 ∧ retries u q = 0 ∧ ¬ dropped u q
}.

End WithPayload.

Arguments Item : clear implicits.
Arguments Task : clear implicits.
Arguments t : clear implicits.

End FileQueue.

(** ** Database.ts *)

Module Database.

(** [ColumnDefinition] (types/database.ts), also the shape of a column in a
    saved schema; an absent optional property is [None], an absent
    [defaultValue] is [undefined]. *)
Record ColumnDefinition : Type := mkColumnDefinition {
  col_name : string;
  col_type : string;
  col_primaryKey : option bool;
  col_unique : option bool;
  col_nullable : option bool;
  col_defaultValue : Value
}.

(** [Table.getSchema()]. *)
Record Schema : Type := mkSchema {
  schema_name : string;
  schema_columns : list ColumnDefinition;
  rowCount : nat
}.

Record TableData : Type := mkTableData {
  table_name : string;
  schema : Schema;
  table_rows : list RowData
}.

(** The persisted document. *)
Record Snapshot : Type := mkSnapshot {
  snapshot_name : string;
  version : string;
  timestamp : string;
  snapshot_tables : list TableData
}.

Record t : Type := mk {
  tables : list (Value * Table.t);   (* [Map<string, Table>] *)
  name : string;
  dbFilePath : string;
  isInitializing : bool;
  fileQueue : FileQueue.t Snapshot
}.

Definition with_tables (ts : list (Value * Table.t)) (db : t) : t :=
  mk ts (name db) (dbFilePath db) (isInitializing db) (fileQueue db).

Definition with_isInitializing (b : bool) (db : t) : t :=
  mk (tables db) (name db) (dbFilePath db) b (fileQueue db).

(** The constructor, before [initializeStorage] runs. *)
Definition new (name : string) : t :=
  mk [] name ("data/" +:+ name +:+ ".json") false FileQueue.new.

Definition getSchema (tb : Table.t) : Schema :=
  mkSchema (Table.name tb)
    (map
       (fun col =>
          mkColumnDefinition (Column.name col) (Column.type col)
            (Some (Column.primaryKey col)) (Some (Column.unique col))
            (Some (Column.nullable col)) (Column.defaultValue col))
       (Table.columns tb))
    (length (Table.rows tb)).

(** [toJSON]; [now] is [new Date().toISOString()]. *)
Definition toJSON (now : string) (db : t) : Snapshot :=
  mkSnapshot (name db) "1.0" now
    (map
       (fun '(key, table) =>
          mkTableData (ToString key) (getSchema table) (Table.select None table))
       (tables db)).

Definition saveToFile (now : string) (db : t) : t :=
  if isInitializing db then db
  else
    let data := toJSON now db in
    mk (tables db) (name db) (dbFilePath db) (isInitializing db)
       (FileQueue.enqueue (dbFilePath db) data (fileQueue db)).

Definition getTable (tableName : string) (db : t) : option Table.t :=
  Map_get (Str tableName) (tables db).

Definition listTables (db : t) : list string :=
  map (fun entry => ToString entry.1) (tables db).

Definition createTable (now : string) (tableName : string)
    (columns : list ColumnDefinition) (db : t) : t * Completion bool :=
  if Map_has (Str tableName) (tables db) then
    (db, Throws (PlainError ("Table '" +:+ tableName +:+ "' already exists")))
  else
    let tableColumns :=
      map
        (fun col =>
           Column.new (col_name col) (col_type col)
             (Some (default false (col_primaryKey col)))
             (Some (default false (col_unique col)))
             None Undefined)
        columns in
    let primaryKeyColumn :=
      col_name <$> List.find (fun col => default false (col_primaryKey col)) columns in
    let table := Table.new tableName tableColumns primaryKeyColumn true in
    let db := with_tables (Map_set (Str tableName) table (tables db)) db in
    (saveToFile now db, Returns true).

Definition dropTable (now : string) (tableName : string) (db : t) : t * bool :=
  let success := Map_has (Str tableName) (tables db) in
  let db := with_tables (Map_delete (Str tableName) (tables db)) db in
  if success then (saveToFile now db, true) else (db, false).

Section WithDates.
Context `{DateEngine}.

(** A call [db.getTable(tableName).method(...)] made by the request layer:
    the table is mutated in place, and its [onChange] callback runs
    [saveToFile] on the owner.  [None] when no such table exists. *)
Definition onTable {R} (now : string) (tableName : string)
    (method : Table.t → Table.Outcome R) (db : t) : t * option (Completion R) :=
  match getTable tableName db with
  | None => (db, None)
  | Some table =>
      let o := method table in
      let db := with_tables (Map_set (Str tableName) (Table.after o) (tables db)) db in
      ((if Table.notified o then saveToFile now db else db), Some (Table.completion o))
  end.

(** [insertWithoutNotify]: the statements of [Table.insert] without the
    final notification. *)
Definition insertWithoutNotify (table : Table.t) (rowData : RowData)
    : Table.t * Completion (bool * option (list string)) :=
  let validation := Table.validateRow rowData table in
  if negb validation.1 then (table, Returns (false, Some validation.2))
  else
    match Table.buildRow rowData (Table.columns table) with
    | Throws e => (table, Throws e)
    | Returns row =>
        let rowIndex := length (Table.rows table) in
        let table := Table.with_rows (Table.rows table ++ [row]) table in
        (Table.with_indexes
           (Table.indexRow row rowIndex (Table.columns table) (Table.indexes table)) table,
         Returns (true, None))
    end.

(** The loop over [tableData.rows]: a row that fails validation is skipped
    (with a warning), an exception ends the loop. *)
Fixpoint restoreRows (rows : list RowData) (table : Table.t) : Completion Table.t :=
  match rows with
  | [] => Returns table
  | rowData :: rest =>
      match insertWithoutNotify table rowData with
      | (table, Returns _) => restoreRows rest table
      | (_, Throws e) => Throws e
      end
  end.

(** The [try] block of [restoreFromData] up to [this.tables.set]. *)
Definition restoreTable (tableData : TableData) : Completion Table.t :=
  let columns :=
    map
      (fun colData =>
         Column.new (col_name colData) (col_type colData)
           (Some (default false (col_primaryKey colData)))
           (Some (default false (col_unique colData)))
           (Some (default true (col_nullable colData)))
           (col_defaultValue colData))
      (schema_columns (schema tableData)) in
  let table :=
    Table.new (table_name tableData) columns
      (col_name <$> List.find (fun c => default false (col_primaryKey c))
                      (schema_columns (schema tableData)))
      false in
  table ← restoreRows (table_rows tableData) (Table.with_onChange false table);
  Returns (Table.with_onChange true table).

(** [restoreFromData] for a well-formed document; a table whose
    restoration throws is logged and left out. *)
Definition restoreFromData (savedData : Snapshot) (db : t) : t :=
  fold_left
    (fun db tableData =>
       match restoreTable tableData with
       | Returns table =>
           with_tables (Map_set (Str (table_name tableData)) table (tables db)) db
       | Throws _ => db
       end)
    (snapshot_tables savedData) db.

(** [initializeStorage] with the outcome of reading the file: the parsed
    document, or [None] when there is none. *)
Definition initializeStorage (file : option Snapshot) (db : t) : t :=
  let db := with_isInitializing true db in
  let db := match file with Some savedData => restoreFromData savedData db | None => db end in
  with_isInitializing false db.

End WithDates.

(** [JSON.parse(JSON.stringify(v))] on a property value: [NaN] and the
    infinities are written as [null]; a property holding [undefined] or a
    function is not written at all. *)
Definition json_value (v : Value) : option Value :=
  match v with
  | Undefined => None
  | Number NaN | Number (Infinity _) => Some Null
  | Object o => if callable o then None else Some v
  | _ => Some v
  end.

(** What a written snapshot reads back as. *)
Definition json_roundtrip (s : Snapshot) : Snapshot :=
  mkSnapshot (snapshot_name s) (version s) (timestamp s)
    (map
       (fun td =>
          mkTableData (table_name td)
            (mkSchema (schema_name (schema td))
               (map
                  (fun c =>
                     mkColumnDefinition (col_name c) (col_type c) (col_primaryKey c)
                       (col_unique c) (col_nullable c)
                       (default Undefined (json_value (col_defaultValue c))))
                  (schema_columns (schema td)))
               (rowCount (schema td)))
            (map (omap json_value) (table_rows td)))
       (snapshot_tables s)).

End Database.

(** ** Runs of the persistence queue *)

Module QueueProgress.

Import FileQueue.
#[local] Open Scope nat_scope.

Section WithPayload.
Context {A : Type}.

(** A turn of the event loop in which a pending continuation runs: any
    step of the queue but an [enqueue]. *)
Inductive settle : FileQueue.t A → FileQueue.t A → Prop :=
  | settle_write_ok q pre item post :
      tasks q = pre ++ Write item :: post →
      settle q (writeSucceeded item (with_tasks (pre ++ post) q))
  | settle_write_failed q pre item post :
      tasks q = pre ++ Write item :: post →
      settle q (writeFailed item (with_tasks (pre ++ post) q))
  | settle_timeout q pre item delay post :
      tasks q = pre ++ Timeout item delay :: post →
      settle q (timeoutFired item (with_tasks (pre ++ post) q))
  | settle_immediate q pre post :
      tasks q = pre ++ Immediate :: post →
      settle q (immediateFired (with_tasks (pre ++ post) q)).

(** [settles n q q']: [n] such turns lead from [q] to [q']. *)
Inductive settles : nat → FileQueue.t A → FileQueue.t A → Prop :=
  | settles_O q : settles 0 q q
  | settles_S n q1 q2 q3 : settle q1 q2 → settles n q2 q3 → settles (S n) q1 q3.

(** The turns a pending continuation can still cause for its own item:
    two for every retry that is left (the timer, then the write), and the
    turns that end the item. *)
Definition task_work (q : FileQueue.t A) (task : Task A) : nat :=
  match task with
  | Write item => 2 * (MAX_RETRIES - retryCountOf (filePath item) q) + 2
  | Timeout item _ => 2 * (MAX_RETRIES - retryCountOf (filePath item) q) + 3
  | Immediate => 1
  end.

(** A bound on the turns left before the queue is idle. *)
Definition work (q : FileQueue.t A) : nat :=
  (2 * MAX_RETRIES + 3) * length (queue q) + list_sum (map (task_work q) (tasks q)).

(** The item a continuation holds. *)
Definition held (task : Task A) : option (Item A) :=
  match task with
  | Write item | Timeout item _ => Some item
  | Immediate => None
  end.

(** Items are served in the order of their [enqueue]: the log never goes
    back to an earlier item, the items that wait are in that order, and
    they come after the item in flight and after everything logged. *)
Record Ordered (q : FileQueue.t A) : Prop := mkOrdered {
  ord_log : StronglySorted le (map subject (log q));
  ord_queue : StronglySorted lt (map uid (queue q));
  ord_waiting : ∀ e item, In e (log q) → In item (queue q) → subject e < uid item;
  ord_held : ∀ task item, In task (tasks q) → held task = Some item →
      (∀ e, In e (log q) → subject e ≤ uid item)
      ∧ (∀ item', In item' (queue q) → uid item < uid item')
      ∧ uid item < nextUid q;
  ord_logged : ∀ e, In e (log q) → subject e < nextUid q;
  ord_queued : ∀ item, In item (queue q) → uid item < nextUid q
}.

(** The turns of a client that also uses [clear]: a step of the queue, or
    a call of [clear]. *)
Inductive turn : FileQueue.t A → FileQueue.t A → Prop :=
  | turn_step q q' : step q q' → turn q q'
  | turn_clear q : turn q (clear q).

Inductive turns : FileQueue.t A → FileQueue.t A → Prop :=
  | turns_refl q : turns q q
  | turns_turn q1 q2 q3 : turns q1 q2 → turn q2 q3 → turns q1 q3.

(** The item numbered [u] was enqueued, and neither the queue nor a pending
    continuation holds it. *)
Definition gone (u : nat) (q : FileQueue.t A) : Prop :=
  u < nextUid q
  ∧ ¬ In u (map uid (queue q))
  ∧ ∀ task item, In task (tasks q) → held task = Some item → uid item ≠ u.

End WithPayload.

End QueueProgress.

(** ** Well-formed tables *)

Module TableInv.

(** The keys of a [Map] are pairwise distinct under SameValueZero. *)
Fixpoint distinct_keys {V} (m : list (Value * V)) : Prop :=
  match m with
  | [] => True
  | (k, _) :: m' => Map_get k m' = None ∧ distinct_keys m'
  end.

(** The index records position [i] under the key [k]. *)
Definition records (index : Table.Index) (k : Value) (i : nat) : Prop :=
  ∃ l, In (k, l) index ∧ In i l.

(** Every recorded position holds a row, and the row's value in the column
    is the key the position is recorded under. *)
Definition sound (tb : Table.t) : Prop :=
  ∀ cn index k i,
    Table.indexes tb !! cn = Some index →
    records index k i →
    ∃ row, Table.rows tb !! i = Some row ∧ same_value_zero (get row cn) k = true.

(** The index maps are those of the indexed columns. *)
Definition indexed_dom (tb : Table.t) : Prop :=
  ∀ cn, is_Some (Table.indexes tb !! cn)
        ↔ existsb (Table.indexedAs cn) (Table.columns tb) = true.

(** No two indexed columns share a name. *)
Definition unique_index_names (cols : list Column.t) : Prop :=
  NoDup (map Column.name (List.filter Column.indexed cols)).

Record indexes_ok (tb : Table.t) : Prop := mkOk {
  ok_names : unique_index_names (Table.columns tb);
  ok_dom : indexed_dom tb;
  ok_distinct : ∀ cn index, Table.indexes tb !! cn = Some index → distinct_keys index;
  ok_sound : sound tb
}.

(** The entries [insert] writes and [delete] strips for a row: the name
    of each indexed column with the value the row holds in it. *)
Definition index_entries (row : RowData) (cols : list Column.t) : list (string * Value) :=
  map (fun c => (Column.name c, get row (Column.name c)))
    (List.filter Column.indexed cols).

(** The keys of a stored row are the names of the columns. *)
Definition row_keyed (cols : list Column.t) (row : RowData) : Prop :=
  ∀ key, is_Some (row !! key) ↔ In key (map Column.name cols).

(** The row holds neither [null] nor [undefined] in a column that is not
    nullable. *)
Definition row_required (cols : list Column.t) (row : RowData) : Prop :=
  ∀ c, In c cols → Column.nullable c = false →
       nullish (get row (Column.name c)) = false.

(** The [typeof] of what [serialize] returns for a value that is not
    [null], by the type of the column; [None] for a type it passes through. *)
Definition stored_typeof (type : string) : option string :=
  if String.eqb type "INTEGER" then Some "number"
  else if String.eqb type "FLOAT" then Some "number"
  else if String.eqb type "BOOLEAN" then Some "boolean"
  else if String.eqb type "STRING" then Some "string"
  else if String.eqb type "DATE" then Some "string"
  else None.

(** What a column can hold: [null], its default, or a value of the kind
    its type is stored as. *)
Definition stored_in (c : Column.t) (v : Value) : Prop :=
  v = Null ∨ v = Column.defaultValue c
  ∨ stored_typeof (Column.type c) = Some (typeof v).

(** Every property of the row is held as some column of its name holds
    values. *)
Definition row_typed (cols : list Column.t) (row : RowData) : Prop :=
  ∀ key v, row !! key = Some v →
    ∃ c, In c cols ∧ Column.name c = key ∧ stored_in c v.

Definition well_formed (cols : list Column.t) (row : RowData) : Prop :=
  row_keyed cols row ∧ row_required cols row ∧ row_typed cols row.

Section WithDates.
Context `{DateEngine}.

(** The tables a program can hold: [new Table(...)] followed by calls of
    [insert], [update] and [delete]; [restoreFromData] also removes and
    reinstalls the callback. *)
Inductive reachable : Table.t → Prop :=
  | reach_new name cols primaryKeyColumn onChange :
      reachable (Table.new name cols primaryKeyColumn onChange)
  | reach_insert data tb :
      reachable tb → reachable (Table.after (Table.insert data tb))
  | reach_update updates where_ tb :
      reachable tb → reachable (Table.after (Table.update updates where_ tb))
  | reach_delete where_ tb :
      reachable tb → reachable (Table.after (Table.delete where_ tb))
  | reach_onChange cb tb :
      reachable tb → reachable (Table.with_onChange cb tb).

(** The tables from which no row was ever deleted. *)
Inductive grown : Table.t → Prop :=
  | grow_new name cols primaryKeyColumn onChange :
      grown (Table.new name cols primaryKeyColumn onChange)
  | grow_insert data tb :
      grown tb → grown (Table.after (Table.insert data tb))
  | grow_update updates where_ tb :
      grown tb → grown (Table.after (Table.update updates where_ tb))
  | grow_onChange cb tb :
      grown tb → grown (Table.with_onChange cb tb).

(** A value a column takes back as it is: JSON writes it as it is,
    [validate] accepts it and [serialize] returns it unchanged. *)
Definition settled (c : Column.t) (v : Value) : Prop :=
  Database.json_value v = Some v
  ∧ Column.validate c v = true
  ∧ Column.serialize c v = Returns v.

(** Every row holds, in every column, a settled value. *)
Definition rows_settled (cols : list Column.t) (rows : list RowData) : Prop :=
  ∀ row c, In row rows → In c cols → settled c (get row (Column.name c)).

End WithDates.

(** No value occurs twice in a unique column. *)
Definition unique_values (cols : list Column.t) (rows : list RowData) : Prop :=
  ∀ i j row_i row_j c,
    i < j → rows !! i = Some row_i → rows !! j = Some row_j →
    In c cols → Column.unique c = true →
    nullish (get row_j (Column.name c)) = false →
    same_value_zero (get row_i (Column.name c)) (get row_j (Column.name c)) = false.

(** The index of every indexed column lists every row, under the value the
    row holds in the column. *)
Definition complete (tb : Table.t) : Prop :=
  ∀ i row c,
    Table.rows tb !! i = Some row → In c (Table.columns tb) →
    Column.indexed c = true →
    ∃ index l,
      Table.indexes tb !! Column.name c = Some index
      ∧ Map_get (get row (Column.name c)) index = Some l
      ∧ In i l.

Record indexes_full (tb : Table.t) : Prop := mkFull {
  full_dom : indexed_dom tb;
  full_distinct : ∀ cn index, Table.indexes tb !! cn = Some index → distinct_keys index;
  full_complete : complete tb
}.

End TableInv.

(** ** The states of the database *)

Module DatabaseInv.

Definition with_fileQueue (q : FileQueue.t Database.Snapshot) (db : Database.t)
    : Database.t :=
  Database.mk (Database.tables db) (Database.name db) (Database.dbFilePath db)
    (Database.isInitializing db) q.

Section WithDates.
Context `{DateEngine}.

(** The states a server goes through: [new Database(name)] with the load
    the constructor starts ([file] is what the data file holds, if there is
    one), then the calls of the request layer -- which reaches the tables
    through [getTable] -- and the turns of the persistence queue.  Requests
    are taken to arrive after the load has finished. *)
Inductive reachable : Database.t → Prop :=
  | reach_new name file :
      reachable (Database.initializeStorage file (Database.new name))
  | reach_createTable now tableName columns db :
      reachable db → reachable (Database.createTable now tableName columns db).1
  | reach_dropTable now tableName db :
      reachable db → reachable (Database.dropTable now tableName db).1
  | reach_insert now tableName data db :
      reachable db →
      reachable (Database.onTable now tableName (Table.insert data) db).1
  | reach_update now tableName updates where_ db :
      reachable db →
      reachable (Database.onTable now tableName (Table.update updates where_) db).1
  | reach_delete now tableName where_ db :
      reachable db →
      reachable (Database.onTable now tableName (Table.delete where_) db).1
  | reach_queue db q :
      reachable db → QueueProgress.settle (Database.fileQueue db) q →
      reachable (with_fileQueue q db).

(** What holds of every table the database holds. *)
Definition table_ok (entry : Value * Table.t) : Prop :=
  (∃ tableName, entry.1 = Str tableName)
  ∧ TableInv.reachable entry.2
  ∧ Table.onChange entry.2 = true.

Record Inv (db : Database.t) : Prop := mkInv {
  inv_keys : TableInv.distinct_keys (Database.tables db);
  inv_tables : Forall table_ok (Database.tables db);
  inv_queue : FileQueue.reachable (Database.fileQueue db);
  inv_loaded : Database.isInitializing db = false
}.

End WithDates.

End DatabaseInv.

(** ** api/routes/database.ts *)

Module Routes.

(** The JSON object a handler responds with, and the status it sets; a
    property the handler does not write is [None]. *)
Record Reply : Type := mkReply {
  status : nat;
  success : bool;
  message : option string;
  errors : option (list string);
  data : option (list RowData);
  tables : option (list string);
  schema : option Database.Schema;
  rowsAffected : option nat;
  successCount : option nat;
  errorCount : option nat;
  total : option nat;
  limit : option Num;
  offset : option Num
}.

Definition reply (status : nat) (success : bool) : Reply :=
  mkReply status success None None None None None None None None None None None.

Definition with_message (m : string) (r : Reply) : Reply :=
  mkReply (status r) (success r) (Some m) (errors r) (data r) (tables r) (schema r)
    (rowsAffected r) (successCount r) (errorCount r) (total r) (limit r) (offset r).

Definition with_errors (e : option (list string)) (r : Reply) : Reply :=
  mkReply (status r) (success r) (message r) e (data r) (tables r) (schema r)
    (rowsAffected r) (successCount r) (errorCount r) (total r) (limit r) (offset r).

Definition with_data (d : list RowData) (r : Reply) : Reply :=
  mkReply (status r) (success r) (message r) (errors r) (Some d) (tables r) (schema r)
    (rowsAffected r) (successCount r) (errorCount r) (total r) (limit r) (offset r).

Definition with_tables (t : list string) (r : Reply) : Reply :=
  mkReply (status r) (success r) (message r) (errors r) (data r) (Some t) (schema r)
    (rowsAffected r) (successCount r) (errorCount r) (total r) (limit r) (offset r).

Definition with_schema (s : Database.Schema) (r : Reply) : Reply :=
  mkReply (status r) (success r) (message r) (errors r) (data r) (tables r) (Some s)
    (rowsAffected r) (successCount r) (errorCount r) (total r) (limit r) (offset r).

Definition with_rowsAffected (n : option nat) (r : Reply) : Reply :=
  mkReply (status r) (success r) (message r) (errors r) (data r) (tables r) (schema r)
    n (successCount r) (errorCount r) (total r) (limit r) (offset r).

Definition with_counts (ok failed : nat) (r : Reply) : Reply :=
  mkReply (status r) (success r) (message r) (errors r) (data r) (tables r) (schema r)
    (rowsAffected r) (Some ok) (Some failed) (total r) (limit r) (offset r).

Definition with_page (n : nat) (l : option Num) (o : Num) (r : Reply) : Reply :=
  mkReply (status r) (success r) (message r) (errors r) (data r) (tables r) (schema r)
    (rowsAffected r) (successCount r) (errorCount r) (Some n) l (Some o).

(** The 404 every table route answers with when [getTable] finds nothing. *)
Definition notFound (tableName : string) : Reply :=
  with_message ("Table '" +:+ tableName +:+ "' not found") (reply 404 false).

(** [error.message]. *)
Definition error_message (e : Error) : string :=
  match e with RangeError m | PlainError m => m end.

(** [`${n}`] for a count. *)
Definition count (n : option nat) : string := pretty (default 0 n).

(** A query parameter or a body property tested for truthiness: the empty
    string counts as absent. *)
Definition given (s : option string) : option string :=
  match s with
  | Some s' => if String.eqb s' "" then None else Some s'
  | None => None
  end.

(** The predicate of the select and delete routes:
    [for (const [key, value] of Object.entries(where)) if (row[key] !== value) return false]. *)
Definition whereEquals (where_ : RowData) (row : RowData) : bool :=
  forallb (fun '(key, value) => strict_equals (get row key) value) (map_to_list where_).


(** The index [Array.prototype.slice] makes of a relative position: a
    negative one counts from the end, and the result is clamped to the
    length. *)
Definition relative (len : nat) (n : Num) : nat :=
  match n with
  | NaN => 0
  | Infinity negative => if negative then 0 else len
  | Finite m k =>
      let z := Z.quot m (10 ^ Z.of_nat k) in
      if (z <? 0)%Z then Z.to_nat (Z.max (Z.of_nat len + z) 0)
      else Nat.min (Z.to_nat z) len
  end.

(** [rows.slice(start)] and [rows.slice(0, end)]. *)
Definition slice_from {X} (start : Num) (rows : list X) : list X :=
  drop (relative (length rows) start) rows.

Definition slice_to {X} (end_ : Num) (rows : list X) : list X :=
  take (relative (length rows) end_) rows.

(** [n > 0] for a number. *)
Definition positive (n : Num) : bool :=
  match n with
  | NaN => false
  | Infinity negative => negb negative
  | Finite m _ => (0 <? m)%Z
  end.

Section WithDates.
Context `{DateEngine}.

(** The effect on the database of a method called on a table obtained from
    [getTable]: the table object is the one the database holds, and its
    callback saves the database. *)
Definition call {R} (now tableName : string) (o : Table.Outcome R) (db : Database.t)
    : Database.t :=
  let db :=
    Database.with_tables
      (Map_set (Str tableName) (Table.after o) (Database.tables db)) db in
  if Table.notified o then Database.saveToFile now db else db.

(** [POST /tables]; [name] and [columns] are the properties of the body,
    [columns] being [None] unless it is an array. *)
Definition createTable (now : string) (name : option string)
    (columns : option (list Database.ColumnDefinition)) (db : Database.t)
    : Database.t * Reply :=
  match given name, columns with
  | Some tableName, Some cols =>
      match Database.createTable now tableName cols db with
      | (db, Returns success) =>
          (db, with_message ("Table '" +:+ tableName +:+ "' created successfully")
                 (reply 200 success))
      | (db, Throws e) => (db, with_message (error_message e) (reply 400 false))
      end
  | _, _ =>
      (db, with_message "Table name and columns array are required" (reply 400 false))
  end.

(** [GET /tables]. *)
Definition listTables (db : Database.t) : Reply :=
  with_tables (Database.listTables db) (reply 200 true).

(** [GET /tables/:tableName]. *)
Definition getSchema (tableName : string) (db : Database.t) : Reply :=
  match Database.getTable tableName db with
  | None => notFound tableName
  | Some table => with_schema (Database.getSchema table) (reply 200 true)
  end.

(** [POST /tables/:tableName/rows]. *)
Definition insertRow (now tableName : string) (body : RowData) (db : Database.t)
    : Database.t * Completion Reply :=
  match Database.getTable tableName db with
  | None => (db, Returns (notFound tableName))
  | Some table =>
      let o := Table.insert body table in
      (call now tableName o db,
       result ← Table.completion o;
       Returns
         (if Table.success result
          then with_message "Row inserted successfully" (reply 200 true)
          else with_errors (Table.errors result) (reply 400 false)))
  end.

(** The loop of [POST /tables/:tableName/bulk] over the rows of the body,
    from the row at [index]. *)
Fixpoint bulkLoop (now tableName : string) (rows : list RowData) (index : nat)
    (table : Table.t) (db : Database.t) (successCount errorCount : nat)
    (errors : list string)
    : Database.t * Completion (nat * nat * list string) :=
  match rows with
  | [] => (db, Returns (successCount, errorCount, errors))
  | row :: rest =>
      let o := Table.insert row table in
      let db := call now tableName o db in
      match Table.completion o with
      | Throws e => (db, Throws e)
      | Returns result =>
          if Table.success result then
            bulkLoop now tableName rest (S index) (Table.after o) db
              (S successCount) errorCount errors
          else
            bulkLoop now tableName rest (S index) (Table.after o) db
              successCount (S errorCount)
              (errors ++ ["Row " +:+ pretty (index + 1)%nat +:+ ": "
                            +:+ String.concat ", " (default [] (Table.errors result))])
      end
  end.

(** [POST /tables/:tableName/bulk]; [body] is [None] unless it is an array. *)
Definition bulkInsert (now tableName : string) (body : option (list RowData))
    (db : Database.t) : Database.t * Completion Reply :=
  match Database.getTable tableName db with
  | None => (db, Returns (notFound tableName))
  | Some table =>
      match body with
      | None =>
          (db, Returns (with_message "Request body must be an array of rows"
                          (reply 400 false)))
      | Some rows =>
          let '(db, outcome) := bulkLoop now tableName rows 0 table db 0 0 [] in
          (db,
           '(successCount, errorCount, errors) ← outcome;
           Returns
             (with_counts successCount errorCount
                (with_errors (Some errors)
                   (with_message
                      ("Inserted " +:+ pretty successCount +:+ " rows, "
                         +:+ pretty errorCount +:+ " failed")
                      (reply 200 (errorCount =? 0)%nat)))))
      end
  end.

(** [GET /tables/:tableName/rows]; [where_] is the parsed [where] query
    parameter when it is an object. *)
Definition selectRows (tableName : string) (where_ : option RowData) (db : Database.t)
    : Reply :=
  match Database.getTable tableName db with
  | None => notFound tableName
  | Some table =>
      with_data (Table.select (whereEquals <$> where_) table) (reply 200 true)
  end.

(** [GET /tables/:tableName/data]; [limit] and [offset] are the query
    parameters, as strings. *)
Definition getData (tableName : string) (limit offset : option string) (db : Database.t)
    : Reply :=
  match Database.getTable tableName db with
  | None => notFound tableName
  | Some table =>
      let limit := (fun s => parseInt (Str s)) <$> given limit in
      let offset :=
        match given offset with Some s => parseInt (Str s) | None => int 0 end in
      let rows := Table.select None table in
      let rows := if positive offset then slice_from offset rows else rows in
      let rows :=
        match limit with
        | Some n => if ToBoolean (Number n) then slice_to n rows else rows
        | None => rows
        end in
      with_page (Table.rowCount table) limit offset (with_data rows (reply 200 true))
  end.


(** [DELETE /tables/:tableName/rows]. *)
Definition deleteRows (now tableName : string) (where_ : option RowData)
    (db : Database.t) : Database.t * Completion Reply :=
  match Database.getTable tableName db with
  | None => (db, Returns (notFound tableName))
  | Some table =>
      let o := Table.delete (whereEquals <$> where_) table in
      (call now tableName o db,
       result ← Table.completion o;
       Returns
         (with_message (count (Table.rowsAffected result) +:+ " row(s) deleted")
            (reply 200 true)))
  end.

(** [DELETE /tables/:tableName/rows/:rowId]. *)
Definition deleteRowById (now tableName rowId : string) (db : Database.t)
    : Database.t * Completion Reply :=
  match Database.getTable tableName db with
  | None => (db, Returns (notFound tableName))
  | Some table =>
      match List.find Column.primaryKey (Table.columns table) with
      | None =>
          (db, Returns (with_message "Table has no primary key defined" (reply 400 false)))
      | Some primaryKeyColumn =>
          let o :=
            Table.delete
              (Some (fun row =>
                       String.eqb (ToString (get row (Column.name primaryKeyColumn)))
                         rowId))
              table in
          (call now tableName o db,
           result ← Table.completion o;
           Returns
             (with_rowsAffected (Table.rowsAffected result)
                (with_message (count (Table.rowsAffected result) +:+ " row(s) deleted")
                   (reply 200 true))))
      end
  end.


(** [DELETE /tables/:tableName]. *)
Definition dropTable (now tableName : string) (db : Database.t) : Database.t * Reply :=
  let '(db, success) := Database.dropTable now tableName db in
  (db,
   if success
   then with_message ("Table '" +:+ tableName +:+ "' dropped successfully") (reply 200 true)
   else notFound tableName).

End WithDates.

End Routes.

(** * Scenarios *)

Module Scenario.

Definition num (z : Z) : Value := Number (int z).

(** [users(id INTEGER UNIQUE, name STRING)], as [createTable] builds it. *)
Definition users_columns : list Column.t :=
  [ Column.new "id" "INTEGER" (Some false) (Some true) None Undefined;
    Column.new "name" "STRING" (Some false) (Some false) None Undefined ].

Definition users : Table.t := Table.new "users" users_columns None true.

Definition user (id : Z) (name : string) : RowData :=
  <["id" := num id]> (<["name" := Str name]> ∅).

(** [users] holding the single row [{id: 1, name: "a"}]. *)
Definition users1 : Table.t := Table.after (Table.insert (user 1 "a") users).

(** [items(id INTEGER PRIMARY KEY)]: the key is not also flagged unique. *)
Definition items : Table.t :=
  Table.new "items"
    [ Column.new "id" "INTEGER" (Some true) (Some false) None Undefined ]
    (Some "id") true.

Definition item (id : Z) : RowData := <["id" := num id]> ∅.

Definition items1 : Table.t := Table.after (Table.insert (item 1) items).

(** The predicate [row => row.id === 1]. *)
Definition has_id_1 (row : RowData) : bool := strict_equals (get row "id") (num 1).

Definition items_columns : list Column.t :=
  [ Column.new "id" "INTEGER" (Some true) (Some false) None Undefined ].

(** [jobs(id INTEGER UNIQUE, status STRING)] with five rows, the rows at
    positions 1, 3 and 4 having status ["old"]. *)
Definition job (id : Z) (status : string) : RowData :=
  <["id" := num id]> (<["status" := Str status]> ∅).

Definition jobs : Table.t :=
  fold_left (fun tb data => Table.after (Table.insert data tb))
    [ job 0 "new"; job 1 "old"; job 2 "new"; job 3 "old"; job 4 "old" ]
    (Table.new "jobs"
       [ Column.new "id" "INTEGER" (Some false) (Some true) None Undefined;
         Column.new "status" "STRING" (Some false) (Some false) None Undefined ]
       None true).

Definition is_old (row : RowData) : bool := strict_equals (get row "status") (Str "old").

Definition jobs_pruned : Table.t := Table.after (Table.delete (Some is_old) jobs).

Definition integer_column : Column.t :=
  Column.new "n" "INTEGER" None None None Undefined.


(** A number with no fractional part; no other kind of value. *)
Definition integral_number (v : Value) : bool :=
  match v with
  | Number n => Number_isInteger n
  | _ => false
  end.


Definition today : string := "2026-01-01T00:00:00.000Z".


(** A database whose [users] table came to hold the same row twice: the
    second insert carries a property that is no column, which makes it
    "differ" from the stored row in [validateRow]. *)
Definition users_definition : list Database.ColumnDefinition :=
  [ Database.mkColumnDefinition "id" "INTEGER" None (Some true) None Undefined;
    Database.mkColumnDefinition "name" "STRING" None None None Undefined ].

Definition shop1 : Database.t :=
  (Database.createTable today "users" users_definition (Database.new "shop")).1.

Definition shop2 : Database.t :=
  (Database.onTable today "users" (Table.insert (user 1 "a")) shop1).1.

Definition shop3 : Database.t :=
  (Database.onTable today "users"
     (Table.insert (<["extra" := num 0]> (user 1 "a"))) shop2).1.



(** What the snapshot of [shop2] holds for [users], as read back from the
    file. *)
Definition users_saved : Database.TableData :=
  Database.mkTableData "users" (Database.getSchema users1) [user 1 "a"].

(** A request body for the bulk route whose second row has a string
    where the id is expected. *)
Definition bulk_rows : list RowData :=
  [ user 1 "a"; <["id" := Str "x"]> (user 2 "b"); user 3 "c" ].

(** A database with the table [items], holding the row [{id: 1}]. *)
Definition stock : Database.t :=
  (Database.createTable today "items"
     [ Database.mkColumnDefinition "id" "INTEGER" (Some true) None None Undefined ]
     (Database.new "stock")).1.

Definition stock1 : Database.t :=
  (Database.onTable today "items" (Table.insert (item 1)) stock).1.

(** One snapshot job whose write keeps failing: [queue_try n] is the queue
    with the write in flight after [n] failures and re-queues. *)
Definition snapshot_job : FileQueue.Item string :=
  FileQueue.mkItem "data/db.json" "snapshot" 0.

Definition fail_and_retry (q : FileQueue.t string) : FileQueue.t string :=
  FileQueue.timeoutFired snapshot_job
    (FileQueue.with_tasks []
       (FileQueue.writeFailed snapshot_job (FileQueue.with_tasks [] q))).

Definition queue_try (n : nat) : FileQueue.t string :=
  Nat.iter n fail_and_retry (FileQueue.enqueue "data/db.json" "snapshot" FileQueue.new).

(** The fourth write failed as well. *)
Definition queue_given_up : FileQueue.t string :=
  FileQueue.writeFailed snapshot_job (FileQueue.with_tasks [] (queue_try 3)).

(** The first write failed while a second snapshot was waiting: the timer
    of the retry is pending. *)
(** The fourth write of the first snapshot is in flight while a second
    snapshot waits. *)
Definition queue_last_try : FileQueue.t string :=
  FileQueue.enqueue "data/db.json" "snapshot 2" (queue_try 3).

Definition queue_retrying : FileQueue.t string :=
  FileQueue.writeFailed snapshot_job
    (FileQueue.with_tasks []
       (FileQueue.enqueue "data/db.json" "snapshot 2" (queue_try 0))).

End Scenario.

(** * Properties *)

(** ** Evaluating the engine on the scenarios *)

Section Evaluations.
Import Scenario.

(** C1 (defect). [users] holds [{id: 1, name: "a"}] and [id] is unique, yet
    inserting [{id: 1, name: "b"}] succeeds: the "same row" test of
    [validateRow] clears every candidate that differs from an existing row
    in some field.  The table then holds two rows with [id = 1]. *)
Theorem insert_colliding_unique_value_succeeds :
  Table.rows users1 = [user 1 "a"]
  ∧ Table.findByIndex "id" (num 1) users1 = [user 1 "a"]
  ∧ Table.validateRow (user 1 "b") users1 = (true, [])
  ∧ Table.completion (Table.insert (user 1 "b") users1)
    = Returns (Table.mkResult true (Some (user 1 "b")) None None)
  ∧ Table.rows (Table.after (Table.insert (user 1 "b") users1))
    = [user 1 "a"; user 1 "b"].
Proof. repeat split; vm_compute; reflexivity. Qed.

(** C2 (defect). Deleting the rows at positions 1, 3 and 4 of the five-row
    table leaves the rows with [id] 0 and 2 at positions 0 and 1, but the
    index entry of the row that moved into position 1 is filtered out by the
    renumbering: [findByIndex("id", 2)] is empty. *)
Theorem delete_loses_index_entry_of_shifted_row :
  Table.indicesToDelete (Some is_old) jobs = [1; 3; 4]
  ∧ Table.select None jobs_pruned = [job 0 "new"; job 2 "new"]
  ∧ Table.findByIndex "id" (num 0) jobs_pruned = [job 0 "new"]
  ∧ Table.findByIndex "id" (num 2) jobs_pruned = []
  ∧ Table.indexes jobs_pruned !! "id" = Some [(num 0, [0]); (num 2, [])].
Proof. repeat split; vm_compute; reflexivity. Qed.

(** C3 (defect). Re-assigning [id] its current value on the only row of
    [users] is rejected as a duplicate of the row itself: the row is skipped
    and nothing is updated. *)
Theorem update_keeping_unique_value_is_rejected :
  Table.completion (Table.update (<["id" := num 1]> ∅) None users1)
  = Returns
      (Table.mkResult false None (Some 0)
         (Some ["Row at index 0: Duplicate value for unique column 'id': 1"]))
  ∧ Table.after (Table.update (<["id" := num 1]> ∅) None users1) = users1.
Proof. repeat split; vm_compute; reflexivity. Qed.

(** C4 (defect). [validateRow] looks for duplicates only in columns flagged
    [unique]: a second row with the same primary key is accepted, and the
    key's index entry then lists two positions. *)
Theorem insert_colliding_primary_key_succeeds :
  Table.rows items1 = [item 1]
  ∧ Table.validateRow (item 1) items1 = (true, [])
  ∧ Table.completion (Table.insert (item 1) items1)
    = Returns (Table.mkResult true (Some (item 1)) None None)
  ∧ Table.indexes (Table.after (Table.insert (item 1) items1)) !! "id"
    = Some [(num 1, [0; 1])].
Proof. repeat split; vm_compute; reflexivity. Qed.

End Evaluations.


(** ** JavaScript primitives *)

Section Primitives.

Lemma normalize_integral (m : Z) (k : nat) :
  (normalize m k).2 = 0 ↔ (10 ^ Z.of_nat k | m)%Z.
Proof.
  revert m. induction k as [|k IH]; intros m; simpl normalize.
  - split; [intros _; apply Z.divide_1_l | reflexivity].
  - rewrite Nat2Z.inj_succ, Z.pow_succ_r by lia.
    destruct (Z.eqb_spec (m mod 10) 0) as [Hm|Hm].
    + rewrite IH. apply Z.mod_divide in Hm; [|lia].
      destruct Hm as [q ->]. rewrite Z.div_mul by lia.
      split; intros [r Hr]; [exists r; lia | exists r; nia].
    + simpl. split; [discriminate|]. intros [r Hr]. exfalso. apply Hm.
      apply Z.mod_divide; [lia|]. exists (r * 10 ^ Z.of_nat k)%Z. lia.
Qed.

Lemma Number_isInteger_Finite (m : Z) (k : nat) :
  Number_isInteger (Finite m k) = true ↔ (10 ^ Z.of_nat k | m)%Z.
Proof.
  unfold Number_isInteger. rewrite Nat.eqb_eq. apply normalize_integral.
Qed.

Lemma num_eqb_refl (n : Num) : num_eqb n n = true.
Proof.
  destruct n as [|s|m k]; simpl; [reflexivity|by destruct s|].
  destruct (normalize m k) as [a b]. by rewrite Z.eqb_refl, Nat.eqb_refl.
Qed.

Lemma same_object_eq (a b : Obj) : same_object a b = true ↔ a = b.
Proof.
  unfold same_object. destruct a as [c1 t1 i1], b as [c2 t2 i2]. simpl.
  rewrite !andb_true_iff, Bool.eqb_true_iff, String.eqb_eq, Nat.eqb_eq.
  split; [by intros [[-> ->] ->]|by intros [= -> -> ->]].
Qed.

Lemma same_object_refl (a : Obj) : same_object a a = true.
Proof. by apply same_object_eq. Qed.

Lemma same_value_zero_refl (v : Value) : same_value_zero v v = true.
Proof.
  destruct v as [| |b|n|s|o]; simpl; try reflexivity.
  - by destruct b.
  - apply num_eqb_refl.
  - apply String.eqb_refl.
  - apply same_object_refl.
Qed.

Lemma Map_get_set_eq {V} (key : Value) (v : V) (m : list (Value * V)) :
  Map_get key (Map_set key v m) = Some v.
Proof.
  induction m as [|[k w] m IH]; simpl.
  - by rewrite same_value_zero_refl.
  - destruct (same_value_zero k key) eqn:Hk; simpl; by rewrite Hk.
Qed.

(** The conversions on a few inputs, as ECMAScript defines them. *)
Lemma conversions_on_examples :
  map StringToNumber ["42"; " 4.50 "; "0x1F"; "1e3"; "1e"; ""; "abc"; "-.5e-2"; "5."; "-Infinity"]
  = [int 42; Finite 45 1; int 31; int 1000; NaN; int 0; NaN; Finite (-5) 3; int 5; Infinity true]
  ∧ map parseInt [Str "42px"; Str "0x1f"; Number (Finite 15 1); Boolean true; Str "-12.9"]
    = [int 42; int 31; int 1; NaN; int (-12)]
  ∧ map parseFloat [Str "3.14abc"; Str "1e"; Str ".5"; Number (Finite 15 1); Str "x"]
    = [Finite 314 2; int 1; Finite 5 1; Finite 15 1; NaN]
  ∧ map NumberToString [int 0; int 42; int (-1000); Finite 15 1; Finite (-5) 7; int (10 ^ 21)]
    = ["0"; "42"; "-1000"; "1.5"; "-5e-7"; "1e+21"]
  ∧ map Iso8601.parse ["2024-02-29"; "2023-02-29"; "1970-01-01T00:00:01.500Z"; "tomorrow"]
    = [Some 1709164800000%Z; None; Some 1500%Z; None]
  ∧ Iso8601.toISOString 1709164800000 = "2024-02-29T00:00:00.000Z".
Proof. repeat split; vm_compute; reflexivity. Qed.

End Primitives.

(** ** Column *)

Section ColumnProperties.
Context `{DateEngine}.

(** C9 (amended). For an INTEGER column and a value that is neither [null]
    nor [undefined], [validate] returns whether [Number(value)] is an
    integer.  A number is accepted exactly when it has no fractional part;
    every boolean is accepted, and a string is accepted exactly when the
    number it denotes is an integer. *)
Theorem validate_integer_tests_the_coerced_number (c : Column.t) (v : Value) :
  Column.type c = "INTEGER" →
  nullish v = false →
  Column.validate c v = Number_isInteger (ToNumber v)
  ∧ (∀ m k, v = Number (Finite m k) →
       (Column.validate c v = true ↔ (10 ^ Z.of_nat k | m)%Z))
  ∧ (∀ n, v = Number n → Column.validate c v = Scenario.integral_number v)
  ∧ (∀ b, v = Boolean b → Column.validate c v = true)
  ∧ (∀ s, v = Str s → Column.validate c v = Number_isInteger (StringToNumber s)).
Proof.
  intros Hty Hv.
  assert (Hval : Column.validate c v = Number_isInteger (ToNumber v)).
  { unfold Column.validate. by rewrite Hv, Hty. }
  split; [exact Hval|]. rewrite Hval. repeat split.
  - subst v. apply Number_isInteger_Finite.
  - subst v. apply Number_isInteger_Finite.
  - intros n ->. reflexivity.
  - intros b ->. by destruct b.
  - intros s ->. reflexivity.
Qed.

End ColumnProperties.

(** C9 (as stated, refuted). The numeric string ["42"] and the booleans are
    not numbers, yet the INTEGER column accepts them; so are the empty
    string and hexadecimal literals.  Strings that denote no integer are
    rejected. *)
Lemma validate_integer_accepts_numeric_strings_and_booleans :
  Column.validate Scenario.integer_column (Str "42") = true
  ∧ Scenario.integral_number (Str "42") = false
  ∧ Column.validate Scenario.integer_column (Boolean true) = true
  ∧ Scenario.integral_number (Boolean true) = false
  ∧ Column.validate Scenario.integer_column (Boolean false) = true
  ∧ Column.validate Scenario.integer_column (Str "") = true
  ∧ Column.validate Scenario.integer_column (Str "0x1F") = true
  ∧ Column.validate Scenario.integer_column (Str "4.5") = false
  ∧ Column.validate Scenario.integer_column (Str "abc") = false
  ∧ Column.validate Scenario.integer_column (Number (Finite 45 1)) = false
  ∧ Column.validate Scenario.integer_column (Number (int 42)) = true.
Proof. repeat split; vm_compute; reflexivity. Qed.

Lemma validate_integer_tests_the_coerced_number_witness :
  Column.type Scenario.integer_column = "INTEGER"
  ∧ nullish (Str "42") = false
  ∧ Column.validate Scenario.integer_column (Str "42")
    = Number_isInteger (ToNumber (Str "42")).
Proof.
  split; [reflexivity|]. split; [reflexivity|].
  apply (validate_integer_tests_the_coerced_number
           Scenario.integer_column (Str "42")); reflexivity.
Defined.

(** ** Database.createTable *)

Section CreateTable.
Context `{DateEngine}.





End CreateTable.

(** ** What [delete] leaves in the row sequence *)

Section DeleteRows.
#[local] Open Scope nat_scope.

Lemma deleteAt_rows (tb : Table.t) (i : nat) :
  Table.rows (Table.deleteAt tb i) = base.delete i (Table.rows tb).
Proof. reflexivity. Qed.

Lemma deleteAt_columns (tb : Table.t) (i : nat) :
  Table.columns (Table.deleteAt tb i) = Table.columns tb.
Proof. reflexivity. Qed.

Lemma fold_deleteAt_rows (l : list nat) (tb : Table.t) :
  Table.rows (fold_left Table.deleteAt l tb)
  = fold_left (fun rs i => base.delete i rs) l (Table.rows tb).
Proof.
  revert tb. induction l as [|i l IH]; intros tb; simpl; [reflexivity|].
  by rewrite IH, deleteAt_rows.
Qed.

Lemma fold_deleteAt_columns (l : list nat) (tb : Table.t) :
  Table.columns (fold_left Table.deleteAt l tb) = Table.columns tb.
Proof.
  revert tb. induction l as [|i l IH]; intros tb; simpl; [reflexivity|].
  by rewrite IH, deleteAt_columns.
Qed.

(** Sorting an ascending list of positions followed by a larger one. *)
Lemma sort_desc_snoc (l : list nat) (n : nat) :
  Forall (λ x, x < n) l → Table.sort_desc (l ++ [n]) = n :: Table.sort_desc l.
Proof.
  unfold Table.sort_desc. rewrite foldr_app. simpl.
  induction 1 as [|x l Hx _ IH]; simpl; [reflexivity|].
  rewrite IH. simpl. apply Nat.ltb_ge in Hx as Hge.
  replace (n <? x) with false; [reflexivity|].
  symmetry. apply Nat.ltb_ge. lia.
Qed.

Lemma sorted_found_S (q : nat → bool) (n : nat) :
  Table.sort_desc (List.filter q (seq 0 (S n)))
  = (if q n then [n] else []) ++ Table.sort_desc (List.filter q (seq 0 n)).
Proof.
  rewrite seq_S, List.filter_app. simpl. destruct (q n); simpl.
  - apply sort_desc_snoc. apply Forall_forall. intros x Hx.
    apply list_elem_of_In, filter_In in Hx as [Hx _]. apply in_seq in Hx. lia.
  - by rewrite app_nil_r.
Qed.

Lemma delete_app_l {X} (i : nat) (l k : list X) :
  i < length l → base.delete i (l ++ k) = base.delete i l ++ k.
Proof.
  revert i. induction l as [|x l IH]; intros i Hi; simpl in *; [lia|].
  destruct i as [|i]; simpl; [reflexivity|]. rewrite IH by lia. reflexivity.
Qed.

Lemma fold_delete_app {X} (q : nat → bool) (n : nat) (rs tail : list X) :
  n ≤ length rs →
  fold_left (fun rs i => base.delete i rs)
    (Table.sort_desc (List.filter q (seq 0 n))) (rs ++ tail)
  = fold_left (fun rs i => base.delete i rs)
      (Table.sort_desc (List.filter q (seq 0 n))) rs ++ tail.
Proof.
  revert rs. induction n as [|n IH]; intros rs Hn; [reflexivity|].
  rewrite sorted_found_S. destruct (q n); simpl.
  - rewrite delete_app_l by lia. apply IH.
    rewrite length_delete; [lia|]. apply lookup_lt_is_Some. lia.
  - apply IH. lia.
Qed.

Lemma delete_found_prefix (p : RowData → bool) (rows : list RowData) (n : nat) :
  n ≤ length rows →
  fold_left (fun rs i => base.delete i rs)
    (Table.sort_desc (List.filter (fun i => p (default ∅ (rows !! i))) (seq 0 n)))
    (take n rows)
  = List.filter (fun row => negb (p row)) (take n rows).
Proof.
  induction n as [|n IH]; intros Hn; [reflexivity|].
  destruct (lookup_lt_is_Some_2 rows n ltac:(lia)) as [r Hr].
  rewrite sorted_found_S, (take_S_r _ _ _ Hr), List.filter_app, Hr. simpl.
  destruct (p r); simpl.
  - replace n with (length (take n rows)) at 2 by (rewrite length_take; lia).
    rewrite delete_middle, !app_nil_r. apply IH. lia.
  - rewrite fold_delete_app by (rewrite length_take; lia). rewrite IH by lia. reflexivity.
Qed.

(** [delete] removes exactly the rows its predicate selects. *)
Lemma delete_rows (p : RowData → bool) (tb : Table.t) :
  Table.rows (Table.after (Table.delete (Some p) tb))
  = List.filter (fun row => negb (p row)) (Table.rows tb).
Proof.
  unfold Table.delete, Table.indicesToDelete, Table.row_at. simpl.
  rewrite fold_deleteAt_rows.
  pose proof (delete_found_prefix p (Table.rows tb) (length (Table.rows tb)) (le_n _)) as Hd.
  rewrite firstn_all in Hd. exact Hd.
Qed.

Lemma delete_columns (where_ : option (RowData → bool)) (tb : Table.t) :
  Table.columns (Table.after (Table.delete where_ tb)) = Table.columns tb.
Proof. unfold Table.delete. simpl. apply fold_deleteAt_columns. Qed.

End DeleteRows.

(** ** Insert, delete by key, insert again: any table *)

Section Reinsert.
Context `{DateEngine}.

Lemma num_eqb_sym (a b : Num) : num_eqb a b = num_eqb b a.
Proof.
  destruct a as [|s|m k]; destruct b as [|s'|m' k']; simpl; try reflexivity.
  - by destruct s, s'.
  - destruct (normalize m k), (normalize m' k').
    by rewrite Z.eqb_sym, Nat.eqb_sym.
Qed.

Lemma same_object_sym (a b : Obj) : same_object a b = same_object b a.
Proof.
  unfold same_object. rewrite String.eqb_sym, Nat.eqb_sym.
  by destruct (callable a), (callable b).
Qed.

Lemma strict_equals_sym (a b : Value) : strict_equals a b = strict_equals b a.
Proof.
  destruct a as [| |x|[|s|m k]|x|x]; destruct b as [| |y|[|s'|m' k']|y|y];
    simpl; try reflexivity.
  - by destruct x, y.
  - by destruct s, s'.
  - apply (num_eqb_sym (Finite m k) (Finite m' k')).
  - apply String.eqb_sym.
  - apply same_object_sym.
Qed.

Lemma strict_equals_Undefined (v : Value) :
  v ≠ Undefined → strict_equals v Undefined = false.
Proof. by destruct v as [| |?|[]|?|?]. Qed.

Lemma insert_columns (data : RowData) (tb : Table.t) :
  Table.columns (Table.after (Table.insert data tb)) = Table.columns tb.
Proof.
  unfold Table.insert. destruct (negb _); [reflexivity|].
  by destruct (Table.buildRow _ _).
Qed.

Lemma flat_map_nil {X Y} (f : X → list Y) (l : list X) :
  flat_map f l = [] ↔ Forall (λ x, f x = []) l.
Proof.
  induction l as [|x l IH]; simpl.
  - split; [constructor|reflexivity].
  - split.
    + intros [Hx Hl]%app_eq_nil. constructor; [exact Hx | by apply IH].
    + intros Hall. inversion Hall as [|? ? Hx Hl]; subst.
      rewrite Hx. simpl. by apply IH.
Qed.

Lemma validateRow_valid (data : RowData) (tb : Table.t) :
  (Table.validateRow data tb).1 = true
  ↔ Forall (λ c, Table.validateColumn data tb c = []) (Table.columns tb).
Proof.
  unfold Table.validateRow. simpl. rewrite Nat.eqb_eq, length_zero_iff_nil.
  apply flat_map_nil.
Qed.

(** A candidate that differs from every stored row under one of its own
    keys passes the duplicate test of every column. *)
Lemma validateColumn_distinct (data : RowData) (tb tb' : Table.t) (c : Column.t)
    (key : string) :
  key ∈ Table.keys data →
  strict_equals (get data key) (inherited key) = false →
  Forall (λ row, strict_equals (get data key) (get row key) = false) (Table.rows tb') →
  Table.validateColumn data tb c = [] →
  Table.validateColumn data tb' c = [].
Proof.
  intros Hkey Hdef Hrows. unfold Table.validateColumn.
  destruct (negb (Column.nullable c) && nullish (get data (Column.name c))); [done|].
  intros [Hinvalid _]%app_eq_nil. rewrite Hinvalid. simpl.
  destruct (Column.unique c && negb (nullish (get data (Column.name c)))); [|done].
  destruct (0 <? length _)%nat; [|done].
  replace (forallb _ _) with true; [done|].
  symmetry. apply forallb_forall. intros row Hin. apply existsb_exists.
  exists key. split; [by apply list_elem_of_In|].
  apply negb_true_iff.
  unfold Table.findByIndex in Hin.
  destruct (Table.indexes tb' !! Column.name c) as [index|]; [|done].
  destruct (Map_get _ index) as [indices|]; [|done].
  apply in_map_iff in Hin as (i & <- & _). unfold Table.row_at.
  destruct (Table.rows tb' !! i) as [row|] eqn:Hrow; simpl.
  - rewrite Forall_forall in Hrows. apply Hrows. by eapply list_elem_of_lookup_2.
  - unfold get at 2. by rewrite lookup_empty.
Qed.

Lemma key_of_get (data : RowData) (key : string) (v : Value) :
  data !! key = Some v → key ∈ Table.keys data ∧ get data key = v.
Proof.
  unfold get, Table.keys. intros Hv. rewrite Hv. split; [|done].
  apply list_elem_of_fmap. exists (key, v). split; [done|].
  by apply elem_of_map_to_list.
Qed.

(** Inserting, deleting the rows [row[key] === v], inserting again. *)
Lemma reinsert_after_delete_by_key (tb : Table.t) (key : string) (v : Value)
    (data : RowData) (res : Table.Result) :
  data !! key = Some v →
  strict_equals v (inherited key) = false →
  strict_equals v v = true →
  Table.completion (Table.insert data tb) = Returns res →
  Table.success res = true →
  let matches := fun row => strict_equals (get row key) v in
  let deleted := Table.delete (Some matches) (Table.after (Table.insert data tb)) in
  Forall (λ row, matches row = false) (Table.rows (Table.after deleted))
  ∧ Table.completion (Table.insert data (Table.after deleted)) = Returns res.
Proof.
  intros [Hown Hkey]%key_of_get Hdef Hrefl Hins Hok matches deleted.
  assert (Hrows : Forall (λ row, matches row = false) (Table.rows (Table.after deleted))).
  { subst deleted. rewrite delete_rows. apply Forall_forall. intros row Hin.
    apply list_elem_of_In, filter_In in Hin as [_ Hno]. by apply negb_true_iff. }
  split; [exact Hrows|].
  assert (Hcols : Table.columns (Table.after deleted) = Table.columns tb).
  { subst deleted. by rewrite delete_columns, insert_columns. }
  assert (Hfirst : (Table.validateRow data tb).1 = true
                   ∧ Table.buildRow data (Table.columns tb)
                     = Returns (default ∅ (Table.row res))
                   ∧ res = Table.mkResult true (Table.row res) None None
                   ∧ is_Some (Table.row res)).
  { revert Hins. unfold Table.insert.
    destruct (Table.validateRow data tb).1; simpl.
    - destruct (Table.buildRow data (Table.columns tb)) as [row|e]; simpl; [|done].
      intros [= <-]. simpl. eauto.
    - intros [= <-]. discriminate. }
  destruct Hfirst as (Hvalid & Hbuild & Hres & [row Hrow]).
  apply validateRow_valid in Hvalid.
  assert (Hvalid' : (Table.validateRow data (Table.after deleted)).1 = true).
  { apply validateRow_valid. rewrite Hcols.
    eapply Forall_impl; [exact Hvalid|]. intros c Hc.
    apply (validateColumn_distinct data tb _ c key); [done|by rewrite Hkey| |exact Hc].
    - eapply Forall_impl; [exact Hrows|]. intros r Hr. simpl in Hr.
      rewrite Hkey, strict_equals_sym. exact Hr. }
  clearbody deleted. unfold Table.insert.
  rewrite Hvalid', Hcols, Hbuild. simpl. rewrite Hres at 2. by rewrite Hrow.
Qed.

End Reinsert.

(** ** Insert, delete, insert again: a fresh table *)

Section InsertDeleteInsert.
Context `{DateEngine}.

Lemma indexedAs_unfold (cn : string) (c : Column.t) :
  Table.indexedAs cn c = Column.indexed c && String.eqb (Column.name c) cn.
Proof. reflexivity. Qed.

Lemma createIndexes_lookup (cols : list Column.t) (cn : string) :
  Table.createIndexes cols !! cn
  = if existsb (Table.indexedAs cn) cols then Some [] else None.
Proof.
  unfold Table.createIndexes.
  assert (Hgen : ∀ acc : gmap string Table.Index,
    fold_left
      (fun ix column =>
         if Column.indexed column then <[Column.name column := []]> ix else ix)
      cols acc !! cn
    = if existsb (Table.indexedAs cn) cols then Some [] else acc !! cn).
  { induction cols as [|c cols IH]; intros acc; simpl; [reflexivity|].
    rewrite IH, indexedAs_unfold.
    destruct (existsb (Table.indexedAs cn) cols); [by rewrite orb_true_r|].
    rewrite orb_false_r. destruct (Column.indexed c); simpl; [|reflexivity].
    destruct (String.eqb_spec (Column.name c) cn) as [->|Hne].
    - by rewrite lookup_insert_eq.
    - by rewrite lookup_insert_ne. }
  by rewrite Hgen.
Qed.

Lemma updateIndex_empty (cn : string) (v : Value) (i : nat) (ix : gmap string Table.Index) :
  ix !! cn = Some [] → Table.updateIndex cn v i ix = <[cn := [(v, [i])]]> ix.
Proof.
  intros Hix. unfold Table.updateIndex. rewrite Hix. simpl.
  unfold Map_has. simpl. by repeat (rewrite same_value_zero_refl; simpl).
Qed.

Lemma updateIndex_present (cn : string) (v : Value) (i : nat) (ix : gmap string Table.Index) :
  ix !! cn = Some [(v, [i])] → Table.updateIndex cn v i ix = ix.
Proof.
  intros Hix. unfold Table.updateIndex. rewrite Hix.
  unfold Map_has. simpl. repeat (rewrite same_value_zero_refl; simpl).
  rewrite Nat.eqb_refl. simpl. by apply insert_id.
Qed.

Lemma removeFromIndex_present (cn : string) (v : Value) (i : nat) (ix : gmap string Table.Index) :
  ix !! cn = Some [(v, [i])] → Table.removeFromIndex cn v i ix = <[cn := []]> ix.
Proof.
  intros Hix. unfold Table.removeFromIndex. rewrite Hix. simpl.
  repeat (rewrite same_value_zero_refl; simpl).
  rewrite filter_cons_False by (intros Hne; by apply Hne).
  rewrite filter_nil. simpl. by repeat (rewrite same_value_zero_refl; simpl).
Qed.

Lemma removeFromIndex_empty (cn : string) (v : Value) (i : nat) (ix : gmap string Table.Index) :
  ix !! cn = Some [] → Table.removeFromIndex cn v i ix = ix.
Proof. intros Hix. unfold Table.removeFromIndex. by rewrite Hix. Qed.

Lemma indexRow_single (row : RowData) (i : nat) (cols : list Column.t)
    (ix : gmap string Table.Index) (cn : string) :
  (∀ cn, ix !! cn = None ∨ ix !! cn = Some [] ∨ ix !! cn = Some [(get row cn, [i])]) →
  Table.indexRow row i cols ix !! cn
  = match ix !! cn with
    | None => None
    | Some e => Some (if existsb (Table.indexedAs cn) cols then [(get row cn, [i])] else e)
    end.
Proof.
  unfold Table.indexRow. revert ix.
  induction cols as [|c cols IH]; intros ix Hix; simpl.
  - by destruct (ix !! cn).
  - rewrite indexedAs_unfold.
    destruct (Column.indexed c); simpl; [|by apply IH].
    destruct (Hix (Column.name c)) as [Hc|[Hc|Hc]].
    + (* no index under this name *)
      assert (Hsame : Table.updateIndex (Column.name c) (get row (Column.name c)) i ix = ix).
      { unfold Table.updateIndex. by rewrite Hc. }
      rewrite Hsame, (IH ix Hix).
      destruct (String.eqb_spec (Column.name c) cn) as [<-|Hne]; [by rewrite Hc|done].
    + rewrite (updateIndex_empty _ _ _ _ Hc), IH.
      * destruct (String.eqb_spec (Column.name c) cn) as [<-|Hne].
        -- rewrite lookup_insert_eq, Hc. by destruct (existsb _ cols).
        -- by rewrite lookup_insert_ne.
      * intros cn'. destruct (decide (Column.name c = cn')) as [<-|Hne].
        -- rewrite lookup_insert_eq. auto.
        -- rewrite lookup_insert_ne by done. apply Hix.
    + rewrite (updateIndex_present _ _ _ _ Hc), (IH ix Hix).
      destruct (String.eqb_spec (Column.name c) cn) as [<-|Hne]; [|done].
      rewrite Hc. by destruct (existsb _ cols).
Qed.

Lemma unindexRow_single (row : RowData) (i : nat) (cols : list Column.t)
    (ix : gmap string Table.Index) (cn : string) :
  (∀ cn, ix !! cn = None ∨ ix !! cn = Some [] ∨ ix !! cn = Some [(get row cn, [i])]) →
  Table.unindexRow row i cols ix !! cn
  = match ix !! cn with
    | None => None
    | Some e => Some (if existsb (Table.indexedAs cn) cols then [] else e)
    end.
Proof.
  unfold Table.unindexRow. revert ix.
  induction cols as [|c cols IH]; intros ix Hix; simpl.
  - by destruct (ix !! cn).
  - rewrite indexedAs_unfold.
    destruct (Column.indexed c); simpl; [|by apply IH].
    destruct (Hix (Column.name c)) as [Hc|[Hc|Hc]].
    + assert (Hsame : Table.removeFromIndex (Column.name c) (get row (Column.name c)) i ix = ix).
      { unfold Table.removeFromIndex. by rewrite Hc. }
      rewrite Hsame, (IH ix Hix).
      destruct (String.eqb_spec (Column.name c) cn) as [<-|Hne]; [by rewrite Hc|done].
    + rewrite (removeFromIndex_empty _ _ _ _ Hc), (IH ix Hix).
      destruct (String.eqb_spec (Column.name c) cn) as [<-|Hne]; [|done].
      rewrite Hc. by destruct (existsb _ cols).
    + rewrite (removeFromIndex_present _ _ _ _ Hc), IH.
      * destruct (String.eqb_spec (Column.name c) cn) as [<-|Hne].
        -- rewrite lookup_insert_eq, Hc. by destruct (existsb _ cols).
        -- by rewrite lookup_insert_ne.
      * intros cn'. destruct (decide (Column.name c = cn')) as [<-|Hne].
        -- rewrite lookup_insert_eq. auto.
        -- rewrite lookup_insert_ne by done. apply Hix.
Qed.

Lemma renumberIndexes_empty (index : nat) (cols : list Column.t)
    (ix : gmap string Table.Index) :
  (∀ cn, ix !! cn = None ∨ ix !! cn = Some []) →
  Table.renumberIndexes index cols ix = ix.
Proof.
  intros Hix. unfold Table.renumberIndexes.
  induction cols as [|c cols IH]; simpl; [reflexivity|].
  destruct (Column.indexed c); [|exact IH].
  destruct (Hix (Column.name c)) as [Hc|Hc]; rewrite Hc; [exact IH|].
  simpl. by rewrite insert_id.
Qed.

(** Insert a row into a freshly created table and delete with a predicate
    the stored row satisfies: the delete removes one row and leaves the
    table exactly as created, rows and every secondary index empty. *)
Lemma delete_restores_fresh_table (name : string) (cols : list Column.t)
    (primaryKeyColumn : option string) (onChange : bool) (data : RowData)
    (where_ : option (RowData → bool)) (res : Table.Result) (stored : RowData) :
  let fresh := Table.new name cols primaryKeyColumn onChange in
  let deleted := Table.delete where_ (Table.after (Table.insert data fresh)) in
  Table.completion (Table.insert data fresh) = Returns res →
  Table.success res = true →
  Table.row res = Some stored →
  match where_ with None => true | Some p => p stored end = true →
  Table.completion deleted = Returns (Table.mkResult true None (Some 1) None)
  ∧ Table.after deleted = fresh
  ∧ (∀ cn v, Table.findByIndex cn v (Table.after deleted) = [])
  ∧ Table.completion (Table.insert data (Table.after deleted)) = Returns res.
Proof.
  intros fresh deleted Hins Hok Hrow Hwhere.
  assert (Hfresh : ∀ cn, Table.createIndexes cols !! cn = None
                          ∨ Table.createIndexes cols !! cn = Some []).
  { intros cn. rewrite createIndexes_lookup. destruct (existsb _ cols); auto. }
  assert (Hafter : Table.after (Table.insert data fresh)
                   = Table.mk name cols primaryKeyColumn [stored]
                       (Table.indexRow stored 0 cols (Table.createIndexes cols)) onChange).
  { revert Hins. unfold Table.insert.
    destruct (negb (Table.validateRow data fresh).1).
    { simpl. intros [= <-]. discriminate. }
    simpl. destruct (Table.buildRow data cols) as [row|e]; simpl; [|discriminate].
    intros [= <-]. simpl in Hrow. by inversion Hrow. }
  assert (Hdel : Table.after deleted = fresh).
  { subst deleted. unfold Table.delete. simpl Table.after. rewrite Hafter.
    unfold Table.indicesToDelete, Table.row_at. simpl.
    rewrite Hwhere. simpl.
    unfold Table.deleteAt, Table.row_at, Table.with_indexes, Table.with_rows. simpl.
    unfold fresh, Table.new. f_equal.
    rewrite renumberIndexes_empty.
    - apply map_eq. intros cn.
      rewrite unindexRow_single, indexRow_single, createIndexes_lookup.
      + by destruct (existsb _ cols).
      + intros cn'. destruct (Hfresh cn') as [->| ->]; auto.
      + intros cn'. rewrite indexRow_single.
        * destruct (Hfresh cn') as [->| ->]; [auto|].
          destruct (existsb _ cols); auto.
        * intros cn''. destruct (Hfresh cn'') as [->| ->]; auto.
    - intros cn. rewrite unindexRow_single, indexRow_single.
      + destruct (Hfresh cn) as [->| ->]; [auto|].
        destruct (existsb _ cols); auto.
      + intros cn'. destruct (Hfresh cn') as [->| ->]; auto.
      + intros cn'. rewrite indexRow_single.
        * destruct (Hfresh cn') as [->| ->]; [auto|].
          destruct (existsb _ cols); auto.
        * intros cn''. destruct (Hfresh cn'') as [->| ->]; auto. }
  split; [|split; [exact Hdel|split]].
  - subst deleted. unfold Table.delete. simpl Table.completion. rewrite Hafter.
    unfold Table.indicesToDelete, Table.row_at. simpl. by rewrite Hwhere.
  - intros cn v. rewrite Hdel. unfold Table.findByIndex, fresh. simpl.
    destruct (Hfresh cn) as [->| ->]; reflexivity.
  - by rewrite Hdel.
Qed.

(** C7. Insert a row that holds [v] under its key column (the primary key
    value 1, say; a value of the data's own, not what every object
    inherits under that name), delete where that column equals [v], insert
    the same data again:
    in any table the delete leaves no row with that key and the second
    insert succeeds with the result of the first; and in a freshly created
    table the delete leaves the table exactly as created, rows and every
    secondary index empty, so that [findByIndex] finds nothing any more. *)
Theorem insert_after_delete_succeeds :
  (∀ (tb : Table.t) (key : string) (v : Value) (data : RowData) (res : Table.Result),
     get data key = v →
     strict_equals v (inherited key) = false →
     strict_equals v v = true →
     Table.completion (Table.insert data tb) = Returns res →
     Table.success res = true →
     let matches := fun row => strict_equals (get row key) v in
     let deleted := Table.delete (Some matches) (Table.after (Table.insert data tb)) in
     Forall (λ row, matches row = false) (Table.rows (Table.after deleted))
     ∧ Table.completion (Table.insert data (Table.after deleted)) = Returns res)
  ∧ (∀ (name : string) (cols : list Column.t) (primaryKeyColumn : option string)
       (onChange : bool) (data : RowData) (where_ : option (RowData → bool))
       (res : Table.Result) (stored : RowData),
       let fresh := Table.new name cols primaryKeyColumn onChange in
       let deleted := Table.delete where_ (Table.after (Table.insert data fresh)) in
       Table.completion (Table.insert data fresh) = Returns res →
       Table.success res = true →
       Table.row res = Some stored →
       match where_ with None => true | Some p => p stored end = true →
       Table.completion deleted = Returns (Table.mkResult true None (Some 1) None)
       ∧ Table.after deleted = fresh
       ∧ (∀ cn v, Table.findByIndex cn v (Table.after deleted) = [])
       ∧ Table.completion (Table.insert data (Table.after deleted)) = Returns res).
Proof.
  assert (Hself : ∀ key, strict_equals (inherited key) (inherited key) = true).
  { intros key. unfold inherited. repeat case_match; try done;
      simpl; apply same_object_refl. }
  split.
  - intros tb key v data res Hget Hown. apply reinsert_after_delete_by_key; [|done].
    unfold get in Hget. destruct (data !! key) as [v'|]; [by subst|].
    subst v. by rewrite Hself in Hown.
  - intros name cols primaryKeyColumn onChange data where_ res stored.
    apply delete_restores_fresh_table.
Qed.

End InsertDeleteInsert.

(** ** Closed instances *)

Lemma insert_after_delete_succeeds_witness :
  get (Scenario.item 1) "id" = Scenario.num 1
  ∧ Table.completion (Table.insert (Scenario.item 1) Scenario.items)
    = Returns (Table.mkResult true (Some (Scenario.item 1)) None None)
  ∧ Scenario.has_id_1 (Scenario.item 1) = true
  ∧ Table.after (Table.delete (Some Scenario.has_id_1) Scenario.items1) = Scenario.items
  ∧ Table.completion
      (Table.insert (Scenario.item 1)
         (Table.after (Table.delete (Some Scenario.has_id_1) Scenario.items1)))
    = Returns (Table.mkResult true (Some (Scenario.item 1)) None None).
Proof.
  split; [reflexivity|]. split; [reflexivity|]. split; [reflexivity|].
  pose proof (proj2 insert_after_delete_succeeds "items" Scenario.items_columns
                (Some "id") true (Scenario.item 1) (Some Scenario.has_id_1)
                (Table.mkResult true (Some (Scenario.item 1)) None None)
                (Scenario.item 1) eq_refl eq_refl eq_refl eq_refl) as (_ & Hdel & _ & _).
  pose proof (proj1 insert_after_delete_succeeds Scenario.items "id" (Scenario.num 1)
                (Scenario.item 1)
                (Table.mkResult true (Some (Scenario.item 1)) None None)
                eq_refl eq_refl eq_refl eq_refl eq_refl) as (_ & Hagain).
  split; [exact Hdel | exact Hagain].
Defined.




(** ** The persistence queue *)

Section QueueRuns.
Context {A : Type}.
Import FileQueue.
#[local] Open Scope nat_scope.
#[local] Arguments Nat.mul : simpl never.

Implicit Types (q : FileQueue.t A) (item : Item A) (task : Task A) (u v c : nat)
  (l : list Event) (e : Event).

Lemma attemptsIn_snoc u l e :
  attemptsIn u (l ++ [e])
  = attemptsIn u l + match e with Attempt v => if v =? u then 1 else 0 | _ => 0 end.
Proof.
  unfold attemptsIn. rewrite List.filter_app, length_app. f_equal.
  destruct e as [v|v|v n|v]; simpl; try reflexivity. by destruct (v =? u).
Qed.

Lemma retriesIn_snoc u l e :
  retriesIn u (l ++ [e])
  = retriesIn u l + match e with Retrying v _ => if v =? u then 1 else 0 | _ => 0 end.
Proof.
  unfold retriesIn. rewrite List.filter_app, length_app. f_equal.
  destruct e as [v|v|v n|v]; simpl; try reflexivity. by destruct (v =? u).
Qed.

Lemma attemptsIn_other u l e : subject e ≠ u → attemptsIn u (l ++ [e]) = attemptsIn u l.
Proof.
  intros Hne. rewrite attemptsIn_snoc. destruct e as [v|v|v n|v]; simpl in *; try lia.
  apply Nat.eqb_neq in Hne. rewrite Hne. lia.
Qed.

Lemma retriesIn_other u l e : subject e ≠ u → retriesIn u (l ++ [e]) = retriesIn u l.
Proof.
  intros Hne. rewrite retriesIn_snoc. destruct e as [v|v|v n|v]; simpl in *; try lia.
  apply Nat.eqb_neq in Hne. rewrite Hne. lia.
Qed.

Lemma dropped_snoc u l e : In (Failed u) (l ++ [e]) ↔ In (Failed u) l ∨ e = Failed u.
Proof. rewrite in_app_iff. simpl. intuition congruence. Qed.

Lemma dropped_other u l e : subject e ≠ u → In (Failed u) (l ++ [e]) → In (Failed u) l.
Proof. intros Hne [?| ->]%dropped_snoc; [done|]. by destruct Hne. Qed.

Lemma lookup_counter (p : string) c : default 0 (counter p c !! p) = c.
Proof.
  unfold counter. destruct (Nat.eqb_spec c 0) as [->|Hc].
  - by rewrite lookup_empty.
  - by rewrite lookup_singleton_eq.
Qed.

Lemma delete_counter (p : string) c : base.delete p (counter p c) = ∅.
Proof.
  unfold counter. destruct (c =? 0).
  - apply delete_empty.
  - apply delete_singleton_eq.
Qed.

Lemma insert_counter (p : string) c : <[p := c + 1]> (counter p c) = counter p (c + 1).
Proof.
  unfold counter. replace (c + 1 =? 0) with false by (symmetry; apply Nat.eqb_neq; lia).
  destruct (c =? 0).
  - apply insert_empty.
  - apply insert_singleton_eq.
Qed.


Lemma untouched_log q q' item :
  untouched q item → nextUid q ≤ nextUid q' → log q' = log q → untouched q' item.
Proof.
  unfold untouched, attempts, retries, dropped. intros (?&?&?&?) Hn ->.
  repeat split; [lia|done..].
Qed.

Lemma untouched_event q q' item e :
  untouched q item → nextUid q ≤ nextUid q' → log q' = log q ++ [e] →
  subject e ≠ uid item → untouched q' item.
Proof.
  unfold untouched, attempts, retries, dropped. intros (?&?&?&Hd) Hn -> Hne.
  rewrite attemptsIn_other, retriesIn_other by done.
  repeat split; [lia|done..|]. intros Hin. by apply Hd, (dropped_other _ _ e).
Qed.

Lemma untouched_queue_event q q' e (items : list (Item A)) :
  Forall (untouched q) items → nextUid q ≤ nextUid q' → log q' = log q ++ [e] →
  ¬ In (subject e) (map uid items) → Forall (untouched q') items.
Proof.
  rewrite !Forall_forall. intros Hq Hn Hlog Hnot it Hin.
  eapply untouched_event; [by apply Hq|done|done|].
  intros Heq. apply Hnot. rewrite Heq. by apply in_map, list_elem_of_In.
Qed.

Lemma single_task (ts pre post : list (Task A)) task task' :
  ts = [task] → ts = pre ++ task' :: post → pre = [] ∧ post = [] ∧ task = task'.
Proof.
  intros -> Heq. destruct pre as [|x pre]; simpl in Heq.
  - by inversion Heq.
  - inversion Heq as [[Hx Hrest]]. by destruct pre.
Qed.

(** A pending continuation exists only while the queue is processing, and
    then it is the only one. *)
Lemma Inv_task q pre task post :
  Inv q → tasks q = pre ++ task :: post →
  isProcessing q = true ∧ pre = [] ∧ post = [] ∧ task_ok q task.
Proof.
  intros HI Hts. destruct (isProcessing q) eqn:Hp.
  - destruct (inv_busy q HI Hp) as (task' & Hone & Hok).
    destruct (single_task _ _ _ _ _ Hone Hts) as (-> & -> & ->). done.
  - destruct (inv_idle q HI Hp) as (Hnil & _). rewrite Hnil in Hts.
    by destruct pre.
Qed.

Lemma Inv_new : Inv (FileQueue.new (A := A)).
Proof.
  split; simpl.
  - done.
  - done.
  - constructor.
  - constructor.
  - intros u. unfold attempts, retries, attemptsIn, retriesIn, MAX_RETRIES, new.
    simpl. lia.
  - intros u _. unfold attempts, retries, attemptsIn, retriesIn, dropped, new.
    simpl. auto.
Qed.

Lemma Inv_enqueue q (p : string) (d : A) : Inv q → Inv (enqueue p d q).
Proof.
  intros HI. destruct HI as [Hidle Hbusy Hq Hnd Hb Hf].
  destruct q as [qu pr ra ts n lg]. unfold enqueue. simpl in *.
  destruct pr.
  - (* a write is in flight: the item waits *)
    destruct (Hbusy eq_refl) as (task & -> & Hok).
    split; simpl.
    + done.
    + intros _. exists task. split; [done|].
      assert (Hfl : ∀ item c s, in_flight (mk qu true ra [task] n lg) item c s →
                in_flight (mk (qu ++ [mkItem p d n]) true ra [task] (S n) lg) item c s).
      { unfold in_flight, attempts, retries, dropped. simpl.
        intros item c s (?&?&?&?&?&Hnot). repeat split; [done..|lia|done|].
        rewrite map_app, in_app_iff. simpl. intros [?|[?|[]]]; [done|lia]. }
      destruct task as [item|item dl|]; simpl in *; [| |done].
      * destruct Hok as (c & ? & ?). exists c. split; [done|]. by apply Hfl.
      * destruct Hok as (c & ? & ? & ?). exists c. split; [done|]. split; [done|]. by apply Hfl.
    + apply Forall_app. split.
      * eapply Forall_impl; [exact Hq|]. intros item Hu.
        eapply untouched_log; [exact Hu|simpl; lia|done].
      * constructor; [|constructor]. unfold untouched. simpl.
        destruct (Hf n (le_n _)) as (?&?&?). repeat split; [lia|done..].
    + rewrite map_app. simpl. apply NoDup_app. split; [done|]. split.
      * intros u Hu ->%list_elem_of_singleton.
        apply list_elem_of_In, in_map_iff in Hu as (item & Hid & Hin).
        rewrite Forall_forall in Hq. apply list_elem_of_In, Hq in Hin.
        destruct Hin as (Hlt & _). simpl in Hlt. lia.
      * apply NoDup_singleton.
    + done.
    + intros u Hu. apply Hf. lia.
  - (* idle: the write of the new item starts at once *)
    destruct (Hidle eq_refl) as (-> & -> & ->). simpl.
    destruct (Hf n (le_n _)) as (Hatt & Hret & Hdrop).
    unfold attempts, retries, dropped in *. simpl in *.
    split; simpl.
    + done.
    + intros _. exists (Write (mkItem p d n)). split; [done|]. simpl.
      exists 0. split; [unfold MAX_RETRIES; lia|].
      unfold in_flight, attempts, retries, dropped. simpl.
      rewrite attemptsIn_snoc, retriesIn_snoc, Nat.eqb_refl, Hatt, Hret.
      split; [reflexivity|]. repeat split; try lia.
      intros [?|[=]]%dropped_snoc. done.
    + constructor.
    + constructor.
    + intros u. unfold attempts, retries. simpl.
      rewrite attemptsIn_snoc, retriesIn_snoc.
      destruct (Hb u) as (Hbu & Hru). unfold attempts, retries in *. simpl in *.
      destruct (Nat.eqb_spec n u) as [<-|Hne]; [rewrite Hatt; unfold MAX_RETRIES|]; lia.
    + intros u Hu. unfold attempts, retries, dropped. simpl.
      rewrite attemptsIn_other, retriesIn_other by (simpl; lia).
      destruct (Hf u ltac:(lia)) as (?&?&Hd). unfold attempts, retries, dropped in *.
      simpl in *. repeat split; [done..|].
      intros Hin. apply Hd. apply (dropped_other _ _ (Attempt n)); [simpl; lia|done].
Qed.


Lemma Inv_writeSucceeded q item :
  Inv q → isProcessing q = true → task_ok q (Write item) →
  Inv (writeSucceeded item (with_tasks [] q)).
Proof.
  intros [Hidle Hbusy Hq Hnd Hb Hf] Hp (c & Hc & Hra & Hatt & Hret & Hlt & Hdrop & Hnq).
  destruct q as [qu pr ra ts n lg]. unfold writeSucceeded, with_tasks. simpl in *. subst pr.
  split; simpl.
  - done.
  - intros _. exists Immediate. split; [done|]. simpl. rewrite Hra. apply delete_counter.
  - eapply untouched_queue_event; [exact Hq|simpl; lia|reflexivity|done].
  - done.
  - intros u. unfold attempts, retries. simpl.
    rewrite attemptsIn_snoc, retriesIn_snoc. simpl. rewrite !Nat.add_0_r. apply Hb.
  - intros u Hu. unfold attempts, retries, dropped. simpl.
    rewrite attemptsIn_snoc, retriesIn_snoc. simpl. rewrite !Nat.add_0_r.
    destruct (Hf u Hu) as (?&?&Hd). repeat split; [done..|].
    intros [?|[=]]%dropped_snoc. by apply Hd.
Qed.

Lemma Inv_writeFailed q item :
  Inv q → isProcessing q = true → task_ok q (Write item) →
  Inv (writeFailed item (with_tasks [] q)).
Proof.
  intros [Hidle Hbusy Hq Hnd Hb Hf] Hp (c & Hc & Hra & Hatt & Hret & Hlt & Hdrop & Hnq).
  destruct q as [qu pr ra ts n lg]. unfold writeFailed, with_tasks.
  unfold attempts, retries, dropped in *. simpl in *. subst pr ra.
  rewrite lookup_counter.
  destruct (Nat.ltb_spec c MAX_RETRIES) as [Hlow|Hmax].
  - (* below the maximum: a retry is scheduled *)
    split; simpl.
    + done.
    + intros _. eexists. split; [reflexivity|]. simpl.
      exists (c + 1). split; [lia|]. split; [lia|].
      unfold in_flight, attempts, retries, dropped. simpl.
      rewrite insert_counter, attemptsIn_snoc, retriesIn_snoc. simpl.
      rewrite Nat.eqb_refl. repeat split; try lia; try done.
      intros [?|[=]]%dropped_snoc. done.
    + eapply untouched_queue_event; [exact Hq|simpl; lia|reflexivity|done].
    + done.
    + intros u. unfold attempts, retries. simpl.
      rewrite attemptsIn_snoc, retriesIn_snoc. simpl. rewrite Nat.add_0_r.
      destruct (Hb u) as (Hbu & Hru). unfold attempts, retries in *. simpl in *.
      split; [done|]. destruct (Nat.eqb_spec (uid item) u) as [<-|Hne]; lia.
    + intros u Hu. unfold attempts, retries, dropped. simpl.
      rewrite attemptsIn_other, retriesIn_other by (simpl; lia).
      destruct (Hf u Hu) as (?&?&Hd). repeat split; [done..|].
      intros [?|[=]]%dropped_snoc. by apply Hd.
  - (* the maximum is reached: the item is given up *)
    split; simpl.
    + done.
    + intros _. exists Immediate. split; [done|]. simpl. apply delete_counter.
    + eapply untouched_queue_event; [exact Hq|simpl; lia|reflexivity|done].
    + done.
    + intros u. unfold attempts, retries. simpl.
      rewrite attemptsIn_snoc, retriesIn_snoc. simpl. rewrite !Nat.add_0_r. apply Hb.
    + intros u Hu. unfold attempts, retries, dropped. simpl.
      rewrite attemptsIn_other, retriesIn_other by (simpl; lia).
      destruct (Hf u Hu) as (?&?&Hd). repeat split; [done..|].
      intros [?|[= Heq]]%dropped_snoc; [by apply Hd|lia].
Qed.

Lemma Inv_timeoutFired q item delay :
  Inv q → isProcessing q = true → task_ok q (Timeout item delay) →
  Inv (timeoutFired item (with_tasks [] q)).
Proof.
  intros [Hidle Hbusy Hq Hnd Hb Hf] Hp (c & Hc1 & Hc & Hra & Hatt & Hret & Hlt & Hdrop & Hnq).
  destruct q as [qu pr ra ts n lg]. unfold timeoutFired, processQueue, with_tasks.
  unfold attempts, retries, dropped in *. simpl in *. subst pr ra.
  split; simpl.
  - done.
  - intros _. eexists. split; [reflexivity|]. simpl.
    exists c. split; [lia|].
    unfold in_flight, attempts, retries, dropped. simpl.
    rewrite attemptsIn_snoc, retriesIn_snoc. simpl.
    rewrite Nat.eqb_refl. repeat split; try lia; try done.
    intros [?|[=]]%dropped_snoc. done.
  - eapply untouched_queue_event; [exact Hq|simpl; lia|reflexivity|done].
  - done.
  - intros u. unfold attempts, retries. simpl.
    rewrite attemptsIn_snoc, retriesIn_snoc. simpl. rewrite Nat.add_0_r.
    destruct (Hb u) as (Hbu & Hru). unfold attempts, retries in *. simpl in *.
    split; [|done]. unfold MAX_RETRIES in *.
    destruct (Nat.eqb_spec (uid item) u) as [<-|Hne]; lia.
  - intros u Hu. unfold attempts, retries, dropped. simpl.
    rewrite attemptsIn_other, retriesIn_other by (simpl; lia).
    destruct (Hf u Hu) as (?&?&Hd). repeat split; [done..|].
    intros [?|[=]]%dropped_snoc. by apply Hd.
Qed.

Lemma Inv_immediateFired q :
  Inv q → isProcessing q = true → task_ok q Immediate →
  Inv (immediateFired (with_tasks [] q)).
Proof.
  intros [Hidle Hbusy Hq Hnd Hb Hf] Hp Hra.
  destruct q as [qu pr ra ts n lg]. unfold immediateFired, processQueue, with_tasks.
  unfold attempts, retries, dropped in *. simpl in *. subst pr ra.
  destruct qu as [|item rest]; simpl.
  - (* nothing is queued: the queue goes idle *)
    split; simpl; [done|done|constructor|constructor|exact Hb|exact Hf].
  - inversion Hq as [|? ? (Hlt & Hatt & Hret & Hdrop) Hrest]; subst.
    inversion Hnd as [|? ? Hnot Hnd']; subst.
    unfold attempts, retries, dropped in *. simpl in *.
    split; simpl.
    + done.
    + intros _. eexists. split; [reflexivity|]. simpl.
      exists 0. split; [lia|].
      unfold in_flight, attempts, retries, dropped. simpl.
      rewrite attemptsIn_snoc, retriesIn_snoc. simpl.
      rewrite Nat.eqb_refl, Hatt, Hret. split; [reflexivity|].
      repeat split; try lia.
      * intros [?|[=]]%dropped_snoc. done.
      * intros Hin. by apply Hnot, list_elem_of_In.
    + eapply untouched_queue_event; [exact Hrest|simpl; lia|reflexivity|].
      simpl. intros Hin. by apply Hnot, list_elem_of_In.
    + done.
    + intros u. unfold attempts, retries. simpl.
      rewrite attemptsIn_snoc, retriesIn_snoc. simpl. rewrite Nat.add_0_r.
      destruct (Hb u) as (Hbu & Hru). unfold attempts, retries in *. simpl in *.
      split; [|done].
      destruct (Nat.eqb_spec (uid item) u) as [<-|Hne]; lia.
    + intros u Hu. unfold attempts, retries, dropped. simpl.
      rewrite attemptsIn_other, retriesIn_other by (simpl; lia).
      destruct (Hf u Hu) as (?&?&Hd). repeat split; [done..|].
      intros [?|[=]]%dropped_snoc. by apply Hd.
Qed.

Lemma Inv_step q q' : Inv q → step q q' → Inv q'.
Proof.
  intros HI Hstep. destruct Hstep as [q p d|q pre item post Hts|q pre item post Hts
                                     |q pre item delay post Hts|q pre post Hts].
  - by apply Inv_enqueue.
  - destruct (Inv_task _ _ _ _ HI Hts) as (Hp & -> & -> & Hok). by apply Inv_writeSucceeded.
  - destruct (Inv_task _ _ _ _ HI Hts) as (Hp & -> & -> & Hok). by apply Inv_writeFailed.
  - destruct (Inv_task _ _ _ _ HI Hts) as (Hp & -> & -> & Hok).
    by apply (Inv_timeoutFired _ _ delay).
  - destruct (Inv_task _ _ _ _ HI Hts) as (Hp & -> & -> & Hok). by apply Inv_immediateFired.
Qed.

Lemma Inv_steps q q' : Inv q → steps q q' → Inv q'.
Proof.
  intros HI Hsteps. induction Hsteps as [|q1 q2 q3 _ IH Hstep]; [done|].
  exact (Inv_step _ _ (IH HI) Hstep).
Qed.

Lemma Inv_reachable q : reachable q → Inv q.
Proof. apply Inv_steps, Inv_new. Qed.


(** Every step appends at most one event, about an item that is queued or
    held by a continuation, hence not given up. *)
Lemma step_log q q' :
  Inv q → step q q' →
  log q' = log q ∨ ∃ e, log q' = log q ++ [e] ∧ ¬ dropped (subject e) q.
Proof.
  intros HI Hstep. destruct Hstep as [q p d|q pre item post Hts|q pre item post Hts
                                     |q pre item delay post Hts|q pre post Hts].
  - unfold enqueue. simpl. destruct (isProcessing q) eqn:Hp; [by left|].
    destruct (inv_idle q HI Hp) as (_ & Hq & _). unfold processQueue. simpl.
    rewrite Hq. simpl. right. eexists. split; [reflexivity|]. simpl.
    by apply (inv_fresh q HI).
  - destruct (Inv_task _ _ _ _ HI Hts) as (_ & _ & _ & c & _ & Hfl).
    right. eexists. split; [reflexivity|]. apply Hfl.
  - destruct (Inv_task _ _ _ _ HI Hts) as (_ & _ & _ & c & _ & Hfl).
    right. unfold writeFailed.
    destruct (_ <? _); eexists; (split; [reflexivity|]); apply Hfl.
  - destruct (Inv_task _ _ _ _ HI Hts) as (_ & _ & _ & c & _ & _ & Hfl).
    right. eexists. split; [reflexivity|]. apply Hfl.
  - unfold immediateFired, processQueue. simpl.
    destruct (queue q) as [|item rest] eqn:Hq; [by left|].
    right. eexists. split; [reflexivity|]. simpl.
    pose proof (inv_queue q HI) as Hall. rewrite Hq in Hall.
    inversion Hall as [|? ? Hu _]; subst. apply Hu.
Qed.

Lemma dropped_step q q' u :
  Inv q → step q q' → dropped u q →
  dropped u q' ∧ attempts u q' = attempts u q ∧ retries u q' = retries u q.
Proof.
  intros HI Hstep Hd. unfold dropped, attempts, retries in *.
  destruct (step_log _ _ HI Hstep) as [-> | (e & -> & Hlive)]; [done|].
  assert (Hne : subject e ≠ u) by (intros Heq; apply Hlive; by rewrite Heq).
  rewrite attemptsIn_other, retriesIn_other by done.
  split; [|done]. apply in_app_iff. by left.
Qed.

Lemma dropped_steps q q' u :
  Inv q → steps q q' → dropped u q →
  dropped u q' ∧ attempts u q' = attempts u q ∧ retries u q' = retries u q.
Proof.
  intros HI Hsteps Hd. induction Hsteps as [|q1 q2 q3 Hsteps IH Hstep]; [done|].
  destruct (IH HI Hd) as (Hd2 & Ha & Hr).
  destruct (dropped_step q2 q3 u (Inv_steps _ _ HI Hsteps) Hstep Hd2) as (? & -> & ->).
  done.
Qed.

(** C6. In every state a run of the queue reaches: no item was attempted
    more than four times or re-queued more than [MAX_RETRIES] = 3 times; an
    item that was given up is never attempted or re-queued again; for the
    write in flight, the counter of its destination is the number of
    retries of that very item, a success resets it to zero, a failure below
    the maximum schedules the re-queue and counts it, and a failure at the
    maximum gives the item up, clears the counter and lets the queue go on:
    the callback it schedules starts the write of the next queued job, a
    first attempt with no retry counted, or leaves the queue idle when no
    job is waiting;
    when the timer fires the retried item is written next, ahead of
    everything queued meanwhile; and whenever the callback a settled write
    scheduled runs, the write of the job at the head of the queue starts
    and the others keep waiting behind it. *)
Theorem retries_are_bounded q :
  reachable q →
  (∀ u, attempts u q ≤ MAX_RETRIES + 1 ∧ retries u q ≤ MAX_RETRIES)
  ∧ (∀ q' u, steps q q' → dropped u q →
       attempts u q' = attempts u q ∧ retries u q' = retries u q)
  ∧ (∀ pre item post, tasks q = pre ++ Write item :: post →
       let q0 := with_tasks (pre ++ post) q in
       retryCountOf (filePath item) q = retries (uid item) q
       ∧ retryCountOf (filePath item) (writeSucceeded item q0) = 0
       ∧ (retries (uid item) q < MAX_RETRIES →
            tasks (writeFailed item q0) = [Timeout item (100 * (retries (uid item) q + 1))]
            ∧ queue (writeFailed item q0) = queue q
            ∧ retries (uid item) (writeFailed item q0) = retries (uid item) q + 1
            ∧ ¬ dropped (uid item) (writeFailed item q0))
       ∧ (retries (uid item) q = MAX_RETRIES →
            dropped (uid item) (writeFailed item q0)
            ∧ retryCountOf (filePath item) (writeFailed item q0) = 0
            ∧ tasks (writeFailed item q0) = [Immediate]
            ∧ queue (writeFailed item q0) = queue q
            ∧ let q1 := immediateFired (with_tasks [] (writeFailed item q0)) in
              match queue q with
              | [] => isProcessing q1 = false ∧ tasks q1 = [] ∧ queue q1 = []
              | next :: rest =>
                  isProcessing q1 = true
                  ∧ tasks q1 = [Write next]
                  ∧ queue q1 = rest
                  ∧ attempts (uid next) q1 = 1
                  ∧ retries (uid next) q1 = 0
                  ∧ retryCountOf (filePath next) q1 = 0
                  ∧ (∀ u, u ≠ uid next → attempts u q1 = attempts u q)
              end))
  ∧ (∀ pre item delay post, tasks q = pre ++ Timeout item delay :: post →
       let q0 := with_tasks (pre ++ post) q in
       queue (timeoutFired item q0) = queue q
       ∧ tasks (timeoutFired item q0) = [Write item])
  ∧ (∀ pre post, tasks q = pre ++ Immediate :: post →
       let q1 := immediateFired (with_tasks (pre ++ post) q) in
       match queue q with
       | [] =>
           isProcessing q1 = false ∧ tasks q1 = [] ∧ queue q1 = [] ∧ log q1 = log q
       | next :: rest =>
           isProcessing q1 = true
           ∧ tasks q1 = [Write next]
           ∧ queue q1 = rest
           ∧ log q1 = log q ++ [Attempt (uid next)]
           ∧ attempts (uid next) q1 = 1
           ∧ retryCountOf (filePath next) q1 = 0
       end).
Proof.
  intros Hreach. pose proof (Inv_reachable q Hreach) as HI.
  split; [|split; [|split; [|split]]].
  - intros u. destruct (inv_bound q HI u). lia.
  - intros q' u Hsteps Hd. by apply (dropped_steps q q' u HI Hsteps Hd).
  - intros pre item post Hts q0.
    destruct (Inv_task _ _ _ _ HI Hts) as (_ & -> & -> & c & Hc & Hra & Hatt & Hret & _ & Hdrop & _).
    subst q0. unfold retryCountOf, writeSucceeded, writeFailed, with_tasks, retries, dropped in *.
    simpl. rewrite Hra, lookup_counter, delete_counter, lookup_empty, Hret. simpl.
    split; [done|]. split; [done|]. split.
    + intros Hlow. apply Nat.ltb_lt in Hlow. rewrite Hlow. simpl.
      rewrite retriesIn_snoc. simpl. rewrite Nat.eqb_refl.
      split; [done|]. split; [done|]. split; [by rewrite Hret|].
      intros [?|[=]]%dropped_snoc. done.
    + intros Hmax.
      replace (c <? MAX_RETRIES) with false by (symmetry; apply Nat.ltb_ge; lia).
      simpl. rewrite lookup_empty.
      split; [apply in_app_iff; right; by left|].
      split; [done|]. split; [done|]. split; [done|].
      unfold immediateFired, processQueue. simpl.
      pose proof (inv_queue q HI) as Hq.
      destruct (queue q) as [|next rest]; [done|]. simpl.
      apply Forall_cons_1 in Hq as [(_ & Hnone & Hnot & _) _].
      unfold attempts, retries in Hnone, Hnot. unfold attempts. simpl.
      rewrite lookup_empty, !attemptsIn_snoc, !retriesIn_snoc, Hnone, Hnot. simpl.
      rewrite Nat.eqb_refl. repeat split; try done.
      intros u Hu. rewrite !attemptsIn_snoc. simpl.
      destruct (Nat.eqb_spec (uid next) u); [congruence|lia].
  - intros pre item delay post Hts q0.
    destruct (Inv_task _ _ _ _ HI Hts) as (_ & -> & -> & _). done.
  - intros pre post Hts q1.
    destruct (Inv_task _ _ _ _ HI Hts) as (_ & -> & -> & Hra). simpl in Hra.
    subst q1. unfold immediateFired, processQueue, retryCountOf, attempts. simpl.
    pose proof (inv_queue q HI) as Hq.
    destruct (queue q) as [|next rest]; [done|]. simpl.
    apply Forall_cons_1 in Hq as [(_ & Hnone & _) _]. unfold attempts in Hnone.
    rewrite Hra, lookup_empty, attemptsIn_snoc, Hnone. simpl.
    by rewrite Nat.eqb_refl.
Qed.

End QueueRuns.

Lemma fail_and_retry_steps (q0 q : FileQueue.t string) (delay : nat) :
  FileQueue.steps q0 q →
  FileQueue.tasks q = [FileQueue.Write Scenario.snapshot_job] →
  FileQueue.tasks (FileQueue.writeFailed Scenario.snapshot_job (FileQueue.with_tasks [] q))
  = [FileQueue.Timeout Scenario.snapshot_job delay] →
  FileQueue.steps q0 (Scenario.fail_and_retry q).
Proof.
  intros Hq Hwrite Htimer.
  eapply FileQueue.steps_step.
  - eapply FileQueue.steps_step; [exact Hq|].
    apply (FileQueue.step_write_failed q [] Scenario.snapshot_job []). exact Hwrite.
  - apply (FileQueue.step_timeout _ [] Scenario.snapshot_job delay []). exact Htimer.
Qed.

Lemma queue_try_reachable : FileQueue.reachable (Scenario.queue_try 3).
Proof.
  unfold FileQueue.reachable.
  change (Scenario.queue_try 3) with (Scenario.fail_and_retry (Scenario.queue_try 2)).
  apply (fail_and_retry_steps _ (Scenario.queue_try 2) 300); [|vm_compute; reflexivity..].
  change (Scenario.queue_try 2) with (Scenario.fail_and_retry (Scenario.queue_try 1)).
  apply (fail_and_retry_steps _ (Scenario.queue_try 1) 200); [|vm_compute; reflexivity..].
  change (Scenario.queue_try 1) with (Scenario.fail_and_retry (Scenario.queue_try 0)).
  apply (fail_and_retry_steps _ (Scenario.queue_try 0) 100); [|vm_compute; reflexivity..].
  eapply FileQueue.steps_step; [apply FileQueue.steps_refl|].
  apply FileQueue.step_enqueue.
Qed.

Lemma queue_given_up_reachable : FileQueue.reachable Scenario.queue_given_up.
Proof.
  apply (FileQueue.steps_step _ (Scenario.queue_try 3)); [exact queue_try_reachable|].
  apply (FileQueue.step_write_failed (Scenario.queue_try 3) [] Scenario.snapshot_job []).
  vm_compute; reflexivity.
Qed.

(** The run of the scenario: four attempts, three re-queues, then the item
    is given up, its counter cleared and the queue free for the next job. *)
Lemma queue_given_up_log :
  FileQueue.log Scenario.queue_given_up
  = [ FileQueue.Attempt 0; FileQueue.Retrying 0 1;
      FileQueue.Attempt 0; FileQueue.Retrying 0 2;
      FileQueue.Attempt 0; FileQueue.Retrying 0 3;
      FileQueue.Attempt 0; FileQueue.Failed 0 ]
  ∧ FileQueue.retryAttempts Scenario.queue_given_up = ∅
  ∧ FileQueue.tasks Scenario.queue_given_up = [FileQueue.Immediate].
Proof. repeat split; vm_compute; reflexivity. Qed.

Lemma queue_last_try_reachable : FileQueue.reachable Scenario.queue_last_try.
Proof.
  apply (FileQueue.steps_step _ (Scenario.queue_try 3)); [exact queue_try_reachable|].
  apply FileQueue.step_enqueue.
Qed.

Lemma retries_are_bounded_witness :
  FileQueue.reachable Scenario.queue_last_try
  ∧ FileQueue.tasks Scenario.queue_last_try = [FileQueue.Write Scenario.snapshot_job]
  ∧ FileQueue.attempts 0 Scenario.queue_last_try = 4
  ∧ FileQueue.retries 0 Scenario.queue_last_try = FileQueue.MAX_RETRIES
  ∧ (∀ u, (FileQueue.attempts u Scenario.queue_last_try ≤ FileQueue.MAX_RETRIES + 1
           ∧ FileQueue.retries u Scenario.queue_last_try ≤ FileQueue.MAX_RETRIES)%nat)
  ∧ FileQueue.dropped 0
      (FileQueue.writeFailed Scenario.snapshot_job
         (FileQueue.with_tasks [] Scenario.queue_last_try))
  ∧ FileQueue.tasks
      (FileQueue.immediateFired
         (FileQueue.with_tasks []
            (FileQueue.writeFailed Scenario.snapshot_job
               (FileQueue.with_tasks [] Scenario.queue_last_try))))
    = [FileQueue.Write (FileQueue.mkItem "data/db.json" "snapshot 2" 1)].
Proof.
  assert (Htasks : FileQueue.tasks Scenario.queue_last_try
                   = [] ++ FileQueue.Write Scenario.snapshot_job :: [])
    by (vm_compute; reflexivity).
  assert (Hmax : FileQueue.retries (FileQueue.uid Scenario.snapshot_job)
                   Scenario.queue_last_try = FileQueue.MAX_RETRIES)
    by (vm_compute; reflexivity).
  pose proof (retries_are_bounded Scenario.queue_last_try queue_last_try_reachable)
    as Hall.
  pose proof (proj2 (proj2 (proj2 (proj1 (proj2 (proj2 Hall))
                                     [] Scenario.snapshot_job [] Htasks))) Hmax) as Hdrop.
  split; [exact queue_last_try_reachable|]. split; [exact Htasks|].
  split; [vm_compute; reflexivity|]. split; [exact Hmax|]. split; [exact (proj1 Hall)|].
  split; [exact (proj1 Hdrop)|].
  vm_compute. vm_compute in Hdrop. exact (proj1 (proj2 (proj2 (proj2 (proj2 (proj2 Hdrop)))))).
Defined.

(** ** Restoring a snapshot *)

Section Restoration.
Context `{DateEngine}.
#[local] Open Scope nat_scope.

Lemma Map_set_fresh {V} (key : Value) (v : V) (m : list (Value * V)) :
  Map_get key m = None → Map_set key v m = m ++ [(key, v)].
Proof.
  induction m as [|[k w] m IH]; simpl; [done|].
  destruct (same_value_zero k key); [done|]. intros Hm. by rewrite IH.
Qed.

Lemma Map_get_snoc {V} (key k : Value) (v : V) (m : list (Value * V)) :
  Map_get key (m ++ [(k, v)])
  = match Map_get key m with
    | Some w => Some w
    | None => if same_value_zero k key then Some v else None
    end.
Proof.
  induction m as [|[k' w] m IH]; simpl; [done|].
  by destruct (same_value_zero k' key).
Qed.

Lemma insertWithoutNotify_rows (table : Table.t) (rowData : RowData) :
  length (Table.rows (Database.insertWithoutNotify table rowData).1)
  ≤ S (length (Table.rows table)).
Proof.
  unfold Database.insertWithoutNotify.
  destruct (negb (Table.validateRow rowData table).1); simpl; [lia|].
  destruct (Table.buildRow rowData (Table.columns table)); simpl; [|lia].
  rewrite length_app. simpl. lia.
Qed.

Lemma restoreRows_rows (rows : list RowData) (table table' : Table.t) :
  Database.restoreRows rows table = Returns table' →
  length (Table.rows table') ≤ length (Table.rows table) + length rows.
Proof.
  revert table. induction rows as [|rowData rows IH]; intros table; simpl.
  - intros [= <-]. lia.
  - pose proof (insertWithoutNotify_rows table rowData) as Hone.
    destruct (Database.insertWithoutNotify table rowData) as [table1 [r|e]];
      [|discriminate].
    intros Hrest. apply IH in Hrest. simpl in Hone. lia.
Qed.

(** A restored table holds at most the rows of the snapshot. *)
Lemma restoreTable_rowCount (tableData : Database.TableData) (table : Table.t) :
  Database.restoreTable tableData = Returns table →
  Table.rowCount table ≤ length (Database.table_rows tableData).
Proof.
  unfold Database.restoreTable.
  destruct (Database.restoreRows _ _) as [table1|e] eqn:Hrows; simpl; [|discriminate].
  intros [= <-]. apply restoreRows_rows in Hrows. unfold Table.rowCount. simpl in *. lia.
Qed.


(** A snapshot, also as read back from the file, lists the tables of the
    database in order and records for each the number of rows it holds. *)
Lemma snapshot_of_database (now : string) (db : Database.t) :
  map Database.table_name
    (Database.snapshot_tables (Database.json_roundtrip (Database.toJSON now db)))
  = Database.listTables db
  ∧ Forall
      (λ td, Database.rowCount (Database.schema td) = length (Database.table_rows td))
      (Database.snapshot_tables (Database.json_roundtrip (Database.toJSON now db))).
Proof.
  unfold Database.json_roundtrip, Database.toJSON, Database.listTables. simpl.
  rewrite !map_map. split.
  - apply map_ext. by intros [key table].
  - apply Forall_map, Forall_true. intros [key table]. simpl.
    by rewrite length_map.
Qed.


End Restoration.



(** * Further properties of the engine *)

(** ** Table.insert *)

Section InsertProperties.
Context `{DateEngine}.

Lemma serialize_keeps_presence (c : Column.t) (v w : Value) :
  nullish v = false → Column.serialize c v = Returns w → nullish w = false.
Proof.
  unfold Column.serialize. intros Hv. rewrite Hv.
  repeat (destruct (String.eqb _ _); [by intros [= <-]|]).
  destruct (String.eqb _ _).
  - destruct (new_Date v); [by intros [= <-]|discriminate].
  - by intros [= <-].
Qed.

Lemma nullish_Undefined (v : Value) : nullish v = false → strict_equals v Undefined = false.
Proof. by destruct v as [| |?|[]|?|[[] ? ?]]. Qed.

(** The keys of the row [insert] builds, and its values for the properties
    the data supplies. *)
Lemma buildRow_fold (data : RowData) (cols : list Column.t) (row0 row : RowData) :
  foldM
    (fun (row : RowData) column =>
       value ←
         (if negb (strict_equals (get data (Column.name column)) Undefined)
          then Column.serialize column (get data (Column.name column))
          else Returns (Column.defaultValue column));
       Returns (<[Column.name column := value]> row))
    cols row0 = Returns row →
  (∀ key, is_Some (row !! key)
          ↔ is_Some (row0 !! key) ∨ In key (map Column.name cols))
  ∧ (∀ key, nullish (get data key) = false →
            nullish (get row0 key) = false ∨ In key (map Column.name cols) →
            nullish (get row key) = false).
Proof.
  revert row0. induction cols as [|c cols IH]; intros row0; simpl.
  - intros [= <-]. split; [tauto|]. by intros key _ [?|[]].
  - destruct (if negb _ then _ else _) as [value|e] eqn:Hvalue; simpl; [|discriminate].
    intros Hrun. destruct (IH _ Hrun) as [Hkeys Hvals]. split.
    + intros key. rewrite Hkeys.
      destruct (decide (Column.name c = key)) as [<-|Hne].
      * rewrite lookup_insert_eq. split; [eauto|]. intros _. left. eauto.
      * rewrite lookup_insert_ne by done. tauto.
    + intros key Hdata Hkey. apply Hvals; [done|].
      destruct (decide (Column.name c = key)) as [<-|Hne].
      * left. unfold get at 1. rewrite lookup_insert_eq. simpl.
        rewrite (nullish_Undefined _ Hdata) in Hvalue. simpl in Hvalue.
        by apply (serialize_keeps_presence c _ _ Hdata).
      * unfold get at 1. rewrite lookup_insert_ne by done.
        destruct Hkey as [?|[?|?]]; [by left|done|by right].
Qed.

Lemma flat_map_nil_iff {X Y} (f : X → list Y) (l : list X) :
  flat_map f l = [] ↔ ∀ x, In x l → f x = [].
Proof.
  induction l as [|x l IH]; simpl; [tauto|].
  split.
  - intros [Hx Hl]%app_eq_nil y [<-|Hy]; [done|]. by apply IH.
  - intros Hall. rewrite (Hall x) by auto. simpl. apply IH. auto.
Qed.

Lemma validate_nullish (c : Column.t) (v : Value) :
  nullish v = true → Column.validate c v = Column.nullable c.
Proof. unfold Column.validate. by intros ->. Qed.

(** A column reports no error only if it accepts the value; without the
    unique flag the two are the same. *)
Lemma validateColumn_accepts (data : RowData) (tb : Table.t) (c : Column.t) :
  (Table.validateColumn data tb c = [] →
     Column.validate c (get data (Column.name c)) = true)
  ∧ (Column.unique c = false →
     Column.validate c (get data (Column.name c)) = true →
     Table.validateColumn data tb c = []).
Proof.
  unfold Table.validateColumn.
  destruct (nullish (get data (Column.name c))) eqn:Hnull; simpl.
  - rewrite (validate_nullish _ _ Hnull), !andb_false_r. simpl.
    destruct (Column.nullable c); simpl; [done|]. split; [discriminate|done].
  - rewrite andb_false_r. simpl.
    destruct (Column.validate c (get data (Column.name c))); simpl.
    + split; [done|]. by intros ->.
    + split; [discriminate|done].
Qed.

(** A row passes [validateRow] only if every column accepts the value the
    row gives it; without unique columns the two are the same. *)
Lemma validateRow_accepts (data : RowData) (tb : Table.t) :
  ((Table.validateRow data tb).1 = true →
     ∀ c, In c (Table.columns tb) →
          Column.validate c (get data (Column.name c)) = true)
  ∧ ((∀ c, In c (Table.columns tb) → Column.unique c = false) →
     (∀ c, In c (Table.columns tb) →
           Column.validate c (get data (Column.name c)) = true) →
     Table.validateRow data tb = (true, [])).
Proof.
  unfold Table.validateRow. simpl. split.
  - rewrite Nat.eqb_eq, length_zero_iff_nil, flat_map_nil_iff.
    intros Hall c Hc. by apply (validateColumn_accepts data tb c), Hall.
  - intros Hplain Hall.
    assert (Hnil : flat_map (Table.validateColumn data tb) (Table.columns tb) = []).
    { apply flat_map_nil_iff. intros c Hc.
      apply (validateColumn_accepts data tb c); auto. }
    by rewrite Hnil.
Qed.


(** X2. [validateRow] reports a row valid only if every column's
    [validate] accepts the value the row holds under the column's name
    (a missing value is accepted exactly by a nullable column); in a table
    without unique columns it reports valid, with no error, exactly then. *)
Theorem validateRow_valid_means_every_column_accepts (data : RowData) (tb : Table.t) :
  ((Table.validateRow data tb).1 = true →
     ∀ c, In c (Table.columns tb) →
          Column.validate c (get data (Column.name c)) = true)
  ∧ ((∀ c, In c (Table.columns tb) → Column.unique c = false) →
     (∀ c, In c (Table.columns tb) →
           Column.validate c (get data (Column.name c)) = true) →
     Table.validateRow data tb = (true, [])).
Proof. apply validateRow_accepts. Qed.

End InsertProperties.

(** ** Table.delete and Table.select *)

Section DeleteProperties.
#[local] Open Scope nat_scope.

Lemma found_count (p : RowData → bool) (rows : list RowData) (n : nat) :
  n ≤ length rows →
  length (List.filter (fun i => p (default ∅ (rows !! i))) (seq 0 n))
  = length (List.filter p (take n rows)).
Proof.
  induction n as [|n IH]; intros Hn; [reflexivity|].
  destruct (lookup_lt_is_Some_2 rows n ltac:(lia)) as [r Hr].
  rewrite seq_S, (take_S_r _ _ _ Hr), !List.filter_app, !length_app, IH by lia.
  simpl. rewrite Hr. simpl. by destruct (p r).
Qed.

Lemma filter_filter_negb {X} (p : X → bool) (l : list X) :
  List.filter p (List.filter (fun x => negb (p x)) l) = [].
Proof.
  induction l as [|x l IH]; simpl; [reflexivity|].
  destruct (p x) eqn:Hp; simpl; [exact IH|]. by rewrite Hp.
Qed.

(** X3. [delete] removes exactly the rows its predicate selects and keeps
    the others in their order; it reports success with the number of rows
    removed, leaves the schema alone, and notifies the owner only if a row
    was removed.  A [select] with the same predicate then finds nothing.
    Without a predicate every row is removed. *)
Theorem delete_removes_the_selected_rows (where_ : option (RowData → bool))
    (tb : Table.t) :
  let p := fun row => match where_ with None => true | Some p => p row end in
  let o := Table.delete where_ tb in
  Table.rows (Table.after o) = List.filter (fun row => negb (p row)) (Table.rows tb)
  ∧ Table.completion o
    = Returns (Table.mkResult true None
                 (Some (length (List.filter p (Table.rows tb)))) None)
  ∧ Table.columns (Table.after o) = Table.columns tb
  ∧ Table.notified o
    = (Table.onChange tb && (0 <? length (List.filter p (Table.rows tb))))
  ∧ Table.select (Some p) (Table.after o) = []
  ∧ (where_ = None → Table.rows (Table.after o) = []).
Proof.
  intros p o.
  assert (Ho : o = Table.delete (Some p) tb) by (subst o p; by destruct where_).
  assert (Hrows : Table.rows (Table.after o)
                  = List.filter (fun row => negb (p row)) (Table.rows tb)).
  { rewrite Ho. apply delete_rows. }
  assert (Hcount : length (Table.indicesToDelete (Some p) tb)
                   = length (List.filter p (Table.rows tb))).
  { unfold Table.indicesToDelete, Table.row_at.
    rewrite (found_count p (Table.rows tb) (length (Table.rows tb)) (le_n _)).
    by rewrite firstn_all. }
  split; [exact Hrows|]. split; [|split; [|split; [|split]]].
  - rewrite Ho. unfold Table.delete. simpl. by rewrite Hcount.
  - apply delete_columns.
  - rewrite Ho. unfold Table.delete, Table.notifyChange. simpl. rewrite Hcount.
    destruct (0 <? _); [|by rewrite andb_false_r].
    rewrite andb_true_r. clear.
    generalize (Table.sort_desc (Table.indicesToDelete (Some p) tb)). intros l.
    revert tb. induction l as [|i l IH]; intros tb; simpl; [done|]. by rewrite IH.
  - unfold Table.select. rewrite Hrows. apply filter_filter_negb.
  - intros ->. rewrite Hrows. subst p. simpl.
    generalize (Table.rows tb). clear. intros rs.
    induction rs as [|r rs IH]; simpl; done.
Qed.

End DeleteProperties.

(** ** Table.update *)

Section UpdateProperties.
Context `{DateEngine}.
#[local] Open Scope nat_scope.

(** What the second phase of [update] can change. *)
Lemma updateLoop_frame (updates : RowData) (candidates : list (nat * RowData))
    (tb : Table.t) (affected : nat) (errors : list string) :
  let r := Table.updateLoop updates candidates tb affected errors in
  length (Table.rows r.1) = length (Table.rows tb)
  ∧ Table.columns r.1 = Table.columns tb
  ∧ Table.onChange r.1 = Table.onChange tb
  ∧ (∀ i, ¬ In i (map fst candidates) → Table.rows r.1 !! i = Table.rows tb !! i)
  ∧ (∀ a e, r.2 = Returns (a, e) →
       a + length e = affected + length errors + length candidates).
Proof.
  revert tb affected errors.
  induction candidates as [|[index row] rest IH]; intros tb affected errors; simpl.
  - split; [done|]. split; [done|]. split; [done|]. split; [done|].
    intros a e [= <- <-]. lia.
  - destruct (Table.applyUpdates updates row (Table.columns tb)) as [updatedRow|e]; simpl.
    2: { split; [done|]. split; [done|]. split; [done|]. split; [done|]. discriminate. }
    match goal with |- context [if ?c then _ else _] => destruct c end.
    + match goal with
      | |- context [Table.updateLoop updates rest ?t ?a ?e] =>
          specialize (IH t a e); set (errors2 := e) in *
      end.
      cbv zeta in IH. destruct IH as (Hlen & Hcols & Hcb & Hrows & Hcount).
      split; [done|]. split; [done|]. split; [done|]. split.
      * intros i Hi. apply Hrows. tauto.
      * intros a e Hr. apply Hcount in Hr. unfold errors2 in Hr.
        rewrite length_app in Hr. simpl in Hr. lia.
    + match goal with
      | |- context [Table.updateLoop updates rest ?t ?a ?e] =>
          specialize (IH t a e); set (tb2 := t) in *
      end.
      cbv zeta in IH. destruct IH as (Hlen & Hcols & Hcb & Hrows & Hcount).
      split; [|split; [done|split; [done|split]]].
      * rewrite Hlen. unfold tb2. simpl. apply length_insert.
      * intros i Hi. rewrite Hrows by tauto. unfold tb2. simpl.
        apply list_lookup_insert_ne. tauto.
      * intros a e Hr. apply Hcount in Hr. lia.
Qed.

Lemma rowsToUpdate_length (where_ : option (RowData → bool)) (tb : Table.t) :
  length (Table.rowsToUpdate where_ tb)
  = length (List.filter (fun row => match where_ with None => true | Some p => p row end)
              (Table.rows tb)).
Proof.
  unfold Table.rowsToUpdate. generalize (Table.rows tb). intros rows.
  assert (Hgen : ∀ (g : nat → nat),
    length (List.filter
              (fun '(_, row) => match where_ with None => true | Some p => p row end)
              (imap (fun i row => (g i, row)) rows))
    = length (List.filter
                (fun row => match where_ with None => true | Some p => p row end) rows)).
  { induction rows as [|r rows IH]; intros g; simpl; [reflexivity|].
    destruct (match where_ with None => true | Some p => p r end); simpl;
      [f_equal|]; exact (IH (fun i => g (S i))). }
  apply (Hgen (fun i => i)).
Qed.

Lemma rowsToUpdate_index (where_ : option (RowData → bool)) (tb : Table.t) (i : nat) :
  In i (map fst (Table.rowsToUpdate where_ tb)) →
  ∃ row, Table.rows tb !! i = Some row
         ∧ match where_ with None => true | Some p => p row end = true.
Proof.
  unfold Table.rowsToUpdate. intros ((j & row) & Hfst & Hin)%in_map_iff.
  simpl in Hfst. subst j. apply filter_In in Hin as [Hin Hp].
  apply list_elem_of_In, elem_of_lookup_imap in Hin as (j & r & [= -> ->] & Hr).
  eauto.
Qed.

(** X4. [update] never changes the number of rows or the schema, and a row
    the predicate does not select stays as it is.  When the call returns,
    every selected row was either updated or reported with an error:
    [rowsAffected] plus the number of error messages is the number of
    selected rows; [success] says that there is no error, and the owner is
    notified only if a row was updated. *)
Theorem update_touches_selected_rows_only (updates : RowData)
    (where_ : option (RowData → bool)) (tb : Table.t) :
  let p := fun row => match where_ with None => true | Some p => p row end in
  let o := Table.update updates where_ tb in
  length (Table.rows (Table.after o)) = length (Table.rows tb)
  ∧ Table.columns (Table.after o) = Table.columns tb
  ∧ (∀ i row, Table.rows tb !! i = Some row → p row = false →
              Table.rows (Table.after o) !! i = Some row)
  ∧ (∀ res, Table.completion o = Returns res →
       ∃ affected errs,
         Table.rowsAffected res = Some affected
         ∧ Table.errors res = (if (0 <? length errs) then Some errs else None)
         ∧ affected + length errs = length (List.filter p (Table.rows tb))
         ∧ Table.success res = (length errs =? 0)
         ∧ Table.notified o = (Table.onChange tb && (0 <? affected))).
Proof.
  intros p o. subst o. unfold Table.update.
  pose proof (updateLoop_frame updates (Table.rowsToUpdate where_ tb) tb 0 [])
    as (Hlen & Hcols & Hcb & Hrows & Hcount).
  destruct (Table.updateLoop updates (Table.rowsToUpdate where_ tb) tb 0 [])
    as [tb' [[affected errs]|e]]; simpl in *.
  - split; [done|]. split; [done|]. split.
    + intros i row Hrow Hp. rewrite Hrows; [done|].
      intros (row' & Hrow' & Hp')%rowsToUpdate_index.
      rewrite Hrow in Hrow'. injection Hrow' as <-. subst p. simpl in Hp. congruence.
    + intros res [= <-]. exists affected, errs. simpl.
      pose proof (Hcount affected errs eq_refl) as Hsum.
      rewrite rowsToUpdate_length in Hsum.
      split; [done|]. split; [done|]. split; [exact Hsum|]. split; [done|].
      unfold Table.notifyChange. rewrite Hcb.
      by destruct (0 <? affected), (Table.onChange tb).
  - split; [done|]. split; [done|]. split; [|discriminate].
    intros i row Hrow Hp. rewrite Hrows; [done|].
    intros (row' & Hrow' & Hp')%rowsToUpdate_index.
    rewrite Hrow in Hrow'. injection Hrow' as <-. subst p. simpl in Hp. congruence.
Qed.

End UpdateProperties.

(** *** Closed instances *)


(** ** The rows a table holds *)

Section StoredRows.
Context `{DateEngine}.
#[local] Open Scope nat_scope.

Import TableInv.

(** What [serialize] returns: [null] for a missing value; otherwise a value
    of the column's stored kind, or the value itself when the type is not
    one [serialize] knows. *)
Lemma serialize_stored (c : Column.t) (v w : Value) :
  Column.serialize c v = Returns w →
  (nullish v = true ∧ w = Null)
  ∨ (nullish v = false
     ∧ (stored_typeof (Column.type c) = Some (typeof w)
        ∨ (stored_typeof (Column.type c) = None ∧ w = v))).
Proof.
  unfold Column.serialize, stored_typeof.
  destruct (nullish v); [intros [= <-]; by left|]. intros Hser. right. split; [done|].
  destruct (String.eqb (Column.type c) "INTEGER"); [injection Hser as <-; by left|].
  destruct (String.eqb (Column.type c) "FLOAT"); [injection Hser as <-; by left|].
  destruct (String.eqb (Column.type c) "BOOLEAN"); [injection Hser as <-; by left|].
  destruct (String.eqb (Column.type c) "STRING"); [injection Hser as <-; by left|].
  destruct (String.eqb (Column.type c) "DATE").
  - destruct (new_Date v); [injection Hser as <-; by left|discriminate].
  - injection Hser as <-. by right.
Qed.

Lemma validate_unknown_type (c : Column.t) (v : Value) :
  stored_typeof (Column.type c) = None → nullish v = false →
  Column.validate c v = false.
Proof.
  unfold Column.validate, stored_typeof. intros Htype ->.
  repeat (destruct (String.eqb (Column.type c) _); [discriminate|]). done.
Qed.

(** A value a column accepted is stored as the column holds values. *)
Lemma serialize_accepted (c : Column.t) (v w : Value) :
  Column.validate c v = true → Column.serialize c v = Returns w → stored_in c w.
Proof.
  intros Hvalid [[_ ->]|[Hv [Htype|[Htype ->]]]]%serialize_stored.
  - by left.
  - right. by right.
  - by rewrite (validate_unknown_type c v Htype Hv) in Hvalid.
Qed.

(** Where the values of the row [insert] builds come from. *)
Lemma buildRow_values (data : RowData) (cols : list Column.t) (row0 row : RowData) :
  foldM
    (fun (row : RowData) column =>
       value ←
         (if negb (strict_equals (get data (Column.name column)) Undefined)
          then Column.serialize column (get data (Column.name column))
          else Returns (Column.defaultValue column));
       Returns (<[Column.name column := value]> row))
    cols row0 = Returns row →
  ∀ key v, row !! key = Some v →
    row0 !! key = Some v
    ∨ ∃ c, In c cols ∧ Column.name c = key
           ∧ (v = Column.defaultValue c
              ∨ Column.serialize c (get data key) = Returns v).
Proof.
  revert row0. induction cols as [|c cols IH]; intros row0; simpl.
  - intros [= <-]. auto.
  - destruct (if negb _ then _ else _) as [value|e] eqn:Hvalue; simpl; [|discriminate].
    intros Hrun key v Hv. destruct (IH _ Hrun key v Hv) as [Hrow0|(c' & Hc' & Hname & Hval)].
    + destruct (decide (Column.name c = key)) as [<-|Hne].
      * rewrite lookup_insert_eq in Hrow0. injection Hrow0 as ->.
        right. exists c. split; [by left|]. split; [done|].
        destruct (negb _); [by right|]. injection Hvalue as <-. by left.
      * rewrite lookup_insert_ne in Hrow0 by done. by left.
    + right. exists c'. auto.
Qed.

(** The row a successful [insert] stores is well formed. *)
Lemma buildRow_well_formed (data : RowData) (tb : Table.t) (row : RowData) :
  (Table.validateRow data tb).1 = true →
  Table.buildRow data (Table.columns tb) = Returns row →
  well_formed (Table.columns tb) row.
Proof.
  intros Hvalid Hrow.
  pose proof (proj1 (validateRow_accepts data tb) Hvalid) as Haccept.
  unfold Table.buildRow in Hrow.
  pose proof (buildRow_values _ _ _ _ Hrow) as Hvalues.
  apply buildRow_fold in Hrow as [Hkeys Hvals].
  split; [|split].
  - intros key. rewrite Hkeys. split; [|by right].
    intros [Hsome|?]; [|done]. rewrite lookup_empty in Hsome. by destruct Hsome.
  - intros c Hc Hreq. apply Hvals.
    + specialize (Haccept c Hc).
      destruct (nullish (get data (Column.name c))) eqn:Hnull; [|done].
      rewrite (validate_nullish _ _ Hnull) in Haccept. congruence.
    + right. by apply in_map.
  - intros key v Hv. destruct (Hvalues key v Hv) as [Hempty|(c & Hc & <- & Hval)].
    + by rewrite lookup_empty in Hempty.
    + exists c. split; [done|]. split; [done|].
      destruct Hval as [->|Hser]; [right; by left|].
      apply (serialize_accepted c (get data (Column.name c))); [by apply Haccept|exact Hser].
Qed.

(** The keys and values of the row [update] builds from a stored row. *)
Lemma applyUpdates_fold (updates : RowData) (cols : list Column.t)
    (ks : list string) (row0 row : RowData) :
  foldM
    (fun (updatedRow : RowData) key =>
       match List.find (fun c => String.eqb (Column.name c) key) cols with
       | Some column =>
           if negb (strict_equals (get updates key) Undefined) then
             value ← Column.serialize column (get updates key);
             Returns (<[key := value]> updatedRow)
           else Returns updatedRow
       | None => Returns updatedRow
       end)
    ks row0 = Returns row →
  (∀ key, is_Some (row0 !! key) → is_Some (row !! key))
  ∧ (∀ key v, row !! key = Some v →
       row0 !! key = Some v
       ∨ ∃ c, In c cols ∧ Column.name c = key
              ∧ Column.serialize c (get updates key) = Returns v).
Proof.
  revert row0. induction ks as [|k ks IH]; intros row0; simpl.
  - intros [= <-]. auto.
  - destruct (List.find _ cols) as [column|] eqn:Hfind; [|apply IH].
    destruct (negb _); [|apply IH].
    destruct (Column.serialize column (get updates k)) as [value|e] eqn:Hser;
      simpl; [|discriminate].
    intros Hrun. destruct (IH _ Hrun) as [Hkeep Hvals].
    apply find_some in Hfind as [Hin Hname%String.eqb_eq]. split.
    + intros key Hsome. apply Hkeep.
      destruct (decide (k = key)) as [<-|Hne].
      * rewrite lookup_insert_eq. eauto.
      * by rewrite lookup_insert_ne.
    + intros key v Hv. destruct (Hvals key v Hv) as [Hrow0|?]; [|by right].
      destruct (decide (k = key)) as [<-|Hne].
      * rewrite lookup_insert_eq in Hrow0. injection Hrow0 as ->.
        right. by exists column.
      * rewrite lookup_insert_ne in Hrow0 by done. by left.
Qed.

(** An updated row that passes validation is well formed. *)
Lemma applyUpdates_well_formed (updates row updatedRow : RowData) (tb : Table.t) :
  well_formed (Table.columns tb) row →
  Table.applyUpdates updates row (Table.columns tb) = Returns updatedRow →
  (Table.validateRow updatedRow tb).1 = true →
  well_formed (Table.columns tb) updatedRow.
Proof.
  intros (Hkeyed & _ & Htyped) Hrun Hvalid.
  pose proof (proj1 (validateRow_accepts updatedRow tb) Hvalid) as Haccept.
  apply applyUpdates_fold in Hrun as [Hkeep Hvals].
  split; [|split].
  - intros key. split.
    + intros [v Hv]. destruct (Hvals key v Hv) as [Hrow|(c & Hc & <- & _)].
      * apply Hkeyed. eauto.
      * by apply in_map.
    + intros Hin. by apply Hkeep, Hkeyed.
  - intros c Hc Hreq. specialize (Haccept c Hc).
    destruct (nullish (get updatedRow (Column.name c))) eqn:Hnull; [|done].
    rewrite (validate_nullish _ _ Hnull) in Haccept. congruence.
  - intros key v Hv. destruct (Hvals key v Hv) as [Hrow|(c & Hc & <- & Hser)].
    + by apply Htyped.
    + exists c. split; [done|]. split; [done|].
      apply serialize_stored in Hser as [[_ ->]|[Hu [Htype|[Htype ->]]]].
      * by left.
      * right. by right.
      * specialize (Haccept c Hc). unfold get in Haccept at 1.
        rewrite Hv in Haccept. simpl in Haccept.
        by rewrite (validate_unknown_type c _ Htype Hu) in Haccept.
Qed.

Lemma rowsToUpdate_lookup (where_ : option (RowData → bool)) (tb : Table.t)
    (i : nat) (row : RowData) :
  In (i, row) (Table.rowsToUpdate where_ tb) → Table.rows tb !! i = Some row.
Proof.
  unfold Table.rowsToUpdate. intros [Hin _]%filter_In.
  by apply list_elem_of_In, elem_of_lookup_imap in Hin as (j & r & [= -> ->] & Hr).
Qed.

Lemma updateLoop_well_formed (updates : RowData) (cols : list Column.t)
    (candidates : list (nat * RowData))
    (tb : Table.t) (affected : nat) (errors : list string) :
  Table.columns tb = cols →
  Forall (well_formed cols) (Table.rows tb) →
  Forall (λ candidate, well_formed cols candidate.2) candidates →
  Forall (well_formed cols)
    (Table.rows (Table.updateLoop updates candidates tb affected errors).1).
Proof.
  revert tb affected errors.
  induction candidates as [|[index row] rest IH];
    intros tb affected errors Hcols Hrows Hcands; simpl; [done|].
  apply Forall_cons_1 in Hcands as [Hrow Hrest]. simpl in Hrow.
  destruct (Table.applyUpdates updates row (Table.columns tb)) as [updatedRow|e] eqn:Hrun;
    simpl; [|done].
  match goal with
  | |- context [if negb ?c then _ else _] => destruct c eqn:Hvalid
  end; simpl.
  - change ((Table.validateRow updatedRow tb).1 = true) in Hvalid.
    apply IH; [exact Hcols| |exact Hrest].
    simpl. apply Forall_insert; [done|]. subst cols.
    by apply (applyUpdates_well_formed updates row).
  - by apply IH.
Qed.

(** Every row of a table a program can hold is well formed. *)
Lemma reachable_well_formed (tb : Table.t) :
  reachable tb → Forall (well_formed (Table.columns tb)) (Table.rows tb).
Proof.
  induction 1 as [name cols pk cb|data tb _ IH|updates where_ tb _ IH|where_ tb _ IH
                  |cb tb _ IH].
  - constructor.
  - unfold Table.insert.
    destruct (Table.validateRow data tb).1 eqn:Hvalid; simpl; [|done].
    destruct (Table.buildRow data (Table.columns tb)) as [row|e] eqn:Hrow; simpl; [|done].
    apply Forall_app. split; [done|]. constructor; [|done].
    by apply (buildRow_well_formed data).
  - pose proof (updateLoop_frame updates (Table.rowsToUpdate where_ tb) tb 0 [])
      as (_ & Hcols & _).
    pose proof (updateLoop_well_formed updates (Table.columns tb)
                  (Table.rowsToUpdate where_ tb) tb 0 [] eq_refl IH) as Hloop.
    unfold Table.update.
    destruct (Table.updateLoop updates (Table.rowsToUpdate where_ tb) tb 0 [])
      as [tb' [[affected errs]|e]]; simpl in *; rewrite Hcols; apply Hloop;
      apply Forall_forall; intros [i row] Hin%list_elem_of_In%rowsToUpdate_lookup; simpl;
      rewrite Forall_forall in IH; apply IH; by apply (list_elem_of_lookup_2 _ i).
  - rewrite delete_columns.
    assert (Hrows : ∃ p, Table.rows (Table.after (Table.delete where_ tb))
                         = List.filter p (Table.rows tb)).
    { destruct where_ as [p|].
      - eexists. apply delete_rows.
      - exists (fun row => negb true). apply (delete_rows (fun _ => true)). }
    destruct Hrows as [p ->]. rewrite Forall_forall in IH. apply Forall_forall.
    intros row [Hin _]%list_elem_of_In%filter_In. by apply IH, list_elem_of_In.
  - exact IH.
Qed.


(** X6. In every table a program can hold, each value of a stored row is
    [null], the default of a column of that name, or of the kind that
    column's type is stored as: a number for INTEGER and FLOAT, a boolean
    for BOOLEAN, a string for STRING and DATE.  A column of any other type
    holds nothing but [null] and its default. *)
Theorem stored_values_have_the_column_type (tb : Table.t) (row : RowData)
    (key : string) (v : Value) :
  reachable tb →
  In row (Table.rows tb) →
  row !! key = Some v →
  ∃ c, In c (Table.columns tb) ∧ Column.name c = key
       ∧ (v = Null ∨ v = Column.defaultValue c
          ∨ stored_typeof (Column.type c) = Some (typeof v)).
Proof.
  intros Htb Hrow Hv. apply reachable_well_formed in Htb.
  rewrite Forall_forall in Htb.
  destruct (Htb row (proj2 (list_elem_of_In _ _) Hrow)) as (_ & _ & Htyped).
  exact (Htyped key v Hv).
Qed.

End StoredRows.

(** *** Closed instances *)

Lemma users1_reachable : TableInv.reachable Scenario.users1.
Proof. apply TableInv.reach_insert, TableInv.reach_new. Qed.


Lemma stored_values_have_the_column_type_witness :
  TableInv.reachable Scenario.users1
  ∧ In (Scenario.user 1 "a") (Table.rows Scenario.users1)
  ∧ Scenario.user 1 "a" !! "id" = Some (Scenario.num 1)
  ∧ ∃ c, In c Scenario.users_columns ∧ Column.name c = "id"
         ∧ (Scenario.num 1 = Null ∨ Scenario.num 1 = Column.defaultValue c
            ∨ TableInv.stored_typeof (Column.type c) = Some "number").
Proof.
  assert (Hin : In (Scenario.user 1 "a") (Table.rows Scenario.users1))
    by (left; reflexivity).
  split; [exact users1_reachable|]. split; [exact Hin|]. split; [reflexivity|].
  exact (stored_values_have_the_column_type Scenario.users1 (Scenario.user 1 "a")
           "id" (Scenario.num 1) users1_reachable Hin eq_refl).
Defined.

(** ** The secondary indexes *)

Section MapObjects.

Lemma same_value_zero_sym (a b : Value) : same_value_zero a b = same_value_zero b a.
Proof.
  destruct a as [| |x|x|x|x], b as [| |y|y|y|y]; simpl; try reflexivity.
  - by destruct x, y.
  - apply num_eqb_sym.
  - apply String.eqb_sym.
  - apply same_object_sym.
Qed.

Lemma num_eqb_trans (a b c : Num) :
  num_eqb a b = true → num_eqb b c = true → num_eqb a c = true.
Proof.
  destruct a as [|s|m k], b as [|s'|m' k'], c as [|s''|m'' k'']; simpl; try done.
  - by destruct s, s', s''.
  - destruct (normalize m k), (normalize m' k'), (normalize m'' k'').
    rewrite !andb_true_iff, !Z.eqb_eq, !Nat.eqb_eq. intros [-> ->] [-> ->]. done.
Qed.

Lemma same_value_zero_trans (a b c : Value) :
  same_value_zero a b = true → same_value_zero b c = true →
  same_value_zero a c = true.
Proof.
  destruct a as [| |x|x|x|x], b as [| |y|y|y|y], c as [| |z|z|z|z]; simpl; try done.
  - by destruct x, y, z.
  - apply num_eqb_trans.
  - rewrite !String.eqb_eq. congruence.
  - rewrite !same_object_eq. congruence.
Qed.

Lemma strict_equals_same_value_zero (a b : Value) :
  strict_equals a b = true → same_value_zero a b = true.
Proof. by destruct a as [| |?|[]|?|?], b as [| |?|[]|?|?]. Qed.

(** Two keys that are the same value find the same entry. *)
Lemma same_value_zero_l (a b c : Value) :
  same_value_zero a b = true → same_value_zero a c = same_value_zero b c.
Proof.
  intros Hab. destruct (same_value_zero b c) eqn:Hbc.
  - by apply (same_value_zero_trans a b c).
  - destruct (same_value_zero a c) eqn:Hac; [|done].
    rewrite same_value_zero_sym in Hab.
    by rewrite (same_value_zero_trans b a c Hab Hac) in Hbc.
Qed.

Lemma same_value_zero_r (a b c : Value) :
  same_value_zero a b = true → same_value_zero c a = same_value_zero c b.
Proof.
  intros Hab. rewrite (same_value_zero_sym c a), (same_value_zero_sym c b).
  by apply same_value_zero_l.
Qed.

Context {V : Type}.
Implicit Types (m : list (Value * V)) (key k : Value) (v w : V).

Lemma Map_get_Some key m v :
  Map_get key m = Some v → ∃ k, In (k, v) m ∧ same_value_zero k key = true.
Proof.
  induction m as [|[k0 v0] m IH]; simpl; [done|].
  destruct (same_value_zero k0 key) eqn:Hk.
  - intros [= ->]. exists k0. auto.
  - intros (k & Hin & Hsv)%IH. exists k. auto.
Qed.

Lemma Map_get_None key m k v :
  Map_get key m = None → In (k, v) m → same_value_zero k key = false.
Proof.
  induction m as [|[k0 v0] m IH]; simpl; [done|].
  destruct (same_value_zero k0 key) eqn:Hk; [done|].
  intros Hnone [[= <- <-]|Hin]; auto.
Qed.

(** Looking up either of two keys that are the same value. *)
Lemma Map_get_same key key' m :
  same_value_zero key key' = true → Map_get key m = Map_get key' m.
Proof.
  intros Hsame. induction m as [|[k0 v0] m IH]; simpl; [done|].
  by rewrite (same_value_zero_r key key' k0 Hsame), IH.
Qed.

Lemma Map_get_distinct key m k v :
  TableInv.distinct_keys m → In (k, v) m → same_value_zero k key = true →
  Map_get key m = Some v.
Proof.
  induction m as [|[k0 v0] m IH]; simpl; [done|].
  intros [Hfresh Hdist] [[= -> ->]|Hin] Hsame.
  - by rewrite Hsame.
  - destruct (same_value_zero k0 key) eqn:Hk0; [|by apply IH].
    pose proof (Map_get_None k0 m k v Hfresh Hin) as Hne.
    rewrite (same_value_zero_r k0 key k) in Hne by done. congruence.
Qed.

Lemma Map_get_set key key' w m :
  Map_get key (Map_set key' w m)
  = if same_value_zero key' key then Some w else Map_get key m.
Proof.
  induction m as [|[k0 v0] m IH]; simpl.
  - by destruct (same_value_zero key' key).
  - destruct (same_value_zero k0 key') eqn:Hk0; simpl.
    + rewrite <- (same_value_zero_l k0 key' key Hk0). by destruct (same_value_zero k0 key).
    + destruct (same_value_zero k0 key) eqn:Hk; [|exact IH].
      destruct (same_value_zero key' key) eqn:Hkk; [|done].
      rewrite same_value_zero_sym in Hkk.
      by rewrite (same_value_zero_trans k0 key key' Hk Hkk) in Hk0.
Qed.

Lemma Map_set_In key w m k v :
  In (k, v) (Map_set key w m) →
  In (k, v) m
  ∨ (v = w ∧ same_value_zero k key = true
     ∧ match Map_get key m with Some v0 => In (k, v0) m | None => True end).
Proof.
  induction m as [|[k0 v0] m IH]; simpl.
  - intros [[= <- <-]|[]]. right. split; [done|]. split; [apply same_value_zero_refl|done].
  - destruct (same_value_zero k0 key) eqn:Hk0; simpl.
    + intros [[= <- <-]|Hin]; auto.
    + intros [[= <- <-]|Hin]; auto.
      destruct (IH Hin) as [?|(-> & Hk & Hget)]; auto.
      right. split; [done|]. split; [done|].
      destruct (Map_get key m); auto.
Qed.

Lemma Map_set_distinct key w m :
  TableInv.distinct_keys m → TableInv.distinct_keys (Map_set key w m).
Proof.
  induction m as [|[k0 v0] m IH]; simpl; [done|].
  intros [Hfresh Hdist]. destruct (same_value_zero k0 key) eqn:Hk0; simpl; [done|].
  split; [|by apply IH]. rewrite Map_get_set.
  by rewrite same_value_zero_sym, Hk0.
Qed.

Lemma Map_delete_In key m k v : In (k, v) (Map_delete key m) → In (k, v) m.
Proof.
  induction m as [|[k0 v0] m IH]; simpl; [done|].
  destruct (same_value_zero k0 key); simpl; [auto|]. intros [?|?]; auto.
Qed.

Lemma Map_get_delete_None key key' m :
  Map_get key m = None → Map_get key (Map_delete key' m) = None.
Proof.
  induction m as [|[k0 v0] m IH]; simpl; [done|].
  destruct (same_value_zero k0 key) eqn:Hk; [done|]. intros Hnone.
  destruct (same_value_zero k0 key'); simpl; [done|]. rewrite Hk. by apply IH.
Qed.

Lemma Map_delete_distinct key m :
  TableInv.distinct_keys m → TableInv.distinct_keys (Map_delete key m).
Proof.
  induction m as [|[k0 v0] m IH]; simpl; [done|].
  intros [Hfresh Hdist]. destruct (same_value_zero k0 key); simpl; [done|].
  split; [by apply Map_get_delete_None|by apply IH].
Qed.

(** After [delete] no entry is left under the key. *)
Lemma Map_delete_gone key m k v :
  TableInv.distinct_keys m → In (k, v) (Map_delete key m) →
  same_value_zero k key = false.
Proof.
  induction m as [|[k0 v0] m IH]; simpl; [done|].
  intros [Hfresh Hdist]. destruct (same_value_zero k0 key) eqn:Hk0; simpl.
  - intros Hin. pose proof (Map_get_None k0 m k v Hfresh Hin) as Hne.
    by rewrite (same_value_zero_r k0 key k Hk0) in Hne.
  - intros [[= <- <-]|Hin]; [done|]. by apply IH.
Qed.

(** With distinct keys, the entry under a key is the one [set] wrote. *)
Lemma Map_set_distinct_In key w m k v :
  TableInv.distinct_keys m → In (k, v) (Map_set key w m) →
  same_value_zero k key = true → v = w.
Proof.
  intros Hdist Hin Hsame.
  pose proof (Map_get_distinct key _ k v (Map_set_distinct key w m Hdist) Hin Hsame) as Hget.
  rewrite Map_get_set, same_value_zero_refl in Hget. congruence.
Qed.

End MapObjects.

Section IndexMaintenance.
#[local] Open Scope nat_scope.

Import TableInv.

Implicit Types (ix : gmap string Table.Index) (index : Table.Index)
  (cn : string) (k v : Value) (i j : nat).

(** [updateIndex] adds at most the position it is given, under the value
    it is given, to the map of the column it is given. *)
Lemma updateIndex_spec cn v i ix cn' index' :
  Table.updateIndex cn v i ix !! cn' = Some index' →
  ∃ index, ix !! cn' = Some index
    ∧ (distinct_keys index → distinct_keys index')
    ∧ (∀ k j, records index' k j →
         records index k j ∨ (cn' = cn ∧ j = i ∧ same_value_zero k v = true)).
Proof.
  unfold Table.updateIndex.
  destruct (ix !! cn) as [index|] eqn:Hcn; [|intros Hix; exists index'; auto].
  destruct (decide (cn = cn')) as [<-|Hne].
  2: { rewrite lookup_insert_ne by done. intros Hix. exists index'. auto. }
  rewrite lookup_insert_eq. intros [= <-]. exists index. split; [done|].
  set (index1 := if Map_has v index then index else Map_set v [] index).
  assert (Hdist1 : distinct_keys index → distinct_keys index1).
  { unfold index1. destruct (Map_has v index); [done|]. apply Map_set_distinct. }
  assert (Hrec1 : ∀ k j, records index1 k j → records index k j).
  { unfold index1. destruct (Map_has v index); [done|].
    intros k j (l & [Hin|(-> & _)]%Map_set_In & Hj); [|done]. by exists l. }
  split.
  - intros Hdist. destruct (existsb _ _); [auto|]. apply Map_set_distinct. auto.
  - intros k j Hrec. destruct (existsb _ _); [left; auto|].
    destruct Hrec as (l & [Hin|(-> & Hk & Hget)]%Map_set_In & Hj).
    + left. apply Hrec1. by exists l.
    + apply in_app_or in Hj as [Hj|[<-|[]]]; [|by right].
      left. apply Hrec1.
      destruct (Map_get v index1) as [indices|]; [|done]. by exists indices.
Qed.

Lemma updateIndex_dom cn v i ix cn' :
  is_Some (Table.updateIndex cn v i ix !! cn') ↔ is_Some (ix !! cn').
Proof.
  unfold Table.updateIndex. destruct (ix !! cn) as [index|] eqn:Hcn; [|done].
  destruct (decide (cn = cn')) as [<-|Hne].
  - rewrite lookup_insert_eq, Hcn. split; eauto.
  - by rewrite lookup_insert_ne.
Qed.

(** [removeFromIndex] adds nothing, and leaves the position it is given
    under no key that is the value it is given. *)
Lemma removeFromIndex_spec cn v i ix cn' index' :
  Table.removeFromIndex cn v i ix !! cn' = Some index' →
  ∃ index, ix !! cn' = Some index
    ∧ (distinct_keys index → distinct_keys index')
    ∧ (∀ k j, records index' k j → records index k j)
    ∧ (distinct_keys index → cn' = cn →
       ∀ k, same_value_zero k v = true → ¬ records index' k i).
Proof.
  unfold Table.removeFromIndex.
  destruct (ix !! cn) as [index|] eqn:Hcn.
  2: { intros Hix. exists index'. split; [done|]. split; [done|]. split; [done|].
       intros _ Heq. subst. congruence. }
  destruct (Map_get v index) as [indices|] eqn:Hget.
  2: { intros Hix. exists index'. split; [done|]. split; [done|]. split; [done|].
       intros _ -> k Hk (l & Hin & _).
       assert (index' = index) as -> by congruence.
       by rewrite (Map_get_None v index k l Hget Hin) in Hk. }
  destruct (decide (cn = cn')) as [<-|Hne].
  2: { rewrite lookup_insert_ne by done. intros Hix. exists index'.
       split; [done|]. split; [done|]. split; [done|]. intros _ Heq. by subst. }
  rewrite lookup_insert_eq. intros [= <-]. exists index. split; [done|].
  destruct (length (filter (λ i0, i0 ≠ i) indices) =? 0) eqn:Hlen.
  - split; [apply Map_delete_distinct|]. split.
    + intros k j (l & Hin%Map_delete_In & Hj). by exists l.
    + intros Hdist _ k Hk (l & Hin & _).
      by rewrite (Map_delete_gone v index k l Hdist Hin) in Hk.
  - split; [apply Map_set_distinct|]. split.
    + intros k j (l & [Hin|(-> & Hk & Hold)]%Map_set_In & Hj); [by exists l|].
      rewrite Hget in Hold. exists indices. split; [done|].
      by apply list_elem_of_In, list_elem_of_filter in Hj as [_ Hj%list_elem_of_In].
    + intros Hdist _ k Hk (l & Hin & Hi).
      rewrite (Map_set_distinct_In v _ index k l Hdist Hin Hk) in Hi.
      by apply list_elem_of_In, list_elem_of_filter in Hi as [Hi _].
Qed.

Lemma removeFromIndex_dom cn v i ix cn' :
  is_Some (Table.removeFromIndex cn v i ix !! cn') ↔ is_Some (ix !! cn').
Proof.
  unfold Table.removeFromIndex. destruct (ix !! cn) as [index|] eqn:Hcn; [|done].
  destruct (Map_get v index); [|done].
  destruct (decide (cn = cn')) as [<-|Hne].
  - rewrite lookup_insert_eq, Hcn. split; eauto.
  - by rewrite lookup_insert_ne.
Qed.

Lemma fold_removeFromIndex_spec (l : list (string * Value)) i ix cn index' :
  fold_left (λ ix nv, Table.removeFromIndex nv.1 nv.2 i ix) l ix !! cn = Some index' →
  ∃ index, ix !! cn = Some index
    ∧ (distinct_keys index → distinct_keys index')
    ∧ (∀ k j, records index' k j → records index k j)
    ∧ (distinct_keys index →
       ∀ v k, In (cn, v) l → same_value_zero k v = true → ¬ records index' k i).
Proof.
  revert ix. induction l as [|[n v] l IH]; intros ix; simpl.
  - intros Hix. exists index'. split; [done|]. split; [done|]. split; [done|].
    by intros _ v k [].
  - intros (index1 & Hix1 & Hd1 & Hr1 & Hg1)%IH.
    apply removeFromIndex_spec in Hix1 as (index & Hix & Hd & Hr & Hg).
    exists index. split; [done|]. split; [auto|]. split; [auto|].
    intros Hdist v' k [[= <- <-]|Hin] Hk Hrec.
    + by apply (Hg Hdist eq_refl k Hk), Hr1.
    + exact (Hg1 (Hd Hdist) v' k Hin Hk Hrec).
Qed.

Lemma fold_updateIndex_spec (l : list (string * Value)) i ix cn index' :
  fold_left (λ ix nv, Table.updateIndex nv.1 nv.2 i ix) l ix !! cn = Some index' →
  ∃ index, ix !! cn = Some index
    ∧ (distinct_keys index → distinct_keys index')
    ∧ (∀ k j, records index' k j →
         records index k j
         ∨ (j = i ∧ ∃ v, In (cn, v) l ∧ same_value_zero k v = true)).
Proof.
  revert ix. induction l as [|[n v] l IH]; intros ix; simpl.
  - intros Hix. exists index'. auto.
  - intros (index1 & Hix1 & Hd1 & Hr1)%IH.
    apply updateIndex_spec in Hix1 as (index & Hix & Hd & Hr).
    exists index. split; [done|]. split; [auto|].
    intros k j [Hrec|(-> & v' & Hin & Hk)]%Hr1.
    + destruct (Hr k j Hrec) as [?|(-> & -> & Hk)]; [by left|].
      right. split; [done|]. exists v. auto.
    + right. split; [done|]. exists v'. auto.
Qed.

Lemma fold_removeFromIndex_dom (l : list (string * Value)) i ix cn :
  is_Some (fold_left (λ ix nv, Table.removeFromIndex nv.1 nv.2 i ix) l ix !! cn)
  ↔ is_Some (ix !! cn).
Proof.
  revert ix. induction l as [|[n v] l IH]; intros ix; simpl; [done|].
  rewrite IH. apply removeFromIndex_dom.
Qed.

Lemma fold_updateIndex_dom (l : list (string * Value)) i ix cn :
  is_Some (fold_left (λ ix nv, Table.updateIndex nv.1 nv.2 i ix) l ix !! cn)
  ↔ is_Some (ix !! cn).
Proof.
  revert ix. induction l as [|[n v] l IH]; intros ix; simpl; [done|].
  rewrite IH. apply updateIndex_dom.
Qed.

(** The loops of [insert] and [delete] over the indexed columns. *)
Lemma indexRow_fold (row : RowData) i (cols : list Column.t) ix :
  Table.indexRow row i cols ix
  = fold_left (λ ix nv, Table.updateIndex nv.1 nv.2 i ix) (index_entries row cols) ix.
Proof.
  unfold Table.indexRow, index_entries. revert ix.
  induction cols as [|c cols IH]; intros ix; simpl; [done|].
  destruct (Column.indexed c); simpl; apply IH.
Qed.

Lemma unindexRow_fold (row : RowData) i (cols : list Column.t) ix :
  Table.unindexRow row i cols ix
  = fold_left (λ ix nv, Table.removeFromIndex nv.1 nv.2 i ix) (index_entries row cols) ix.
Proof.
  unfold Table.unindexRow, index_entries. revert ix.
  induction cols as [|c cols IH]; intros ix; simpl; [done|].
  destruct (Column.indexed c); simpl; apply IH.
Qed.

Lemma In_index_entries (row : RowData) (cols : list Column.t) cn v :
  In (cn, v) (index_entries row cols)
  ↔ v = get row cn ∧ existsb (Table.indexedAs cn) cols = true.
Proof.
  unfold index_entries. rewrite in_map_iff, existsb_exists. split.
  - intros (c & [= <- <-] & [Hc Hix]%filter_In). split; [done|].
    exists c. split; [done|]. unfold Table.indexedAs. by rewrite Hix, String.eqb_refl.
  - intros (-> & c & Hc & [Hix Hname%String.eqb_eq]%andb_true_iff).
    exists c. subst cn. split; [done|]. by apply filter_In.
Qed.

(** The two loops of [update] over the changed columns. *)
Lemma changed_old_fold (changed : list (string * Value * Value)) i ix :
  fold_left (fun ix '(name, oldValue, _) => Table.removeFromIndex name oldValue i ix)
    changed ix
  = fold_left (λ ix nv, Table.removeFromIndex nv.1 nv.2 i ix)
      (map (λ change, (change.1.1, change.1.2)) changed) ix.
Proof.
  revert ix. induction changed as [|[[n o] w] changed IH]; intros ix; simpl; [done|].
  apply IH.
Qed.

Lemma changed_new_fold (changed : list (string * Value * Value)) i ix :
  fold_left (fun ix '(name, _, newValue) => Table.updateIndex name newValue i ix)
    changed ix
  = fold_left (λ ix nv, Table.updateIndex nv.1 nv.2 i ix)
      (map (λ change, (change.1.1, change.2)) changed) ix.
Proof.
  revert ix. induction changed as [|[[n o] w] changed IH]; intros ix; simpl; [done|].
  apply IH.
Qed.

Lemma In_changedIndexedColumns (row updatedRow : RowData) (cols : list Column.t)
    cn o w :
  In (cn, o, w) (Table.changedIndexedColumns row updatedRow cols)
  ↔ o = get row cn ∧ w = get updatedRow cn
    ∧ existsb (Table.indexedAs cn) cols = true
    ∧ strict_equals (get row cn) (get updatedRow cn) = false.
Proof.
  unfold Table.changedIndexedColumns. rewrite in_flat_map, existsb_exists. split.
  - intros (c & Hc & Hin).
    destruct (Column.indexed c) eqn:Hix; simpl in Hin; [|done].
    destruct (strict_equals _ _) eqn:Hse; simpl in Hin; [done|].
    destruct Hin as [[= <- <- <-]|[]]. repeat split; [|done].
    exists c. split; [done|]. unfold Table.indexedAs. by rewrite Hix, String.eqb_refl.
  - intros (-> & -> & (c & Hc & [Hix Hname%String.eqb_eq]%andb_true_iff) & Hse).
    exists c. subst cn. split; [done|]. rewrite Hix, Hse. by left.
Qed.

(** [renumber]: what is left of an entry once the row at [idx] is gone. *)
Lemma renumber_In (idx : nat) (l : list nat) j :
  In j (Table.renumber idx l)
  ↔ j ≠ idx ∧ ∃ j0, In j0 l ∧ j = if idx <? j0 then j0 - 1 else j0.
Proof.
  unfold Table.renumber.
  rewrite <- list_elem_of_In, list_elem_of_filter, list_elem_of_In, in_map_iff.
  split; intros [Hne (j0 & Hj0 & Hin)]; (split; [done|]); exists j0; auto.
Qed.

Lemma Map_get_renumber (idx : nat) index k :
  Map_get k (map (fun '(value, indices) => (value, Table.renumber idx indices)) index)
  = Table.renumber idx <$> Map_get k index.
Proof.
  induction index as [|[k0 l0] index IH]; simpl; [done|].
  by destruct (same_value_zero k0 k).
Qed.

Lemma distinct_keys_renumber (idx : nat) index :
  distinct_keys index →
  distinct_keys (map (fun '(value, indices) => (value, Table.renumber idx indices)) index).
Proof.
  induction index as [|[k0 l0] index IH]; simpl; [done|].
  intros [Hfresh Hdist]. split; [|auto]. by rewrite Map_get_renumber, Hfresh.
Qed.

Lemma records_renumber (idx : nat) index k j :
  records (map (fun '(value, indices) => (value, Table.renumber idx indices)) index) k j →
  ∃ j0, records index k j0 ∧ j ≠ idx ∧ j = if idx <? j0 then j0 - 1 else j0.
Proof.
  intros (l & ([k0 l0] & [= <- <-] & Hin)%in_map_iff & Hj).
  apply renumber_In in Hj as (Hne & j0 & Hj0 & ->).
  exists j0. split; [by exists l0|done].
Qed.

(** With no two indexed columns of one name, the second loop of [delete]
    renumbers the map of every indexed column once. *)
Lemma renumberIndexes_lookup (idx : nat) (cols : list Column.t) ix cn :
  unique_index_names cols →
  Table.renumberIndexes idx cols ix !! cn
  = if existsb (Table.indexedAs cn) cols
    then map (fun '(value, indices) => (value, Table.renumber idx indices)) <$> ix !! cn
    else ix !! cn.
Proof.
  unfold Table.renumberIndexes, unique_index_names. revert ix.
  induction cols as [|c cols IH]; intros ix; simpl; [done|].
  unfold Table.indexedAs at 1. destruct (Column.indexed c) eqn:Hix; simpl.
  2: { intros Hnodup. by apply IH. }
  intros [Hfresh Hnodup]%NoDup_cons. rewrite IH by done.
  destruct (String.eqb_spec (Column.name c) cn) as [<-|Hne].
  - assert (Hnone : existsb (Table.indexedAs (Column.name c)) cols = false).
    { apply not_true_iff_false. intros (c' & Hc' & [Hix' Hname%String.eqb_eq]%andb_true_iff)%existsb_exists.
      apply Hfresh. rewrite <- Hname. apply list_elem_of_In, in_map, filter_In. auto. }
    rewrite Hnone. destruct (ix !! Column.name c) as [indexMap|] eqn:Hmap.
    + by rewrite lookup_insert_eq.
    + by rewrite Hmap.
  - destruct (ix !! Column.name c) as [indexMap|] eqn:Hmap; [|done].
    by rewrite lookup_insert_ne.
Qed.

Lemma renumberIndexes_dom (idx : nat) (cols : list Column.t) ix cn :
  is_Some (Table.renumberIndexes idx cols ix !! cn) ↔ is_Some (ix !! cn).
Proof.
  unfold Table.renumberIndexes. revert ix.
  induction cols as [|c cols IH]; intros ix; simpl; [done|].
  rewrite IH. destruct (Column.indexed c); [|done].
  destruct (ix !! Column.name c) as [indexMap|] eqn:Hmap; [|done].
  destruct (decide (Column.name c = cn)) as [<-|Hne].
  - rewrite lookup_insert_eq, Hmap. split; eauto.
  - by rewrite lookup_insert_ne.
Qed.

End IndexMaintenance.

Section IndexInvariant.
Context `{DateEngine}.
#[local] Open Scope nat_scope.

Import TableInv.

Lemma new_indexes_ok (name : string) (cols : list Column.t)
    (primaryKeyColumn : option string) (onChange : bool) :
  unique_index_names cols →
  indexes_ok (Table.new name cols primaryKeyColumn onChange).
Proof.
  intros Hnames. split; [done| | |].
  - intros cn. simpl. rewrite createIndexes_lookup.
    destruct (existsb _ _); [split; eauto|]. split; [by intros [? ?]|done].
  - intros cn index. simpl. rewrite createIndexes_lookup.
    destruct (existsb _ _); [|done]. by intros [= <-].
  - intros cn index k j. simpl. rewrite createIndexes_lookup.
    destruct (existsb _ _); [|done]. by intros [= <-] (l & [] & _).
Qed.

Lemma insert_indexes_ok (data : RowData) (tb : Table.t) :
  indexes_ok tb → indexes_ok (Table.after (Table.insert data tb)).
Proof.
  intros [Hnames Hdom Hdist Hsound]. unfold Table.insert.
  destruct (negb (Table.validateRow data tb).1); [done|].
  destruct (Table.buildRow data (Table.columns tb)) as [row|e]; [|done].
  simpl. split; simpl; [done| | |].
  - intros cn. simpl. rewrite indexRow_fold, fold_updateIndex_dom. apply Hdom.
  - intros cn index'. rewrite indexRow_fold.
    intros (index & Hix & Hd & _)%fold_updateIndex_spec. eauto.
  - intros cn index' k j. simpl. rewrite indexRow_fold.
    intros (index & Hix & _ & Hr)%fold_updateIndex_spec [Hrec|(-> & v & Hin & Hk)]%Hr.
    + destruct (Hsound cn index k j Hix Hrec) as (row0 & Hrow0 & Hval).
      exists row0. split; [|done]. by apply lookup_app_l_Some.
    + exists row. split; [by apply list_lookup_middle|].
      apply In_index_entries in Hin as [-> _]. by rewrite same_value_zero_sym.
Qed.

Lemma deleteAt_indexes_ok (tb : Table.t) (idx : nat) :
  indexes_ok tb → indexes_ok (Table.deleteAt tb idx).
Proof.
  intros [Hnames Hdom Hdist Hsound]. unfold Table.deleteAt. simpl.
  assert (Hlookup : ∀ cn index',
    Table.renumberIndexes idx (Table.columns tb)
      (Table.unindexRow (Table.row_at tb idx) idx (Table.columns tb) (Table.indexes tb))
      !! cn = Some index' →
    ∃ index1 index,
      index' = map (fun '(value, indices) => (value, Table.renumber idx indices)) index1
      ∧ Table.indexes tb !! cn = Some index
      ∧ distinct_keys index1
      ∧ (∀ k j, records index1 k j → records index k j)
      ∧ (∀ k, same_value_zero k (get (Table.row_at tb idx) cn) = true →
              ¬ records index1 k idx)).
  { intros cn index' Hindex'.
    assert (Hcn : existsb (Table.indexedAs cn) (Table.columns tb) = true).
    { apply Hdom. rewrite <- (fold_removeFromIndex_dom
        (index_entries (Table.row_at tb idx) (Table.columns tb)) idx), <- unindexRow_fold.
      rewrite <- (renumberIndexes_dom idx (Table.columns tb)). eauto. }
    rewrite (renumberIndexes_lookup _ _ _ _ Hnames), Hcn in Hindex'.
    destruct (Table.unindexRow _ _ _ _ !! cn) as [index1|] eqn:Hindex1; [|done].
    injection Hindex' as <-. rewrite unindexRow_fold in Hindex1.
    apply fold_removeFromIndex_spec in Hindex1 as (index & Hix & Hd & Hr & Hg).
    exists index1, index. split; [done|]. split; [done|].
    split; [by apply Hd, (Hdist cn)|]. split; [done|].
    intros k Hk. apply (Hg (Hdist cn index Hix) (get (Table.row_at tb idx) cn)); [|done].
    by apply In_index_entries. }
  split; simpl; [done| | |].
  - intros cn. simpl. rewrite renumberIndexes_dom, unindexRow_fold, fold_removeFromIndex_dom.
    apply Hdom.
  - intros cn index' (index1 & index & -> & _ & Hd1 & _)%Hlookup.
    by apply distinct_keys_renumber.
  - intros cn index' k j (index1 & index & -> & Hix & _ & Hr & Hg)%Hlookup
      (j0 & Hrec & Hne & ->)%records_renumber.
    destruct (Hsound cn index k j0 Hix (Hr k j0 Hrec)) as (row & Hrow & Hval).
    assert (Hj0 : j0 ≠ idx).
    { intros ->. apply (Hg k); [|done]. unfold Table.row_at. rewrite Hrow. simpl.
      by rewrite same_value_zero_sym. }
    exists row. split; [|done]. cbn [Table.rows Table.with_indexes Table.with_rows].
    destruct (Nat.ltb_spec idx j0).
    + rewrite list_lookup_delete_ge by lia. by replace (S (j0 - 1)) with j0 by lia.
    + rewrite list_lookup_delete_lt by lia. done.
Qed.

Lemma delete_indexes_ok (where_ : option (RowData → bool)) (tb : Table.t) :
  indexes_ok tb → indexes_ok (Table.after (Table.delete where_ tb)).
Proof.
  unfold Table.delete. simpl.
  generalize (Table.sort_desc (Table.indicesToDelete where_ tb)). intros l. revert tb.
  induction l as [|idx l IH]; intros tb Hok; simpl; [done|].
  by apply IH, deleteAt_indexes_ok.
Qed.

(** One pass of the loop of [update] over a row that passed validation. *)
Lemma update_row_indexes_ok (tb : Table.t) (index : nat) (row updatedRow : RowData) :
  indexes_ok tb →
  Table.rows tb !! index = Some row →
  let changed := Table.changedIndexedColumns row updatedRow (Table.columns tb) in
  indexes_ok
    (Table.with_indexes
       (fold_left (fun ix '(name, _, newValue) => Table.updateIndex name newValue index ix)
          changed
          (fold_left
             (fun ix '(name, oldValue, _) => Table.removeFromIndex name oldValue index ix)
             changed (Table.indexes tb)))
       (Table.with_rows (<[index := updatedRow]> (Table.rows tb)) tb)).
Proof.
  intros [Hnames Hdom Hdist Hsound] Hrow changed.
  rewrite changed_old_fold, changed_new_fold.
  split; simpl; [done| | |].
  - intros cn. simpl. rewrite fold_updateIndex_dom, fold_removeFromIndex_dom. apply Hdom.
  - intros cn index2 (index1 & (index0 & Hix & Hd0 & _)%fold_removeFromIndex_spec & Hd1 & _)
      %fold_updateIndex_spec. apply Hd1, Hd0, (Hdist cn), Hix.
  - intros cn index2 k j
      (index1 & (index0 & Hix & Hd0 & Hr0 & Hg0)%fold_removeFromIndex_spec & _ & Hr1)
      %fold_updateIndex_spec [Hrec|(-> & v & Hin & Hk)]%Hr1;
      cbn [Table.rows Table.with_indexes Table.with_rows].
    + destruct (Hsound cn index0 k j Hix (Hr0 k j Hrec)) as (row0 & Hrow0 & Hval).
      destruct (decide (j = index)) as [->|Hne].
      2: { exists row0. split; [|done]. by rewrite list_lookup_insert_ne. }
      assert (row0 = row) as -> by congruence.
      exists updatedRow. split.
      { apply list_lookup_insert_eq. by apply lookup_lt_Some in Hrow. }
      destruct (strict_equals (get row cn) (get updatedRow cn)) eqn:Hse.
      * apply strict_equals_same_value_zero in Hse.
        rewrite same_value_zero_sym in Hse.
        by apply (same_value_zero_trans _ (get row cn)).
      * exfalso. apply (Hg0 (Hdist cn index0 Hix) (get row cn) k); [|by rewrite same_value_zero_sym|done].
        apply in_map_iff. exists (cn, get row cn, get updatedRow cn). split; [done|].
        apply In_changedIndexedColumns. repeat split; [|done].
        apply Hdom. eauto.
    + exists updatedRow. split.
      { apply list_lookup_insert_eq. by apply lookup_lt_Some in Hrow. }
      apply in_map_iff in Hin as ([[n o] w] & [= -> ->] & Hin).
      apply In_changedIndexedColumns in Hin as (_ & -> & _). by rewrite same_value_zero_sym.
Qed.

Lemma updateLoop_indexes_ok (updates : RowData) (candidates : list (nat * RowData))
    (tb : Table.t) (affected : nat) (errors : list string) :
  indexes_ok tb →
  NoDup (map fst candidates) →
  (∀ i row, In (i, row) candidates → Table.rows tb !! i = Some row) →
  indexes_ok (Table.updateLoop updates candidates tb affected errors).1.
Proof.
  revert tb affected errors.
  induction candidates as [|[index row] rest IH];
    intros tb affected errors Hok Hnodup Hcands; simpl; [done|].
  apply NoDup_cons in Hnodup as [Hfresh Hnodup]. simpl in Hfresh.
  destruct (Table.applyUpdates updates row (Table.columns tb)) as [updatedRow|e];
    simpl; [|done].
  match goal with
  | |- context [if negb ?c then _ else _] => destruct c
  end; simpl.
  - apply IH; [|done|].
    + apply (update_row_indexes_ok tb index row updatedRow Hok). apply Hcands. by left.
    + intros i row' Hin. simpl. rewrite list_lookup_insert_ne.
      * apply Hcands. by right.
      * intros <-. apply Hfresh, list_elem_of_In, in_map_iff. by exists (index, row').
  - apply IH; [done|done|]. intros i row' Hin. apply Hcands. by right.
Qed.

Lemma rowsToUpdate_NoDup (where_ : option (RowData → bool)) (tb : Table.t) :
  NoDup (map fst (Table.rowsToUpdate where_ tb)).
Proof.
  unfold Table.rowsToUpdate. generalize (Table.rows tb). intros rows.
  assert (Hgen : ∀ n,
    let l := List.filter
               (fun '(_, row) => match where_ with None => true | Some p => p row end)
               (imap (fun i row => (n + i, row)) rows) in
    NoDup (map fst l) ∧ ∀ i, In i (map fst l) → n ≤ i).
  { induction rows as [|r rows IH]; intros n; simpl.
    - split; [constructor|]. by intros i [].
    - destruct (IH (S n)) as [Hnodup Hge]. simpl in Hnodup, Hge.
      assert (Heq : imap ((λ i row, (n + i, row)) ∘ S) rows
                    = imap (λ i row, (S n + i, row)) rows).
      { apply imap_ext. intros i x _. simpl. f_equal. lia. }
      rewrite Heq.
      destruct (match where_ with None => true | Some p => p r end); simpl.
      + split.
        * apply NoDup_cons. split; [|done].
          intros Hin%list_elem_of_In%Hge. lia.
        * intros i [<-|Hin%Hge]; lia.
      + split; [done|]. intros i Hin%Hge. lia. }
  exact (proj1 (Hgen 0)).
Qed.

Lemma update_indexes_ok (updates : RowData) (where_ : option (RowData → bool))
    (tb : Table.t) :
  indexes_ok tb → indexes_ok (Table.after (Table.update updates where_ tb)).
Proof.
  intros Hok.
  pose proof (updateLoop_indexes_ok updates (Table.rowsToUpdate where_ tb) tb 0 [] Hok
                (rowsToUpdate_NoDup where_ tb) (rowsToUpdate_lookup where_ tb)) as Hloop.
  unfold Table.update.
  by destruct (Table.updateLoop updates (Table.rowsToUpdate where_ tb) tb 0 [])
    as [tb' [[affected errs]|e]].
Qed.

Lemma update_columns (updates : RowData) (where_ : option (RowData → bool))
    (tb : Table.t) :
  Table.columns (Table.after (Table.update updates where_ tb)) = Table.columns tb.
Proof.
  pose proof (updateLoop_frame updates (Table.rowsToUpdate where_ tb) tb 0 [])
    as (_ & Hcols & _).
  unfold Table.update.
  by destruct (Table.updateLoop updates (Table.rowsToUpdate where_ tb) tb 0 [])
    as [tb' [[affected errs]|e]].
Qed.

(** The indexes of every table a program can hold are sound, provided no
    two indexed columns share a name. *)
Lemma reachable_indexes_ok (tb : Table.t) :
  reachable tb → unique_index_names (Table.columns tb) → indexes_ok tb.
Proof.
  induction 1 as [name cols pk cb|data tb _ IH|updates where_ tb _ IH|where_ tb _ IH
                  |cb tb _ IH].
  - apply new_indexes_ok.
  - rewrite insert_columns. intros Hnames. by apply insert_indexes_ok, IH.
  - rewrite update_columns. intros Hnames. by apply update_indexes_ok, IH.
  - rewrite delete_columns. intros Hnames. by apply delete_indexes_ok, IH.
  - intros Hnames. by destruct (IH Hnames).
Qed.

(** X7. In every table a program can hold whose indexed columns have
    distinct names, the secondary indexes point at what is stored:
    whatever [findByIndex] returns for a column and a value is a row of
    the table, and the row holds that value (up to SameValueZero) in that
    column.  No operation leaves an index entry behind for a row that was
    removed, moved or changed. *)
Theorem findByIndex_returns_stored_rows_with_the_value (tb : Table.t)
    (columnName : string) (value : Value) (row : RowData) :
  reachable tb →
  unique_index_names (Table.columns tb) →
  In row (Table.findByIndex columnName value tb) →
  In row (Table.rows tb) ∧ same_value_zero (get row columnName) value = true.
Proof.
  intros Hreach Hnames. destruct (reachable_indexes_ok tb Hreach Hnames) as [_ _ Hdist Hsound].
  unfold Table.findByIndex.
  destruct (Table.indexes tb !! columnName) as [index|] eqn:Hix; [|done].
  destruct (Map_get value index) as [indices|] eqn:Hget; [|done].
  intros (i & <- & Hi)%in_map_iff.
  apply Map_get_Some in Hget as (k & Hin & Hk).
  destruct (Hsound columnName index k i Hix) as (row & Hrow & Hval); [by exists indices|].
  unfold Table.row_at. rewrite Hrow. simpl. split.
  - by apply list_elem_of_In, (list_elem_of_lookup_2 _ i).
  - by apply (same_value_zero_trans _ k).
Qed.

End IndexInvariant.

Section InsertLookup.
Context `{DateEngine}.
#[local] Open Scope nat_scope.

Import TableInv.

(** [updateIndex] records the position under the value, and keeps what was
    recorded. *)
Lemma updateIndex_records (cn : string) (v : Value) (i : nat)
    (ix : gmap string Table.Index) :
  is_Some (ix !! cn) →
  ∃ index' l, Table.updateIndex cn v i ix !! cn = Some index'
              ∧ Map_get v index' = Some l ∧ In i l.
Proof.
  intros [index Hix]. unfold Table.updateIndex. rewrite Hix, lookup_insert_eq.
  set (index1 := if Map_has v index then index else Map_set v [] index).
  assert (Hget1 : is_Some (Map_get v index1)).
  { unfold index1, Map_has. destruct (Map_get v index) eqn:Hget; [by rewrite Hget|].
    rewrite Map_get_set_eq. eauto. }
  destruct Hget1 as [indices Hget1]. rewrite Hget1. simpl.
  destruct (existsb (Nat.eqb i) indices) eqn:Hex.
  - exists index1, indices. split; [done|]. split; [done|].
    apply existsb_exists in Hex as (j & Hj & ->%Nat.eqb_eq). done.
  - eexists _, _. split; [done|]. split; [apply Map_get_set_eq|].
    apply in_or_app. right. by left.
Qed.

Lemma updateIndex_keeps (cn cn' : string) (v v' : Value) (i i' : nat)
    (ix : gmap string Table.Index) (index : Table.Index) (l : list nat) :
  ix !! cn' = Some index → Map_get v' index = Some l → In i' l →
  ∃ index' l', Table.updateIndex cn v i ix !! cn' = Some index'
               ∧ Map_get v' index' = Some l' ∧ In i' l'.
Proof.
  intros Hix Hget Hin. unfold Table.updateIndex.
  destruct (ix !! cn) as [index0|] eqn:Hcn; [|by exists index, l].
  destruct (decide (cn = cn')) as [<-|Hne].
  2: { rewrite lookup_insert_ne by done. by exists index, l. }
  assert (index0 = index) as -> by congruence. rewrite lookup_insert_eq.
  set (index1 := if Map_has v index then index else Map_set v [] index).
  assert (Hget1 : Map_get v' index1 = Some l).
  { unfold index1, Map_has. destruct (Map_get v index) eqn:Hv; [done|].
    rewrite Map_get_set. destruct (same_value_zero v v') eqn:Hsame; [|done].
    rewrite (Map_get_same v v' index Hsame) in Hv. congruence. }
  destruct (existsb (Nat.eqb i) (default [] (Map_get v index1))).
  - by exists index1, l.
  - destruct (same_value_zero v v') eqn:Hsame.
    + exists (Map_set v (default [] (Map_get v index1) ++ [i]) index1),
        (default [] (Map_get v index1) ++ [i]).
      split; [done|]. rewrite Map_get_set, Hsame. split; [done|].
      rewrite (Map_get_same v v' index1 Hsame), Hget1. simpl.
      apply in_or_app. by left.
    + exists (Map_set v (default [] (Map_get v index1) ++ [i]) index1), l.
      split; [done|]. by rewrite Map_get_set, Hsame.
Qed.

Lemma fold_updateIndex_keeps (entries : list (string * Value)) (i i' : nat)
    (cn' : string) (v' : Value) (ix : gmap string Table.Index)
    (index : Table.Index) (l : list nat) :
  ix !! cn' = Some index → Map_get v' index = Some l → In i' l →
  ∃ index' l',
    fold_left (λ ix nv, Table.updateIndex nv.1 nv.2 i ix) entries ix !! cn' = Some index'
    ∧ Map_get v' index' = Some l' ∧ In i' l'.
Proof.
  revert ix index l. induction entries as [|[n v] entries IH]; intros ix index l Hix Hget Hin;
    simpl; [by exists index, l|].
  destruct (updateIndex_keeps n cn' v v' i i' ix index l Hix Hget Hin)
    as (index1 & l1 & Hix1 & Hget1 & Hin1).
  by apply (IH _ index1 l1).
Qed.

Lemma fold_updateIndex_records (entries : list (string * Value)) (i : nat)
    (cn : string) (v : Value) (ix : gmap string Table.Index) :
  In (cn, v) entries → is_Some (ix !! cn) →
  ∃ index' l,
    fold_left (λ ix nv, Table.updateIndex nv.1 nv.2 i ix) entries ix !! cn = Some index'
    ∧ Map_get v index' = Some l ∧ In i l.
Proof.
  revert ix. induction entries as [|[n w] entries IH]; intros ix; simpl; [done|].
  intros [[= -> ->]|Hin] Hsome.
  - destruct (updateIndex_records cn v i ix Hsome) as (index1 & l1 & Hix1 & Hget1 & Hin1).
    by apply (fold_updateIndex_keeps entries i i cn v _ index1 l1).
  - apply IH; [done|]. by apply updateIndex_dom.
Qed.

Lemma insert_indexed_dom (data : RowData) (tb : Table.t) :
  indexed_dom tb → indexed_dom (Table.after (Table.insert data tb)).
Proof.
  intros Hdom cn. rewrite insert_columns, <- (Hdom cn). unfold Table.insert.
  destruct (negb (Table.validateRow data tb).1); [done|].
  destruct (Table.buildRow data (Table.columns tb)) as [row|e]; [|done].
  simpl. by rewrite indexRow_fold, fold_updateIndex_dom.
Qed.

Lemma delete_indexed_dom (where_ : option (RowData → bool)) (tb : Table.t) :
  indexed_dom tb → indexed_dom (Table.after (Table.delete where_ tb)).
Proof.
  intros Hdom cn. rewrite delete_columns, <- (Hdom cn). unfold Table.delete. simpl.
  generalize (Table.sort_desc (Table.indicesToDelete where_ tb)). intros l. clear Hdom.
  revert tb. induction l as [|idx l IH]; intros tb; simpl; [done|].
  rewrite IH. unfold Table.deleteAt. simpl.
  by rewrite renumberIndexes_dom, unindexRow_fold, fold_removeFromIndex_dom.
Qed.

Lemma updateLoop_indexes_dom (updates : RowData) (candidates : list (nat * RowData))
    (tb : Table.t) (affected : nat) (errors : list string) (cn : string) :
  is_Some (Table.indexes (Table.updateLoop updates candidates tb affected errors).1 !! cn)
  ↔ is_Some (Table.indexes tb !! cn).
Proof.
  revert tb affected errors.
  induction candidates as [|[index row] rest IH]; intros tb affected errors; simpl; [done|].
  destruct (Table.applyUpdates updates row (Table.columns tb)) as [updatedRow|e];
    simpl; [|done].
  match goal with
  | |- context [if negb ?c then _ else _] => destruct c
  end; simpl; rewrite IH; [|done].
  simpl. by rewrite changed_new_fold, fold_updateIndex_dom, changed_old_fold,
    fold_removeFromIndex_dom.
Qed.

Lemma update_indexed_dom (updates : RowData) (where_ : option (RowData → bool))
    (tb : Table.t) :
  indexed_dom tb → indexed_dom (Table.after (Table.update updates where_ tb)).
Proof.
  intros Hdom cn. rewrite update_columns, <- (Hdom cn).
  pose proof (updateLoop_indexes_dom updates (Table.rowsToUpdate where_ tb) tb 0 [] cn)
    as Hloop.
  unfold Table.update.
  by destruct (Table.updateLoop updates (Table.rowsToUpdate where_ tb) tb 0 [])
    as [tb' [[affected errs]|e]].
Qed.

(** Every indexed column of a table a program can hold has its index map,
    and there is no other map. *)
Lemma reachable_indexed_dom (tb : Table.t) : reachable tb → indexed_dom tb.
Proof.
  induction 1 as [name cols pk cb|data tb _ IH|updates where_ tb _ IH|where_ tb _ IH
                  |cb tb _ IH].
  - intros cn. simpl. rewrite createIndexes_lookup.
    destruct (existsb _ _); [split; eauto|]. split; [by intros [? ?]|done].
  - by apply insert_indexed_dom.
  - by apply update_indexed_dom.
  - by apply delete_indexed_dom.
  - exact IH.
Qed.

(** X8. A row that [insert] stored is found again through every index:
    for each primary-key or unique column, [findByIndex] with the value
    the stored row holds in that column returns that row, in any table a
    program can hold. *)
Theorem findByIndex_finds_the_inserted_row (tb : Table.t) (data : RowData)
    (res : Table.Result) (row : RowData) (c : Column.t) :
  reachable tb →
  Table.completion (Table.insert data tb) = Returns res →
  Table.row res = Some row →
  In c (Table.columns tb) →
  Column.indexed c = true →
  In row (Table.findByIndex (Column.name c) (get row (Column.name c))
            (Table.after (Table.insert data tb))).
Proof.
  intros Hdom%reachable_indexed_dom. unfold Table.insert.
  destruct (negb (Table.validateRow data tb).1); simpl.
  { by intros [= <-]. }
  destruct (Table.buildRow data (Table.columns tb)) as [stored|e]; simpl; [|done].
  intros [= <-] [= ->] Hc Hix. unfold Table.findByIndex. simpl.
  assert (Hcn : existsb (Table.indexedAs (Column.name c)) (Table.columns tb) = true).
  { apply existsb_exists. exists c. split; [done|].
    unfold Table.indexedAs. by rewrite Hix, String.eqb_refl. }
  destruct (fold_updateIndex_records (index_entries row (Table.columns tb))
              (length (Table.rows tb)) (Column.name c) (get row (Column.name c))
              (Table.indexes tb)) as (index' & l & Hindex' & Hget & Hin).
  { by apply In_index_entries. }
  { by apply Hdom. }
  rewrite indexRow_fold, Hindex', Hget. apply in_map_iff.
  exists (length (Table.rows tb)). split; [|done].
  unfold Table.row_at. simpl. by rewrite list_lookup_middle.
Qed.

End InsertLookup.

(** *** Closed instances *)

Lemma findByIndex_returns_stored_rows_with_the_value_witness :
  TableInv.reachable Scenario.users1
  ∧ TableInv.unique_index_names (Table.columns Scenario.users1)
  ∧ In (Scenario.user 1 "a") (Table.findByIndex "id" (Scenario.num 1) Scenario.users1)
  ∧ In (Scenario.user 1 "a") (Table.rows Scenario.users1)
  ∧ same_value_zero (get (Scenario.user 1 "a") "id") (Scenario.num 1) = true.
Proof.
  assert (Hnames : TableInv.unique_index_names (Table.columns Scenario.users1))
    by apply (NoDup_singleton "id").
  assert (Hin : In (Scenario.user 1 "a")
                  (Table.findByIndex "id" (Scenario.num 1) Scenario.users1))
    by (vm_compute; left; reflexivity).
  split; [exact users1_reachable|]. split; [exact Hnames|]. split; [exact Hin|].
  exact (findByIndex_returns_stored_rows_with_the_value Scenario.users1 "id"
           (Scenario.num 1) (Scenario.user 1 "a") users1_reachable Hnames Hin).
Defined.

Lemma findByIndex_finds_the_inserted_row_witness :
  TableInv.reachable Scenario.users
  ∧ Table.completion (Table.insert (Scenario.user 1 "a") Scenario.users)
    = Returns (Table.mkResult true (Some (Scenario.user 1 "a")) None None)
  ∧ In (Scenario.user 1 "a")
      (Table.findByIndex "id" (Scenario.num 1) Scenario.users1).
Proof.
  split; [apply TableInv.reach_new|]. split; [reflexivity|].
  exact (findByIndex_finds_the_inserted_row Scenario.users (Scenario.user 1 "a")
           (Table.mkResult true (Some (Scenario.user 1 "a")) None None)
           (Scenario.user 1 "a")
           (Column.new "id" "INTEGER" (Some false) (Some true) None Undefined)
           (TableInv.reach_new "users" Scenario.users_columns None true)
           eq_refl eq_refl (or_introl eq_refl) eq_refl).
Defined.

(** ** The persistence queue drains *)

Section QueueDrains.
Context {A : Type}.
Import FileQueue QueueProgress.
#[local] Open Scope nat_scope.
#[local] Arguments Nat.mul : simpl never.
#[local] Arguments Nat.sub : simpl never.

Implicit Types (q : FileQueue.t A) (item : Item A) (task : Task A).

Lemma settle_step q q' : settle q q' → step q q'.
Proof. destruct 1; econstructor; eauto. Qed.

Lemma settles_steps n q q' : settles n q q' → steps q q'.
Proof.
  induction 1 as [q|n q1 q2 q3 Hs _ IH]; [constructor|].
  assert (Hfirst : steps q1 q2) by (eapply steps_step; [constructor|by apply settle_step]).
  clear Hs. induction IH as [|q2 q3 q4 _ IH' Hstep]; [done|].
  eapply steps_step; [by apply IH'|done].
Qed.

Lemma work_single q task :
  tasks q = [task] → work q = (2 * MAX_RETRIES + 3) * length (queue q) + task_work q task.
Proof. unfold work. intros ->. simpl. lia. Qed.

(** The retry count of the item in flight, as the invariant knows it. *)
Lemma in_flight_count q item c started :
  in_flight q item c started → retryCountOf (filePath item) q = c.
Proof. intros (Hcounter & _). unfold retryCountOf. rewrite Hcounter. apply lookup_counter. Qed.

Lemma work_bound q :
  Inv q → work q ≤ (2 * MAX_RETRIES + 3) * length (queue q) + 2 * MAX_RETRIES + 2.
Proof.
  intros HI. destruct (isProcessing q) eqn:Hp.
  - destruct (inv_busy q HI Hp) as (task & Hone & Hok). rewrite (work_single q task Hone).
    destruct task as [item|item delay|]; simpl in *.
    + lia.
    + destruct Hok as (c & Hc1 & Hc3 & Hfl). rewrite (in_flight_count _ _ _ _ Hfl).
      unfold MAX_RETRIES in *. lia.
    + unfold MAX_RETRIES. lia.
  - destruct (inv_idle q HI Hp) as (Hts & _). unfold work. rewrite Hts. simpl. lia.
Qed.

(** Every turn that is not an [enqueue] brings the queue closer to idle. *)
Lemma settle_decreases q q' : Inv q → settle q q' → work q' < work q.
Proof.
  intros HI Hsettle.
  destruct Hsettle as [q pre item post Hts|q pre item post Hts
                      |q pre item delay post Hts|q pre post Hts];
    destruct (Inv_task _ _ _ _ HI Hts) as (Hp & -> & -> & Hok); simpl in Hts;
    rewrite (work_single q _ Hts); simpl in Hok.
  - rewrite (work_single _ Immediate) by done. simpl. lia.
  - destruct Hok as (c & Hc & Hfl). pose proof (in_flight_count _ _ _ _ Hfl) as Hcount.
    unfold writeFailed. simpl. fold (retryCountOf (filePath item) q). rewrite Hcount.
    destruct (c <? MAX_RETRIES) eqn:Hlt.
    + apply Nat.ltb_lt in Hlt.
      rewrite (work_single _ (Timeout item (100 * (c + 1)))) by done. simpl.
      unfold retryCountOf at 1. simpl. rewrite lookup_insert_eq. simpl.
      unfold MAX_RETRIES in *. lia.
    + rewrite (work_single _ Immediate) by done. simpl. lia.
  - destruct Hok as (c & Hc1 & Hc3 & Hfl).
    pose proof (in_flight_count _ _ _ _ Hfl) as Hcount.
    rewrite (work_single _ (Write item)) by done. simpl.
    unfold retryCountOf in *. simpl. rewrite Hcount. lia.
  - unfold immediateFired, processQueue. simpl.
    destruct (queue q) as [|item rest] eqn:Hq.
    + unfold work. simpl. lia.
    + rewrite (work_single _ (Write item)) by done. simpl.
      unfold retryCountOf. simpl. rewrite Hok, lookup_empty. simpl.
      unfold MAX_RETRIES. lia.
Qed.

Lemma settles_work n q q' : Inv q → settles n q q' → n + work q' ≤ work q.
Proof.
  intros HI Hrun. induction Hrun as [q|n q1 q2 q3 Hs _ IH]; [lia|].
  pose proof (settle_decreases _ _ HI Hs) as Hdec.
  specialize (IH (Inv_step _ _ HI (settle_step _ _ Hs))). lia.
Qed.

(** X9. The queue always drains.  From any state a run of the queue can
    reach, at most [9 * queue length + 8] continuations can run before a
    new [enqueue]: a write is retried three times at most and every item
    is given up or written after finitely many turns.  Until then some
    continuation is pending, so the queue is never stuck; and when none is
    left the queue is empty and [isProcessing] is off, so no item is left
    behind waiting for a writer. *)
Theorem queue_drains_in_bounded_turns q :
  reachable q →
  (∀ n q', settles n q q' →
     n ≤ (2 * MAX_RETRIES + 3) * getQueueLength q + 2 * MAX_RETRIES + 2)
  ∧ (∀ n q', settles n q q' →
       (tasks q' ≠ [] → ∃ q'', settle q' q'')
       ∧ (tasks q' = [] →
            getQueueLength q' = 0 ∧ isProcessing q' = false ∧ retryAttempts q' = ∅)).
Proof.
  intros HI%Inv_reachable. split.
  - intros n q' Hrun. pose proof (settles_work n q q' HI Hrun) as Hwork.
    pose proof (work_bound q HI) as Hbound. unfold getQueueLength. lia.
  - intros n q' Hrun.
    pose proof (Inv_steps _ _ HI (settles_steps _ _ _ Hrun)) as HI'. split.
    + destruct (tasks q') as [|[item|item delay|] rest] eqn:Hts; [done| | |]; intros _.
      * eexists. by apply (settle_write_ok q' [] item rest).
      * eexists. by apply (settle_timeout q' [] item delay rest).
      * eexists. by apply (settle_immediate q' [] rest).
    + intros Hts. destruct (isProcessing q') eqn:Hp.
      * destruct (inv_busy q' HI' Hp) as (task & Hone & _). congruence.
      * destruct (inv_idle q' HI' Hp) as (_ & Hq & Hr). unfold getQueueLength.
        by rewrite Hq.
Qed.

(** X10. One writer at a time.  In every state a run of the queue can
    reach at most one continuation is pending, so no two writes of the
    file overlap; [isProcessing] is on exactly while one is pending; and a
    retry count is kept only for the destination of the item in flight,
    between 1 and [MAX_RETRIES]. *)
Theorem one_write_in_flight q :
  reachable q →
  length (tasks q) ≤ 1
  ∧ (isProcessing q = true ↔ tasks q ≠ [])
  ∧ (∀ filePath count, retryAttempts q !! filePath = Some count →
       1 ≤ count ≤ MAX_RETRIES
       ∧ ∃ task item, tasks q = [task] ∧ held task = Some item
                      ∧ FileQueue.filePath item = filePath).
Proof.
  intros HI%Inv_reachable. destruct (isProcessing q) eqn:Hp.
  - destruct (inv_busy q HI Hp) as (task & Hone & Hok). rewrite Hone.
    split; [simpl; lia|]. split; [done|]. intros p count Hcount.
    assert (Hcounter : ∀ item c started, c ≤ MAX_RETRIES → in_flight q item c started →
              1 ≤ count ≤ MAX_RETRIES ∧ FileQueue.filePath item = p).
    { intros item c started Hc (Hcounter & _). rewrite Hcounter in Hcount.
      unfold counter in Hcount.
      destruct (c =? 0) eqn:Hnz; [by rewrite lookup_empty in Hcount|].
      apply Nat.eqb_neq in Hnz.
      apply lookup_singleton_Some in Hcount as [<- <-]. split; [lia|done]. }
    destruct task as [item|item delay|]; simpl in Hok.
    + destruct Hok as (c & Hc & Hfl).
      destruct (Hcounter item c (S c) Hc Hfl) as [Hrange Hpath].
      split; [done|]. by exists (Write item), item.
    + destruct Hok as (c & Hc1 & Hc & Hfl).
      destruct (Hcounter item c c Hc Hfl) as [Hrange Hpath].
      split; [done|]. by exists (Timeout item delay), item.
    + by rewrite Hok, lookup_empty in Hcount.
  - destruct (inv_idle q HI Hp) as (Hts & _ & Hr). rewrite Hts, Hr.
    split; [simpl; lia|]. split; [done|]. intros p count. by rewrite lookup_empty.
Qed.

End QueueDrains.

(** ** The persistence queue serves items in order *)

Section QueueOrder.
Context {A : Type}.
Import FileQueue QueueProgress.
#[local] Open Scope nat_scope.

Implicit Types (q : FileQueue.t A) (item : Item A) (task : Task A)
  (lg : list Event) (rest : list (Item A)).

Lemma sorted_snoc lg (u : nat) :
  StronglySorted le (map subject lg) →
  (∀ e, In e lg → subject e ≤ u) →
  ∀ e, subject e = u → StronglySorted le (map subject (lg ++ [e])).
Proof.
  intros Hsorted Hle e <-. rewrite map_app. apply StronglySorted_app_2; [|done|].
  - intros x1 x2 (e1 & <- & Hin)%list_elem_of_In%in_map_iff Hx2.
    apply list_elem_of_singleton in Hx2 as ->. by apply Hle.
  - repeat constructor.
Qed.

(** The state in which the write of [item] has just been started. *)
Lemma Ordered_attempt lg item rest (retries : gmap string nat) (n : nat) :
  StronglySorted le (map subject lg) →
  (∀ e, In e lg → subject e ≤ uid item) →
  StronglySorted lt (map uid (item :: rest)) →
  (∀ e item', In e lg → In item' rest → subject e < uid item') →
  uid item < n →
  (∀ e, In e lg → subject e < n) →
  (∀ item', In item' rest → uid item' < n) →
  Ordered (mk rest true retries [Write item] n (lg ++ [Attempt (uid item)])).
Proof.
  intros Hlog Hle Hqueue Hwait Hn Hlogged Hqueued.
  apply StronglySorted_inv in Hqueue as [Hrest Hhead].
  rewrite Forall_forall in Hhead.
  assert (Hafter : ∀ item', In item' rest → uid item < uid item').
  { intros item' Hin. apply Hhead, list_elem_of_In, in_map_iff. by exists item'. }
  split; simpl.
  - by apply (sorted_snoc lg (uid item)).
  - done.
  - intros e item' [Hin|[<-|[]]]%in_app_or Hitem'; [by apply Hwait|by apply Hafter].
  - intros task item' [<-|[]] [= <-]. split; [|done].
    intros e [Hin|[<-|[]]]%in_app_or; [by apply Hle|done].
  - intros e [Hin|[<-|[]]]%in_app_or; [by apply Hlogged|done].
  - done.
Qed.

Lemma Ordered_new : Ordered (FileQueue.new (A := A)).
Proof. split; simpl; try done; constructor. Qed.

Lemma Ordered_enqueue q (p : string) (d : A) :
  Inv q → Ordered q → Ordered (enqueue p d q).
Proof.
  intros HI [Hlog Hqueue Hwait Hheld Hlogged Hqueued]. unfold enqueue. simpl.
  destruct (isProcessing q) eqn:Hp.
  - split; simpl.
    + done.
    + rewrite map_app. apply StronglySorted_app_2; [|done|repeat constructor].
      intros x1 x2 (item' & <- & Hin)%list_elem_of_In%in_map_iff Hx2.
      apply list_elem_of_singleton in Hx2 as ->. by apply Hqueued.
    + intros e item' He [Hin|[<-|[]]]%in_app_or; [by apply Hwait|by apply Hlogged].
    + intros task item' Htask Hitem'.
      destruct (Hheld task item' Htask Hitem') as (Hle & Hlt & Hn).
      split; [done|]. split; [|lia].
      intros item'' [Hin|[<-|[]]]%in_app_or; [by apply Hlt|done].
    + intros e He. specialize (Hlogged e He). lia.
    + intros item' [Hin|[<-|[]]]%in_app_or; [|simpl; lia].
      specialize (Hqueued item' Hin). lia.
  - destruct (inv_idle q HI Hp) as (Hts & Hq & Hr). unfold processQueue. simpl.
    rewrite Hq, Hts. simpl.
    apply Ordered_attempt; simpl; try done.
    + intros e He. specialize (Hlogged e He). lia.
    + repeat constructor.
    + lia.
    + intros e He. specialize (Hlogged e He). lia.
Qed.

(** A write settled, either way: one more event about the item in
    flight, and a continuation that holds the same item or none. *)
Lemma Ordered_settled q item task e :
  Ordered q → tasks q = [Write item] →
  subject e = uid item → (held task = None ∨ held task = Some item) →
  ∀ retries,
    Ordered (mk (queue q) (isProcessing q) retries [task] (nextUid q) (log q ++ [e])).
Proof.
  intros [Hlog Hqueue Hwait Hheld Hlogged Hqueued] Hts He Htask retries.
  destruct (Hheld (Write item) item) as (Hle & Hlt & Hn); [rewrite Hts; by left|done|].
  split; simpl.
  - by apply (sorted_snoc _ (uid item)).
  - done.
  - intros e' item' [Hin|[<-|[]]]%in_app_or Hitem'; [by apply Hwait|].
    rewrite He. by apply Hlt.
  - intros task' item' [<-|[]] Hitem'.
    destruct Htask as [Hnone|Hsome]; [congruence|].
    assert (item' = item) as -> by congruence. split; [|done].
    intros e' [Hin|[<-|[]]]%in_app_or; [by apply Hle|lia].
  - intros e' [Hin|[<-|[]]]%in_app_or; [by apply Hlogged|lia].
  - done.
Qed.

Lemma Ordered_step q q' : Inv q → Ordered q → step q q' → Ordered q'.
Proof.
  intros HI HO Hstep.
  destruct Hstep as [q p d|q pre item post Hts|q pre item post Hts
                    |q pre item delay post Hts|q pre post Hts].
  - by apply Ordered_enqueue.
  - destruct (Inv_task _ _ _ _ HI Hts) as (Hp & -> & -> & Hok). simpl in Hts.
    apply (Ordered_settled q item Immediate (Saved (uid item)) HO Hts eq_refl). by left.
  - destruct (Inv_task _ _ _ _ HI Hts) as (Hp & -> & -> & Hok). simpl in Hts.
    unfold writeFailed. simpl. destruct (_ <? MAX_RETRIES).
    + apply (Ordered_settled q item (Timeout item _) (Retrying (uid item) _) HO Hts eq_refl).
      by right.
    + apply (Ordered_settled q item Immediate (Failed (uid item)) HO Hts eq_refl). by left.
  - destruct (Inv_task _ _ _ _ HI Hts) as (Hp & -> & -> & Hok). simpl in Hts.
    destruct HO as [Hlog Hqueue Hwait Hheld Hlogged Hqueued].
    destruct (Hheld (Timeout item delay) item) as (Hle & Hlt & Hn);
      [rewrite Hts; by left|done|].
    unfold timeoutFired, processQueue. simpl.
    apply Ordered_attempt; try done.
    simpl. apply SSorted_cons; [done|]. apply Forall_forall.
    intros u (item' & <- & Hin)%list_elem_of_In%in_map_iff. by apply Hlt.
  - destruct (Inv_task _ _ _ _ HI Hts) as (Hp & -> & -> & Hok). simpl in Hts.
    destruct HO as [Hlog Hqueue Hwait Hheld Hlogged Hqueued].
    unfold immediateFired, processQueue. simpl.
    destruct (queue q) as [|item rest] eqn:Hq.
    + split; simpl; try done; constructor.
    + apply Ordered_attempt; try done.
      * intros e He. apply Nat.lt_le_incl, Hwait; [done|by left].
      * intros e item' He Hitem'. apply Hwait; [done|by right].
      * apply Hqueued. by left.
      * intros item' Hitem'. apply Hqueued. by right.
Qed.

Lemma Ordered_steps q q' : Inv q → Ordered q → steps q q' → Inv q' ∧ Ordered q'.
Proof.
  intros HI HO Hrun. induction Hrun as [|q1 q2 q3 _ IH Hstep]; [done|].
  destruct (IH HI HO) as [HI2 HO2].
  split; [by apply (Inv_step q2)|by apply (Ordered_step q2)].
Qed.

Lemma Ordered_reachable q : reachable q → Ordered q.
Proof. intros Hrun. by apply (Ordered_steps new q Inv_new Ordered_new). Qed.

(** X11. First in, first out.  In every run of the queue the log never
    returns to an earlier item: once the write of an item was started, no
    item enqueued before it is written, retried or given up any more.  The
    items that wait are in the order of their [enqueue], and each was
    enqueued after everything the log mentions.  In particular the last
    snapshot written is never older than one written before it. *)
Theorem writes_follow_the_enqueue_order q :
  reachable q →
  (∀ l1 e1 l2 e2 l3, log q = l1 ++ e1 :: l2 ++ e2 :: l3 → subject e1 ≤ subject e2)
  ∧ (∀ r1 item1 r2 item2 r3, queue q = r1 ++ item1 :: r2 ++ item2 :: r3 →
       uid item1 < uid item2)
  ∧ (∀ e item, In e (log q) → In item (queue q) → subject e < uid item).
Proof.
  intros [Hlog Hqueue Hwait _ _ _]%Ordered_reachable. split; [|split; [|done]].
  - intros l1 e1 l2 e2 l3 Heq. rewrite Heq, map_app in Hlog.
    apply StronglySorted_app_1_r in Hlog. simpl in Hlog.
    apply StronglySorted_inv in Hlog as [_ Hall]. rewrite Forall_forall in Hall.
    apply Hall, list_elem_of_In. rewrite map_app. apply in_or_app. right. by left.
  - intros r1 item1 r2 item2 r3 Heq. rewrite Heq, map_app in Hqueue.
    apply StronglySorted_app_1_r in Hqueue. simpl in Hqueue.
    apply StronglySorted_inv in Hqueue as [_ Hall]. rewrite Forall_forall in Hall.
    apply Hall, list_elem_of_In. rewrite map_app. apply in_or_app. right. by left.
Qed.

End QueueOrder.

(** *** Closed instances *)

Lemma queue_drains_in_bounded_turns_witness :
  FileQueue.reachable Scenario.queue_given_up
  ∧ ∀ n q', QueueProgress.settles n Scenario.queue_given_up q' → (n ≤ 8)%nat.
Proof.
  split; [exact queue_given_up_reachable|].
  exact (proj1 (queue_drains_in_bounded_turns Scenario.queue_given_up
                  queue_given_up_reachable)).
Defined.

Lemma one_write_in_flight_witness :
  FileQueue.reachable Scenario.queue_given_up
  ∧ (length (FileQueue.tasks Scenario.queue_given_up) ≤ 1)%nat.
Proof.
  split; [exact queue_given_up_reachable|].
  exact (proj1 (one_write_in_flight Scenario.queue_given_up queue_given_up_reachable)).
Defined.

Lemma writes_follow_the_enqueue_order_witness :
  FileQueue.reachable Scenario.queue_given_up
  ∧ ∀ l1 e1 l2 e2 l3,
      FileQueue.log Scenario.queue_given_up = l1 ++ e1 :: l2 ++ e2 :: l3 →
      (FileQueue.subject e1 ≤ FileQueue.subject e2)%nat.
Proof.
  split; [exact queue_given_up_reachable|].
  exact (proj1 (writes_follow_the_enqueue_order Scenario.queue_given_up
                  queue_given_up_reachable)).
Defined.

(** ** The database and its tables *)

Section MapEntries.
Context {V : Type}.
Implicit Types (m : list (Value * V)) (key k : Value) (v w : V).

Lemma Map_has_get key m : Map_has key m = true ↔ is_Some (Map_get key m).
Proof.
  unfold Map_has. destruct (Map_get key m); [split; eauto|].
  split; [done|by intros [? ?]].
Qed.

Lemma Map_set_same key m v : Map_get key m = Some v → Map_set key v m = m.
Proof.
  induction m as [|[k0 v0] m IH]; simpl; [done|].
  destruct (same_value_zero k0 key); [by intros [= ->]|]. intros Hget. by rewrite IH.
Qed.

Lemma Map_delete_absent key m : Map_get key m = None → Map_delete key m = m.
Proof.
  induction m as [|[k0 v0] m IH]; simpl; [done|].
  destruct (same_value_zero k0 key); [done|]. intros Hget. by rewrite IH.
Qed.

Lemma Map_get_delete key key' m :
  TableInv.distinct_keys m →
  Map_get key (Map_delete key' m)
  = if same_value_zero key' key then None else Map_get key m.
Proof.
  induction m as [|[k0 v0] m IH]; simpl.
  - by destruct (same_value_zero key' key).
  - intros [Hfresh Hdist]. destruct (same_value_zero k0 key') eqn:Hk0; simpl.
    + destruct (same_value_zero key' key) eqn:Hkk.
      * rewrite <- (Map_get_same k0 key m); [done|].
        by apply (same_value_zero_trans _ key').
      * destruct (same_value_zero k0 key) eqn:Hk; [|done].
        rewrite same_value_zero_sym in Hk0.
        by rewrite (same_value_zero_trans key' k0 key Hk0 Hk) in Hkk.
    + rewrite IH by done. destruct (same_value_zero k0 key) eqn:Hk; [|done].
      destruct (same_value_zero key' key) eqn:Hkk; [|done].
      rewrite same_value_zero_sym in Hkk.
      by rewrite (same_value_zero_trans k0 key key' Hk Hkk) in Hk0.
Qed.

Lemma Map_delete_snoc key m v :
  Map_get key m = None → Map_delete key (m ++ [(key, v)]) = m.
Proof.
  induction m as [|[k0 v0] m IH]; simpl.
  - by rewrite same_value_zero_refl.
  - destruct (same_value_zero k0 key); [done|]. intros Hget. by rewrite IH.
Qed.

Lemma Forall_Map_set (P : Value * V → Prop) key v m :
  Forall P m → P (key, v) → (∀ k w, In (k, w) m → P (k, w) → P (k, v)) →
  Forall P (Map_set key v m).
Proof.
  intros Hm Hnew Hrepl. induction m as [|[k0 v0] m IH]; simpl.
  - by constructor.
  - apply Forall_cons_1 in Hm as [Hhead Htail].
    destruct (same_value_zero k0 key).
    + constructor; [|done]. apply (Hrepl k0 v0); [by left|done].
    + constructor; [done|]. apply IH; [done|].
      intros k w Hin. apply Hrepl. by right.
Qed.

Lemma Forall_Map_delete (P : Value * V → Prop) key m :
  Forall P m → Forall P (Map_delete key m).
Proof.
  induction m as [|[k0 v0] m IH]; simpl; [done|].
  intros [Hhead Htail]%Forall_cons_1.
  destruct (same_value_zero k0 key); [done|]. constructor; auto.
Qed.

End MapEntries.

Section DatabaseStates.
Context `{DateEngine}.
#[local] Open Scope nat_scope.

Import DatabaseInv.

Lemma insertWithoutNotify_after (table : Table.t) (rowData : RowData) :
  (Database.insertWithoutNotify table rowData).1
  = Table.after (Table.insert rowData table).
Proof.
  unfold Database.insertWithoutNotify, Table.insert.
  destruct (negb (Table.validateRow rowData table).1); [done|].
  by destruct (Table.buildRow rowData (Table.columns table)).
Qed.

Lemma insert_onChange (data : RowData) (tb : Table.t) :
  Table.onChange (Table.after (Table.insert data tb)) = Table.onChange tb.
Proof.
  unfold Table.insert. destruct (negb (Table.validateRow data tb).1); [done|].
  by destruct (Table.buildRow data (Table.columns tb)).
Qed.

Lemma update_onChange (updates : RowData) (where_ : option (RowData → bool))
    (tb : Table.t) :
  Table.onChange (Table.after (Table.update updates where_ tb)) = Table.onChange tb.
Proof.
  pose proof (updateLoop_frame updates (Table.rowsToUpdate where_ tb) tb 0 [])
    as (_ & _ & Hcb & _).
  unfold Table.update.
  by destruct (Table.updateLoop updates (Table.rowsToUpdate where_ tb) tb 0 [])
    as [tb' [[affected errs]|e]].
Qed.

Lemma delete_onChange (where_ : option (RowData → bool)) (tb : Table.t) :
  Table.onChange (Table.after (Table.delete where_ tb)) = Table.onChange tb.
Proof.
  unfold Table.delete. simpl.
  generalize (Table.sort_desc (Table.indicesToDelete where_ tb)). intros l. revert tb.
  induction l as [|idx l IH]; intros tb; simpl; [done|]. by rewrite IH.
Qed.

Lemma restoreRows_reachable (rows : list RowData) (table table' : Table.t) :
  Database.restoreRows rows table = Returns table' →
  TableInv.reachable table →
  TableInv.reachable table' ∧ Table.onChange table' = Table.onChange table.
Proof.
  revert table. induction rows as [|rowData rows IH]; intros table; simpl.
  - by intros [= <-].
  - pose proof (insertWithoutNotify_after table rowData) as Hafter.
    destruct (Database.insertWithoutNotify table rowData) as [table1 [r|e]]; [|done].
    simpl in Hafter. subst table1. intros Hrest Hreach.
    destruct (IH _ Hrest) as [Hreach' Hcb]; [by apply TableInv.reach_insert|].
    split; [done|]. by rewrite Hcb, insert_onChange.
Qed.

Lemma restoreTable_ok (tableData : Database.TableData) (table : Table.t) :
  Database.restoreTable tableData = Returns table →
  TableInv.reachable table ∧ Table.onChange table = true.
Proof.
  unfold Database.restoreTable.
  destruct (Database.restoreRows _ _) as [table1|e] eqn:Hrows; simpl; [|done].
  intros [= <-]. apply restoreRows_reachable in Hrows as [Hreach _].
  - split; [by apply TableInv.reach_onChange|done].
  - apply TableInv.reach_onChange, TableInv.reach_new.
Qed.

(** Registering a table under its name. *)
Lemma set_table_ok (tableName : string) (table : Table.t) (db : Database.t) :
  TableInv.distinct_keys (Database.tables db) →
  Forall table_ok (Database.tables db) →
  TableInv.reachable table → Table.onChange table = true →
  TableInv.distinct_keys (Map_set (Str tableName) table (Database.tables db))
  ∧ Forall table_ok (Map_set (Str tableName) table (Database.tables db)).
Proof.
  intros Hkeys Htables Hreach Hcb. split; [by apply Map_set_distinct|].
  apply Forall_Map_set; [done| |].
  - split; [by exists tableName|done].
  - intros k w _ (Hk & _). split; [done|]. done.
Qed.

Lemma reachable_enqueue (filePath : string) (data : Database.Snapshot)
    (q : FileQueue.t Database.Snapshot) :
  FileQueue.reachable q → FileQueue.reachable (FileQueue.enqueue filePath data q).
Proof. intros Hq. eapply FileQueue.steps_step; [exact Hq|constructor]. Qed.

Lemma saveToFile_Inv (now : string) (db : Database.t) :
  Inv db → Inv (Database.saveToFile now db).
Proof.
  intros [Hkeys Htables Hqueue Hloaded]. unfold Database.saveToFile.
  rewrite Hloaded. split; simpl; try done. by apply reachable_enqueue.
Qed.

Lemma with_tables_Inv (tables : list (Value * Table.t)) (db : Database.t) :
  Inv db → TableInv.distinct_keys tables → Forall table_ok tables →
  Inv (Database.with_tables tables db).
Proof. intros [_ _ Hqueue Hloaded] Hkeys Htables. by split. Qed.

Lemma getTable_ok (tableName : string) (table : Table.t) (db : Database.t) :
  Inv db → Database.getTable tableName db = Some table →
  TableInv.reachable table ∧ Table.onChange table = true.
Proof.
  intros [_ Htables _ _] (k & Hin & _)%Map_get_Some.
  rewrite Forall_forall in Htables.
  by destruct (Htables (k, table) (proj2 (list_elem_of_In _ _) Hin)) as (_ & ? & ?).
Qed.

Lemma onTable_Inv {R} (now tableName : string) (method : Table.t → Table.Outcome R)
    (db : Database.t) :
  (∀ table, TableInv.reachable table → Table.onChange table = true →
            TableInv.reachable (Table.after (method table))
            ∧ Table.onChange (Table.after (method table)) = true) →
  Inv db → Inv (Database.onTable now tableName method db).1.
Proof.
  intros Hmethod HI. unfold Database.onTable.
  destruct (Database.getTable tableName db) as [table|] eqn:Hget; [|done].
  destruct (getTable_ok _ _ _ HI Hget) as [Hreach Hcb].
  destruct (Hmethod table Hreach Hcb) as [Hreach' Hcb'].
  destruct (set_table_ok tableName (Table.after (method table)) db
              (inv_keys db HI) (inv_tables db HI) Hreach' Hcb') as [Hkeys Htables].
  pose proof (with_tables_Inv _ db HI Hkeys Htables) as HI'.
  simpl. destruct (Table.notified (method table)); [by apply saveToFile_Inv|done].
Qed.

Lemma restoreFromData_Inv (savedData : Database.Snapshot) (db : Database.t) :
  TableInv.distinct_keys (Database.tables db) →
  Forall table_ok (Database.tables db) →
  let db' := Database.restoreFromData savedData db in
  TableInv.distinct_keys (Database.tables db')
  ∧ Forall table_ok (Database.tables db')
  ∧ Database.fileQueue db' = Database.fileQueue db.
Proof.
  unfold Database.restoreFromData.
  generalize (Database.snapshot_tables savedData). intros tds. revert db.
  induction tds as [|td tds IH]; intros db Hkeys Htables; simpl; [done|].
  destruct (Database.restoreTable td) as [table|e] eqn:Htable.
  - destruct (restoreTable_ok td table Htable) as [Hreach Hcb].
    destruct (set_table_ok (Database.table_name td) table db Hkeys Htables Hreach Hcb)
      as [Hkeys' Htables'].
    by destruct (IH (Database.with_tables
                       (Map_set (Str (Database.table_name td)) table (Database.tables db))
                       db) Hkeys' Htables') as (? & ? & ->).
  - by apply IH.
Qed.

(** The invariant of the states of the database. *)
Lemma reachable_Inv (db : Database.t) : reachable db → Inv db.
Proof.
  induction 1 as [name file|now tableName columns db _ IH|now tableName db _ IH
                  |now tableName data db _ IH|now tableName updates where_ db _ IH
                  |now tableName where_ db _ IH|db q _ IH Hq].
  - unfold Database.initializeStorage. destruct file as [savedData|]; simpl.
    + destruct (restoreFromData_Inv savedData
                  (Database.with_isInitializing true (Database.new name)))
        as (Hkeys & Htables & Hqueue); [done|constructor|].
      split; simpl; [done|done| |done]. rewrite Hqueue. simpl. constructor.
    + split; simpl; [done|constructor|constructor|done].
  - unfold Database.createTable.
    destruct (Map_has (Str tableName) (Database.tables db)); [done|]. simpl.
    apply saveToFile_Inv.
    destruct (set_table_ok tableName
                (Table.new tableName
                   (map (fun col =>
                           Column.new (Database.col_name col) (Database.col_type col)
                             (Some (default false (Database.col_primaryKey col)))
                             (Some (default false (Database.col_unique col)))
                             None Undefined) columns)
                   (Database.col_name
                      <$> List.find (fun col => default false (Database.col_primaryKey col))
                            columns)
                   true) db (inv_keys db IH) (inv_tables db IH))
      as [Hkeys Htables]; [apply TableInv.reach_new|done|].
    by apply with_tables_Inv.
  - unfold Database.dropTable.
    assert (HI' : Inv (Database.with_tables
                         (Map_delete (Str tableName) (Database.tables db)) db)).
    { apply with_tables_Inv; [done| |].
      - apply Map_delete_distinct, IH.
      - apply Forall_Map_delete, IH. }
    destruct (Map_has (Str tableName) (Database.tables db)); simpl; [|done].
    by apply saveToFile_Inv.
  - apply onTable_Inv; [|done]. intros table Hreach Hcb.
    split; [by apply TableInv.reach_insert|by rewrite insert_onChange].
  - apply onTable_Inv; [|done]. intros table Hreach Hcb.
    split; [by apply TableInv.reach_update|by rewrite update_onChange].
  - apply onTable_Inv; [|done]. intros table Hreach Hcb.
    split; [by apply TableInv.reach_delete|by rewrite delete_onChange].
  - destruct IH as [Hkeys Htables Hqueue Hloaded]. split; simpl; try done.
    eapply FileQueue.steps_step; [exact Hqueue|by apply settle_step].
Qed.

Lemma listTables_NoDup (tables : list (Value * Table.t)) :
  TableInv.distinct_keys tables → Forall table_ok tables →
  NoDup (map (fun entry : Value * Table.t => ToString entry.1) tables).
Proof.
  induction tables as [|[k table] tables IH]; simpl; [constructor|].
  intros [Hfresh Hkeys] [Hhead Htables]%Forall_cons_1.
  apply NoDup_cons. split; [|by apply IH].
  intros ([k' table'] & Hname & Hin)%list_elem_of_In%in_map_iff. simpl in Hname.
  pose proof (Map_get_None k tables k' table' Hfresh Hin) as Hne.
  rewrite Forall_forall in Htables.
  destruct (Htables (k', table') (proj2 (list_elem_of_In _ _) Hin)) as ((n' & Hk') & _).
  destruct Hhead as ((n & Hk) & _). simpl in Hk, Hk'. subst k k'. simpl in *.
  subst n'. by rewrite String.eqb_refl in Hne.
Qed.

(** X12. Whatever sequence of requests and queue turns a server has been
    through, every table [getTable] hands out was built by the [Table]
    constructor and calls of [insert], [update] and [delete], and has its
    change callback installed, so each of its changes is saved; no table
    name is listed twice; the persistence queue is in a state one of its
    runs reaches; and the database is no longer initializing. *)
Theorem database_holds_reachable_tables (db : Database.t) :
  reachable db →
  (∀ tableName table, Database.getTable tableName db = Some table →
     TableInv.reachable table ∧ Table.onChange table = true)
  ∧ NoDup (Database.listTables db)
  ∧ FileQueue.reachable (Database.fileQueue db)
  ∧ Database.isInitializing db = false.
Proof.
  intros HI%reachable_Inv. split; [|split; [|split]].
  - intros tableName table. by apply getTable_ok.
  - apply listTables_NoDup; apply HI.
  - apply HI.
  - apply HI.
Qed.

End DatabaseStates.

Section DatabaseCalls.
Context `{DateEngine}.
#[local] Open Scope nat_scope.

Import DatabaseInv.

Lemma with_tables_same (db : Database.t) : Database.with_tables (Database.tables db) db = db.
Proof. by destruct db. Qed.

Lemma getTable_set (tableName other : string) (table : Table.t) (db : Database.t) :
  Database.getTable other
    (Database.with_tables (Map_set (Str tableName) table (Database.tables db)) db)
  = if String.eqb tableName other then Some table else Database.getTable other db.
Proof. unfold Database.getTable. simpl. by rewrite Map_get_set. Qed.

Lemma getTable_saveToFile (now other : string) (db : Database.t) :
  Database.getTable other (Database.saveToFile now db) = Database.getTable other db.
Proof. unfold Database.saveToFile. by destruct (Database.isInitializing db). Qed.

Lemma listTables_saveToFile (now : string) (db : Database.t) :
  Database.listTables (Database.saveToFile now db) = Database.listTables db.
Proof. unfold Database.saveToFile. by destruct (Database.isInitializing db). Qed.

Lemma toJSON_saveToFile (now now' : string) (db : Database.t) :
  Database.toJSON now (Database.saveToFile now' db) = Database.toJSON now db.
Proof. unfold Database.saveToFile. by destruct (Database.isInitializing db). Qed.

Lemma saveToFile_queue (now : string) (db : Database.t) :
  Database.isInitializing db = false →
  Database.fileQueue (Database.saveToFile now db)
  = FileQueue.enqueue (Database.dbFilePath db) (Database.toJSON now db)
      (Database.fileQueue db).
Proof. unfold Database.saveToFile. by intros ->. Qed.

Lemma Map_set_keys {V} (key : Value) (v v0 : V) (m : list (Value * V)) :
  Map_get key m = Some v0 → map fst (Map_set key v m) = map fst m.
Proof.
  induction m as [|[k0 w] m IH]; simpl; [done|].
  destruct (same_value_zero k0 key); [done|]. intros Hget. simpl. by rewrite IH.
Qed.

Lemma listTables_keys (db : Database.t) :
  Database.listTables db = map ToString (map fst (Database.tables db)).
Proof. unfold Database.listTables. by rewrite map_map. Qed.

(** A call of a table method through the database, by whether the method
    notified. *)
Lemma onTable_found {R} (now tableName : string) (method : Table.t → Table.Outcome R)
    (db : Database.t) (table : Table.t) :
  Database.isInitializing db = false →
  Database.getTable tableName db = Some table →
  let r := Database.onTable now tableName method db in
  r.2 = Some (Table.completion (method table))
  ∧ Database.getTable tableName r.1 = Some (Table.after (method table))
  ∧ (∀ other, other ≠ tableName →
       Database.getTable other r.1 = Database.getTable other db)
  ∧ Database.listTables r.1 = Database.listTables db
  ∧ (Table.notified (method table) = true →
       Database.fileQueue r.1
       = FileQueue.enqueue (Database.dbFilePath db) (Database.toJSON now r.1)
           (Database.fileQueue db))
  ∧ (Table.notified (method table) = false →
       Database.fileQueue r.1 = Database.fileQueue db
       ∧ (Table.after (method table) = table → r.1 = db)).
Proof.
  intros Hloaded Hget. unfold Database.onTable. rewrite Hget. simpl.
  set (db' := Database.with_tables
                (Map_set (Str tableName) (Table.after (method table)) (Database.tables db))
                db).
  assert (Hsame : Database.getTable tableName db' = Some (Table.after (method table))).
  { unfold db'. by rewrite getTable_set, String.eqb_refl. }
  assert (Hother : ∀ other, other ≠ tableName →
            Database.getTable other db' = Database.getTable other db).
  { intros other Hne. unfold db'. rewrite getTable_set.
    destruct (String.eqb_spec tableName other); [congruence|done]. }
  assert (Hlist : Database.listTables db' = Database.listTables db).
  { rewrite !listTables_keys. unfold db'. simpl.
    by rewrite (Map_set_keys _ _ table). }
  split; [done|]. destruct (Table.notified (method table)); simpl.
  - rewrite getTable_saveToFile, listTables_saveToFile, toJSON_saveToFile.
    split; [done|]. split.
    { intros other Hne. rewrite getTable_saveToFile. by apply Hother. }
    split; [done|]. split; [|done]. intros _. by rewrite saveToFile_queue.
  - split; [done|]. split; [done|]. split; [done|]. split; [done|].
    intros _. split; [done|]. intros Hafter. unfold db'. rewrite Hafter.
    unfold Database.getTable in Hget. rewrite (Map_set_same _ _ _ Hget).
    apply with_tables_same.
Qed.

(** X13. An insert made through the database: the table registered under
    the name is replaced by the table after the insert, no other table and
    no table name changes, and the caller gets the result of the insert.
    When the insert succeeds exactly one snapshot is enqueued for the data
    file, and it is the snapshot of the database after the insert; when
    validation fails, or the insert throws, the database is as before and
    nothing is enqueued. *)
Theorem insert_through_the_database_is_saved (now tableName : string)
    (data : RowData) (db : Database.t) (table : Table.t) :
  reachable db →
  Database.getTable tableName db = Some table →
  let o := Table.insert data table in
  let r := Database.onTable now tableName (Table.insert data) db in
  r.2 = Some (Table.completion o)
  ∧ Database.getTable tableName r.1 = Some (Table.after o)
  ∧ (∀ other, other ≠ tableName →
       Database.getTable other r.1 = Database.getTable other db)
  ∧ Database.listTables r.1 = Database.listTables db
  ∧ (∀ res, Table.completion o = Returns res → Table.success res = true →
       Database.fileQueue r.1
       = FileQueue.enqueue (Database.dbFilePath db) (Database.toJSON now r.1)
           (Database.fileQueue db))
  ∧ ((∀ res, Table.completion o = Returns res → Table.success res = false) →
       r.1 = db).
Proof.
  intros HI%reachable_Inv Hget o r.
  destruct (getTable_ok _ _ _ HI Hget) as [_ Hcb].
  destruct (onTable_found now tableName (Table.insert data) db table
              (inv_loaded db HI) Hget) as (Hres & Hsame & Hother & Hlist & Hsaved & Hquiet).
  split; [done|]. split; [done|]. split; [done|]. split; [done|]. split.
  - intros res Hres' Hok. apply Hsaved. subst o. revert Hres' Hok.
    unfold Table.insert. destruct (negb (Table.validateRow data table).1); simpl.
    + by intros [= <-].
    + destruct (Table.buildRow data (Table.columns table)); [|done]. by simpl.
  - intros Hfail. apply Hquiet; subst o; revert Hfail; unfold Table.insert;
      destruct (negb (Table.validateRow data table).1); simpl; try done;
      destruct (Table.buildRow data (Table.columns table)) as [row|e]; simpl; try done;
      intros Hfail; by specialize (Hfail _ eq_refl).
Qed.

Lemma names_without {V} (tableName : string) (m : list (Value * V)) :
  Forall (λ entry, ∃ n, entry.1 = Str n) m →
  Map_get (Str tableName) m = None →
  List.filter (λ n, negb (String.eqb n tableName)) (map ToString (map fst m))
  = map ToString (map fst m).
Proof.
  induction m as [|[k v] m IH]; simpl; [done|].
  intros [[n Hk] Hm]%Forall_cons_1. simpl in Hk. subst k. simpl.
  destruct (String.eqb n tableName); [done|]. simpl. intros Hget. by rewrite IH.
Qed.

Lemma names_after_delete {V} (tableName : string) (m : list (Value * V)) :
  TableInv.distinct_keys m →
  Forall (λ entry, ∃ n, entry.1 = Str n) m →
  map ToString (map fst (Map_delete (Str tableName) m))
  = List.filter (λ n, negb (String.eqb n tableName)) (map ToString (map fst m)).
Proof.
  induction m as [|[k v] m IH]; simpl; [done|].
  intros [Hfresh Hdist] [[n Hk] Hm]%Forall_cons_1. simpl in Hk. subst k. simpl.
  destruct (String.eqb_spec n tableName) as [->|Hne]; simpl.
  - by rewrite names_without.
  - by rewrite IH.
Qed.

(** What [dropTable] leaves. *)
Lemma dropTable_effect (now tableName : string) (db : Database.t) :
  reachable db →
  let r := Database.dropTable now tableName db in
  (r.2 = true ↔ is_Some (Database.getTable tableName db))
  ∧ Database.getTable tableName r.1 = None
  ∧ (∀ other, other ≠ tableName →
       Database.getTable other r.1 = Database.getTable other db)
  ∧ Database.listTables r.1
    = List.filter (λ n, negb (String.eqb n tableName)) (Database.listTables db)
  ∧ (r.2 = true →
       Database.fileQueue r.1
       = FileQueue.enqueue (Database.dbFilePath db) (Database.toJSON now r.1)
           (Database.fileQueue db))
  ∧ (r.2 = false → r.1 = db).
Proof.
  intros HI%reachable_Inv. destruct HI as [Hkeys Htables _ Hloaded].
  assert (Hstr : Forall (λ entry : Value * Table.t, ∃ n, entry.1 = Str n)
                   (Database.tables db)).
  { eapply Forall_impl; [exact Htables|]. by intros entry (? & _). }
  unfold Database.dropTable.
  set (db' := Database.with_tables (Map_delete (Str tableName) (Database.tables db)) db).
  assert (Hgone : Database.getTable tableName db' = None).
  { unfold db', Database.getTable. simpl.
    by rewrite Map_get_delete, same_value_zero_refl. }
  assert (Hother : ∀ other, other ≠ tableName →
            Database.getTable other db' = Database.getTable other db).
  { intros other Hne. unfold db', Database.getTable. simpl.
    rewrite Map_get_delete by done. simpl.
    destruct (String.eqb_spec tableName other); [congruence|done]. }
  assert (Hlist : Database.listTables db'
                  = List.filter (λ n, negb (String.eqb n tableName))
                      (Database.listTables db)).
  { rewrite !listTables_keys. unfold db'. simpl. by apply names_after_delete. }
  destruct (Map_has (Str tableName) (Database.tables db)) eqn:Hhas; simpl.
  - apply Map_has_get in Hhas.
    rewrite getTable_saveToFile, listTables_saveToFile, toJSON_saveToFile.
    split; [done|]. split; [done|]. split.
    { intros other Hne. rewrite getTable_saveToFile. by apply Hother. }
    split; [done|]. split; [|done]. intros _. by rewrite saveToFile_queue.
  - assert (Hnone : Map_get (Str tableName) (Database.tables db) = None).
    { unfold Map_has in Hhas. by destruct (Map_get _ _). }
    split. { unfold Database.getTable. rewrite Hnone. split; [done|by intros [? ?]]. }
    split; [done|]. split; [done|]. split; [done|]. split; [done|].
    intros _. unfold db'. rewrite (Map_delete_absent _ _ Hnone). apply with_tables_same.
Qed.

(** X14. [dropTable] returns whether a table of that name existed.
    Afterwards [getTable] finds none under the name, every other table is
    as before, and [listTables] has lost exactly that name.  One snapshot
    of the database without the table is enqueued when a table was
    dropped; otherwise the database is unchanged. *)
Theorem dropTable_removes_the_table (now tableName : string) (db : Database.t) :
  reachable db →
  let r := Database.dropTable now tableName db in
  (r.2 = true ↔ is_Some (Database.getTable tableName db))
  ∧ Database.getTable tableName r.1 = None
  ∧ (∀ other, other ≠ tableName →
       Database.getTable other r.1 = Database.getTable other db)
  ∧ Database.listTables r.1
    = List.filter (λ n, negb (String.eqb n tableName)) (Database.listTables db)
  ∧ (r.2 = true →
       Database.fileQueue r.1
       = FileQueue.enqueue (Database.dbFilePath db) (Database.toJSON now r.1)
           (Database.fileQueue db))
  ∧ (r.2 = false → r.1 = db).
Proof. apply dropTable_effect. Qed.

(** X15. [createTable] under a name that is free: the name is appended to
    [listTables], the other tables are as before, the new table has the
    given name and column names, no row, and empty indexes, and one
    snapshot of the database with the new table is enqueued.  Dropping the
    table again leaves the tables that were there before. *)
Theorem createTable_then_dropTable (now later tableName : string)
    (columns : list Database.ColumnDefinition) (db : Database.t) :
  reachable db →
  Database.getTable tableName db = None →
  let created := (Database.createTable now tableName columns db).1 in
  Database.listTables created = Database.listTables db ++ [tableName]
  ∧ (∀ other, other ≠ tableName →
       Database.getTable other created = Database.getTable other db)
  ∧ (∃ table,
       Database.getTable tableName created = Some table
       ∧ Table.name table = tableName
       ∧ map Column.name (Table.columns table) = map Database.col_name columns
       ∧ Table.rows table = []
       ∧ ∀ columnName value, Table.findByIndex columnName value table = [])
  ∧ Database.fileQueue created
    = FileQueue.enqueue (Database.dbFilePath db) (Database.toJSON now created)
        (Database.fileQueue db)
  ∧ Database.tables (Database.dropTable later tableName created).1
    = Database.tables db.
Proof.
  intros HI%reachable_Inv Hfree. destruct HI as [Hkeys Htables _ Hloaded].
  unfold Database.getTable in Hfree.
  unfold Database.createTable, Map_has. rewrite Hfree. simpl.
  rewrite (Map_set_fresh _ _ _ Hfree).
  set (table := Table.new tableName _ _ true).
  set (db' := Database.with_tables (Database.tables db ++ [(Str tableName, table)]) db).
  rewrite listTables_saveToFile, toJSON_saveToFile, saveToFile_queue by done.
  split; [|split; [|split; [|split]]].
  - unfold Database.listTables, db'. simpl. by rewrite map_app.
  - intros other Hne. rewrite getTable_saveToFile. unfold Database.getTable, db'. simpl.
    rewrite Map_get_snoc. destruct (Map_get (Str other) (Database.tables db)); [done|].
    simpl. destruct (String.eqb_spec tableName other); [congruence|done].
  - exists table. rewrite getTable_saveToFile. unfold Database.getTable, db'. simpl.
    rewrite Map_get_snoc, Hfree. simpl. rewrite String.eqb_refl.
    split; [done|]. split; [done|]. split.
    { unfold table. simpl. rewrite map_map. done. }
    split; [done|]. intros columnName value. unfold Table.findByIndex, table. simpl.
    rewrite createIndexes_lookup. by destruct (existsb _ _).
  - done.
  - unfold Database.dropTable.
    assert (Htabs : Database.tables (Database.saveToFile now db')
                    = Database.tables db ++ [(Str tableName, table)]).
    { unfold Database.saveToFile. by destruct (Database.isInitializing db'). }
    rewrite Htabs, (Map_delete_snoc _ _ _ Hfree).
    destruct (Map_has _ _); simpl; [|done].
    unfold Database.saveToFile. by destruct (Database.isInitializing _).
Qed.

End DatabaseCalls.

(** *** Closed instances *)

Lemma shop_new_reachable : DatabaseInv.reachable (Database.new "shop").
Proof. exact (DatabaseInv.reach_new "shop" None). Qed.

Lemma shop1_reachable : DatabaseInv.reachable Scenario.shop1.
Proof. apply DatabaseInv.reach_createTable, shop_new_reachable. Qed.

Lemma shop2_reachable : DatabaseInv.reachable Scenario.shop2.
Proof. apply DatabaseInv.reach_insert, shop1_reachable. Qed.

Lemma database_holds_reachable_tables_witness :
  DatabaseInv.reachable Scenario.shop2
  ∧ NoDup (Database.listTables Scenario.shop2)
  ∧ Database.isInitializing Scenario.shop2 = false.
Proof.
  split; [exact shop2_reachable|].
  destruct (database_holds_reachable_tables Scenario.shop2 shop2_reachable)
    as (_ & Hnames & _ & Hloaded).
  split; [exact Hnames|exact Hloaded].
Defined.

Lemma insert_through_the_database_is_saved_witness :
  DatabaseInv.reachable Scenario.shop1
  ∧ Database.getTable "users" Scenario.shop1 = Some Scenario.users
  ∧ Database.getTable "users" Scenario.shop2 = Some Scenario.users1.
Proof.
  split; [exact shop1_reachable|]. split; [reflexivity|].
  exact (proj1 (proj2 (insert_through_the_database_is_saved Scenario.today "users"
                         (Scenario.user 1 "a") Scenario.shop1 Scenario.users
                         shop1_reachable eq_refl))).
Defined.

Lemma dropTable_removes_the_table_witness :
  DatabaseInv.reachable Scenario.shop1
  ∧ Database.getTable "users" (Database.dropTable Scenario.today "users" Scenario.shop1).1
    = None.
Proof.
  split; [exact shop1_reachable|].
  exact (proj1 (proj2 (dropTable_removes_the_table Scenario.today "users" Scenario.shop1
                         shop1_reachable))).
Defined.

Lemma createTable_then_dropTable_witness :
  DatabaseInv.reachable (Database.new "shop")
  ∧ Database.getTable "users" (Database.new "shop") = None
  ∧ Database.listTables Scenario.shop1 = ["users"].
Proof.
  split; [exact shop_new_reachable|]. split; [reflexivity|].
  exact (proj1 (createTable_then_dropTable Scenario.today Scenario.today "users"
                  Scenario.users_definition (Database.new "shop")
                  shop_new_reachable eq_refl)).
Defined.

(** ** The request handlers *)

Section RouteProperties.
Context `{DateEngine}.
#[local] Open Scope nat_scope.

Lemma call_getTable {R} (now tableName : string) (o : Table.Outcome R) (db : Database.t) :
  Database.getTable tableName (Routes.call now tableName o db) = Some (Table.after o).
Proof.
  unfold Routes.call. destruct (Table.notified o);
    rewrite ?getTable_saveToFile, getTable_set; by rewrite String.eqb_refl.
Qed.

Lemma call_getTable_other {R} (now tableName other : string) (o : Table.Outcome R)
    (db : Database.t) :
  other ≠ tableName →
  Database.getTable other (Routes.call now tableName o db) = Database.getTable other db.
Proof.
  intros Hne. unfold Routes.call. destruct (Table.notified o);
    rewrite ?getTable_saveToFile, getTable_set;
    destruct (String.eqb_spec tableName other); congruence.
Qed.

Lemma call_unchanged {R} (now tableName : string) (o : Table.Outcome R)
    (db : Database.t) (table : Table.t) :
  Database.getTable tableName db = Some table →
  Table.notified o = false → Table.after o = table →
  Routes.call now tableName o db = db.
Proof.
  unfold Routes.call, Database.getTable. intros Hget -> ->.
  rewrite (Map_set_same _ _ _ Hget). apply with_tables_same.
Qed.

Lemma call_saved {R} (now tableName : string) (o : Table.Outcome R) (db : Database.t) :
  Database.isInitializing db = false →
  FileQueue.nextUid (Database.fileQueue (Routes.call now tableName o db))
  = FileQueue.nextUid (Database.fileQueue db) + (if Table.notified o then 1 else 0)
  ∧ Database.isInitializing (Routes.call now tableName o db) = false.
Proof.
  intros Hloaded. unfold Routes.call, Database.saveToFile. simpl. rewrite Hloaded.
  destruct (Table.notified o); simpl; [|split; [lia|done]].
  split; [|done]. unfold FileQueue.enqueue. simpl.
  destruct (FileQueue.isProcessing _); simpl; [lia|].
  unfold FileQueue.processQueue. simpl. destruct (_ ++ _); simpl; lia.
Qed.

(** X16. [POST /tables/:tableName/rows] answers 404 and changes nothing
    when there is no such table.  Otherwise it answers 200 exactly when
    the insert succeeds, and then the row is appended to the table the
    database holds; a row that fails validation is answered with 400 and
    the list of errors, which is not empty, and the database is left as it
    was. *)
Theorem insertRow_replies (now tableName : string) (body : RowData) (db : Database.t) :
  (Database.getTable tableName db = None →
     Routes.insertRow now tableName body db = (db, Returns (Routes.notFound tableName)))
  ∧ (∀ table r,
       Database.getTable tableName db = Some table →
       (Routes.insertRow now tableName body db).2 = Returns r →
       (Routes.status r = 200 ∨ Routes.status r = 400)
       ∧ (Routes.status r = 200 →
            Routes.success r = true
            ∧ ∃ row table',
                Database.getTable tableName (Routes.insertRow now tableName body db).1
                = Some table'
                ∧ Table.rows table' = Table.rows table ++ [row])
       ∧ (Routes.status r = 400 →
            Routes.success r = false
            ∧ (∃ e errs, Routes.errors r = Some (e :: errs))
            ∧ (Routes.insertRow now tableName body db).1 = db)).
Proof.
  unfold Routes.insertRow. split; [by intros ->|].
  intros table r Hget. rewrite Hget. simpl.
  pose proof (call_getTable now tableName (Table.insert body table) db) as Hafter.
  pose proof (call_unchanged now tableName (Table.insert body table) db table Hget)
    as Hsame.
  revert Hafter Hsame. unfold Table.insert.
  destruct (Table.validateRow body table) as [valid errs] eqn:Hvalid. simpl.
  destruct valid; simpl.
  - destruct (Table.buildRow body (Table.columns table)) as [row|e]; simpl; [|done].
    intros Hafter _ [= <-]. simpl. split; [by left|]. split; [|done].
    intros _. split; [done|]. exists row. eexists. split; [exact Hafter|done].
  - intros _ Hsame [= <-]. simpl. split; [by right|]. split; [done|].
    intros _. split; [done|]. split; [|by apply Hsame].
    unfold Table.validateRow in Hvalid. injection Hvalid as Hlen <-.
    destruct (flat_map _ _) as [|e errs]; [done|]. by exists e, errs.
Qed.

(** The loop of the bulk route: what it counts, stores and saves. *)
Lemma bulkLoop_counts (now tableName : string) (rows : list RowData) (index : nat)
    (table : Table.t) (db db' : Database.t) (successCount errorCount : nat)
    (errors : list string) (s e : nat) (errs : list string) :
  Database.getTable tableName db = Some table →
  Database.isInitializing db = false →
  Table.onChange table = true →
  Routes.bulkLoop now tableName rows index table db successCount errorCount errors
  = (db', Returns (s, e, errs)) →
  s + e = successCount + errorCount + length rows
  ∧ successCount ≤ s
  ∧ length errs + errorCount = length errors + e
  ∧ FileQueue.nextUid (Database.fileQueue db')
    = FileQueue.nextUid (Database.fileQueue db) + (s - successCount)
  ∧ (∀ other, other ≠ tableName →
       Database.getTable other db' = Database.getTable other db)
  ∧ ∃ table' stored,
      Database.getTable tableName db' = Some table'
      ∧ Table.rows table' = Table.rows table ++ stored
      ∧ length stored = s - successCount
      ∧ Table.columns table' = Table.columns table.
Proof.
  revert index table db successCount errorCount errors.
  induction rows as [|row rest IH];
    intros index table db successCount errorCount errors Hget Hloaded Hcb; simpl.
  - intros [= <- <- <- <-]. repeat split; try lia; try done.
    exists table, []. rewrite app_nil_r. simpl. split; [done|]. split; [done|]. split; [lia|done].
  - pose proof (call_getTable now tableName (Table.insert row table) db) as Hafter.
    pose proof (call_saved now tableName (Table.insert row table) db Hloaded)
      as [Hsaved Hloaded'].
    pose proof (insert_onChange row table) as Hcb'. rewrite Hcb in Hcb'.
    pose proof (insert_columns row table) as Hcols.
    assert (Hother : ∀ other, other ≠ tableName →
              Database.getTable other (Routes.call now tableName (Table.insert row table) db)
              = Database.getTable other db)
      by (intros other Hne; by apply call_getTable_other).
    revert Hafter Hsaved Hloaded' Hcb' Hcols Hother.
    generalize (Routes.call now tableName (Table.insert row table) db). intros db1.
    assert (Hinsert :
      match Table.completion (Table.insert row table) with
      | Returns result =>
          if Table.success result
          then Table.notified (Table.insert row table) = true
               ∧ ∃ stored, Table.rows (Table.after (Table.insert row table))
                           = Table.rows table ++ [stored]
          else Table.notified (Table.insert row table) = false
               ∧ Table.after (Table.insert row table) = table
      | Throws _ => True
      end).
    { unfold Table.insert. destruct (negb (Table.validateRow row table).1); simpl; [done|].
      destruct (Table.buildRow row (Table.columns table)) as [stored|err]; simpl; [|done].
      split; [done|]. by exists stored. }
    destruct (Table.completion (Table.insert row table)) as [result|err]; [|done].
    destruct (Table.success result).
    + destruct Hinsert as [Hnote (stored & Hrows)]. rewrite Hnote.
      intros Hafter Hsaved Hloaded' Hcb' Hcols Hother Hrun.
      destruct (IH _ _ _ _ _ _ Hafter Hloaded' Hcb' Hrun)
        as (Hsum & Hle & Herrs & Hq & Hothers & table' & more & Hget' & Hrows' & Hlen & Hcols').
      split; [lia|]. split; [lia|]. split; [lia|]. split; [lia|]. split.
      { intros other Hne. rewrite Hothers by done. by apply Hother. }
      exists table', (stored :: more). split; [done|]. split.
      { rewrite Hrows', Hrows, <- app_assoc. done. }
      split; [simpl; lia|]. by rewrite Hcols', Hcols.
    + destruct Hinsert as [Hnote Hsame]. rewrite Hnote, Hsame.
      intros Hafter Hsaved Hloaded' Hcb' Hcols Hother Hrun.
      destruct (IH _ _ _ _ _ _ Hafter Hloaded' Hcb Hrun)
        as (Hsum & Hle & Herrs & Hq & Hothers & table' & more & Hget' & Hrows' & Hlen & Hcols').
      rewrite length_app in Herrs. simpl in Herrs.
      split; [lia|]. split; [lia|]. split; [lia|]. split; [lia|]. split.
      { intros other Hne. rewrite Hothers by done. by apply Hother. }
      by exists table', more.
Qed.

(** X17. [POST /tables/:tableName/bulk] inserts the rows one by one, and is
    not all-or-nothing.  When it replies, it replies 200 whatever happened;
    [successCount] plus [errorCount] is the number of rows in the body,
    [errors] has one message per failed row, and [success] tells whether
    no row failed.  The table has grown by exactly [successCount] rows,
    appended after the rows it had, so the rows that passed stay even when
    others failed; every other table is untouched; and one snapshot was
    enqueued for each row that was stored. *)
Theorem bulkInsert_counts (now tableName : string) (rows : list RowData)
    (db db' : Database.t) (table : Table.t) (r : Routes.Reply) :
  DatabaseInv.reachable db →
  Database.getTable tableName db = Some table →
  Routes.bulkInsert now tableName (Some rows) db = (db', Returns r) →
  Routes.status r = 200
  ∧ ∃ s e errs,
      Routes.successCount r = Some s ∧ Routes.errorCount r = Some e
      ∧ Routes.errors r = Some errs
      ∧ s + e = length rows ∧ length errs = e
      ∧ Routes.success r = (e =? 0)
      ∧ FileQueue.nextUid (Database.fileQueue db')
        = FileQueue.nextUid (Database.fileQueue db) + s
      ∧ (∀ other, other ≠ tableName →
           Database.getTable other db' = Database.getTable other db)
      ∧ ∃ table' stored,
          Database.getTable tableName db' = Some table'
          ∧ Table.rows table' = Table.rows table ++ stored
          ∧ length stored = s.
Proof.
  intros HI%reachable_Inv Hget. unfold Routes.bulkInsert. rewrite Hget.
  destruct (getTable_ok _ _ _ HI Hget) as [_ Hcb].
  destruct (Routes.bulkLoop now tableName rows 0 table db 0 0 [])
    as [db1 [[[s e] errs]|err]] eqn:Hloop; simpl; [|done].
  intros [= <- <-]. simpl. split; [done|].
  destruct (bulkLoop_counts _ _ _ _ _ _ _ _ _ _ _ _ _ Hget (DatabaseInv.inv_loaded db HI)
              Hcb Hloop)
    as (Hsum & _ & Herrs & Hq & Hothers & table' & stored & Hget' & Hrows & Hlen & _).
  simpl in *. exists s, e, errs. rewrite Nat.sub_0_r in *.
  repeat split; try done; try lia. by exists table', stored.
Qed.

End RouteProperties.

Section RouteFilters.
Context `{DateEngine}.
#[local] Open Scope nat_scope.


Lemma whereEquals_spec (where_ row : RowData) :
  Routes.whereEquals where_ row = true
  ↔ ∀ key value, where_ !! key = Some value → strict_equals (get row key) value = true.
Proof.
  unfold Routes.whereEquals. rewrite forallb_forall. split.
  - intros Hall key value Hkey.
    by apply (Hall (key, value)), list_elem_of_In, elem_of_map_to_list.
  - intros Hall [key value] Hin%list_elem_of_In%elem_of_map_to_list. by apply Hall.
Qed.


(** What [delete] does, for the predicate in either form. *)
Lemma delete_effect (where_ : option (RowData → bool)) (tb : Table.t) :
  let p := fun row => match where_ with None => true | Some p => p row end in
  Table.rows (Table.after (Table.delete where_ tb))
  = List.filter (fun row => negb (p row)) (Table.rows tb)
  ∧ Table.completion (Table.delete where_ tb)
    = Returns (Table.mkResult true None
                 (Some (length (List.filter p (Table.rows tb)))) None).
Proof.
  intros p.
  assert (Ho : Table.delete where_ tb = Table.delete (Some p) tb)
    by (subst p; by destruct where_).
  rewrite Ho. split; [apply delete_rows|].
  unfold Table.delete. simpl. do 3 f_equal.
  unfold Table.indicesToDelete, Table.row_at.
  rewrite (found_count p (Table.rows tb) (length (Table.rows tb)) (le_n _)).
  by rewrite firstn_all.
Qed.

(** X18. [DELETE /tables/:tableName/rows] answers 404 and changes nothing
    when there is no such table.  Otherwise it always answers 200, with
    the number of rows removed in the message; the rows removed are those
    that hold, under every key of [where], a value strictly equal to the
    given one (all rows without a [where]); the other rows stay in order
    and every other table is untouched.  A [GET] of the rows with the same
    [where] then returns none. *)
Theorem deleteRows_removes_the_matching_rows (now tableName : string)
    (where_ : option RowData) (db : Database.t) :
  (Database.getTable tableName db = None →
     Routes.deleteRows now tableName where_ db
     = (db, Returns (Routes.notFound tableName)))
  ∧ (∀ table,
       Database.getTable tableName db = Some table →
       let matches := fun row =>
         match where_ with Some w => Routes.whereEquals w row | None => true end in
       let r := Routes.deleteRows now tableName where_ db in
       r.2 = Returns
               (Routes.with_message
                  (pretty (length (List.filter matches (Table.rows table)))
                     +:+ " row(s) deleted")
                  (Routes.reply 200 true))
       ∧ (∃ table',
            Database.getTable tableName r.1 = Some table'
            ∧ Table.rows table'
              = List.filter (fun row => negb (matches row)) (Table.rows table))
       ∧ (∀ other, other ≠ tableName →
            Database.getTable other r.1 = Database.getTable other db)
       ∧ Routes.selectRows tableName where_ r.1
         = Routes.with_data [] (Routes.reply 200 true))
  ∧ (∀ w row, Routes.whereEquals w row = true
              ↔ ∀ key value, w !! key = Some value →
                  strict_equals (get row key) value = true).
Proof.
  split; [unfold Routes.deleteRows; by intros ->|]. split; [|apply whereEquals_spec].
  intros table Hget matches r. subst r matches. unfold Routes.deleteRows.
  rewrite Hget. cbn [fst snd].
  destruct (delete_effect (Routes.whereEquals <$> where_) table) as [Hrows Hres].
  rewrite Hres. simpl. split; [by destruct where_|]. split; [|split].
  - eexists. split; [apply call_getTable|]. rewrite Hrows. by destruct where_.
  - intros other Hne. by apply call_getTable_other.
  - unfold Routes.selectRows. rewrite call_getTable. do 2 f_equal.
    unfold Table.select. rewrite Hrows. destruct where_ as [w|]; simpl.
    + apply filter_filter_negb.
    + generalize (Table.rows table). intros rs. by induction rs.
Qed.

(** X19. [DELETE /tables/:tableName/rows/:rowId] answers 400 and changes
    nothing when no column of the table is flagged as primary key.
    Otherwise the key is the first column so flagged, and the rows removed
    are exactly those whose value in it has [rowId] as its [String(...)];
    the reply is 200 and carries their number. *)
Theorem deleteRowById_removes_by_key (now tableName rowId : string)
    (db : Database.t) (table : Table.t) :
  Database.getTable tableName db = Some table →
  let r := Routes.deleteRowById now tableName rowId db in
  (Forall (λ c, Column.primaryKey c = false) (Table.columns table) →
     r = (db, Returns (Routes.with_message "Table has no primary key defined"
                         (Routes.reply 400 false))))
  ∧ (∀ before key after,
       Table.columns table = before ++ key :: after →
       Forall (λ c, Column.primaryKey c = false) before →
       Column.primaryKey key = true →
       let matches := fun row =>
         String.eqb (ToString (get row (Column.name key))) rowId in
       (∃ reply, r.2 = Returns reply ∧ Routes.status reply = 200
                 ∧ Routes.rowsAffected reply
                   = Some (length (List.filter matches (Table.rows table))))
       ∧ ∃ table',
           Database.getTable tableName r.1 = Some table'
           ∧ Table.rows table'
             = List.filter (fun row => negb (matches row)) (Table.rows table)).
Proof.
  intros Hget r. split.
  - subst r. unfold Routes.deleteRowById. rewrite Hget.
    intros Hnone. destruct (List.find _ _) as [c|] eqn:Hfind; [|done].
    apply find_some in Hfind as [Hc Hpk]. rewrite Forall_forall in Hnone.
    by rewrite (Hnone c (proj2 (list_elem_of_In _ _) Hc)) in Hpk.
  - intros before key after Hcols Hbefore Hkey matches.
    assert (Hfind : List.find Column.primaryKey (Table.columns table) = Some key).
    { rewrite Hcols. clear Hcols. induction before as [|c before IH]; simpl.
      - by rewrite Hkey.
      - apply Forall_cons_1 in Hbefore as [-> Hbefore]. by apply IH. }
    subst r. unfold Routes.deleteRowById. rewrite Hget, Hfind. cbn [fst snd].
    destruct (delete_effect (Some matches) table) as [Hrows Hres].
    fold matches. rewrite Hres. simpl. split.
    + eexists. split; [done|]. by split.
    + eexists. split; [apply call_getTable|exact Hrows].
Qed.

Lemma take_drop_all {X} (n : nat) (rows : list X) :
  take (Nat.min n (length rows)) rows = take n rows.
Proof.
  destruct (Nat.le_ge_cases n (length rows)).
  - by rewrite Nat.min_l.
  - rewrite Nat.min_r by done. by rewrite !take_ge.
Qed.

Lemma drop_min {X} (n : nat) (rows : list X) :
  drop (Nat.min n (length rows)) rows = drop n rows.
Proof.
  destruct (Nat.le_ge_cases n (length rows)).
  - by rewrite Nat.min_l.
  - rewrite Nat.min_r by done. by rewrite !drop_ge.
Qed.

Lemma relative_nat (len n : nat) :
  Routes.relative len (int (Z.of_nat n)) = Nat.min n len.
Proof.
  unfold Routes.relative, int. simpl. rewrite Z.quot_1_r.
  destruct (Z.ltb_spec (Z.of_nat n) 0); [lia|]. by rewrite Nat2Z.id.
Qed.

(** X20. [GET /tables/:tableName/data] never changes anything; it answers
    with [total], the number of rows of the table, whatever the page.
    With a limit that reads as a positive integer [n] and an offset that
    reads as [m], the page is the [n] rows after the first [m].  A limit
    that reads as zero or does not read as a number is no limit at all:
    the reply holds every row from the offset on.  A limit that reads as
    [-k] yields all rows but the last [k]. *)
Theorem getData_pages (tableName : string) (limit offset : option string)
    (db : Database.t) (table : Table.t) :
  Database.getTable tableName db = Some table →
  let r := Routes.getData tableName limit offset db in
  let rows := Table.rows table in
  Routes.status r = 200
  ∧ Routes.total r = Some (length rows)
  ∧ (∀ l o n m,
       Routes.given limit = Some l → parseInt (Str l) = int (Z.of_nat n) → 0 < n →
       Routes.given offset = Some o → parseInt (Str o) = int (Z.of_nat m) →
       Routes.data r = Some (take n (drop m rows)))
  ∧ (∀ l,
       Routes.given limit = Some l →
       parseInt (Str l) = int 0 ∨ parseInt (Str l) = NaN →
       Routes.given offset = None →
       Routes.data r = Some rows)
  ∧ (Routes.given limit = None → Routes.given offset = None →
       Routes.data r = Some rows)
  ∧ (∀ l k,
       Routes.given limit = Some l → parseInt (Str l) = int (- Z.of_nat k) → 0 < k →
       Routes.given offset = None →
       Routes.data r = Some (take (length rows - k) rows)).
Proof.
  intros Hget r rows. subst r. unfold Routes.getData. rewrite Hget. simpl.
  split; [done|]. split; [done|]. split; [|split; [|split]].
  - intros l o n m -> Hl Hn -> Ho. simpl. rewrite Hl, Ho. simpl.
    assert (Hn' : negb (Z.of_nat n =? 0)%Z = true)
      by (apply negb_true_iff, Z.eqb_neq; lia).
    rewrite Hn'. unfold Routes.slice_to, Routes.slice_from.
    destruct (Z.ltb_spec 0 (Z.of_nat m)).
    + rewrite !relative_nat, take_drop_all, drop_min. done.
    + assert (m = 0) as -> by lia. rewrite relative_nat, take_drop_all. done.
  - intros l -> Hl ->. simpl. by destruct Hl as [-> | ->].
  - by intros -> ->.
  - intros l k -> Hl Hk ->. simpl. rewrite Hl. simpl.
    assert (Hk' : negb (- Z.of_nat k =? 0)%Z = true)
      by (apply negb_true_iff, Z.eqb_neq; lia).
    rewrite Hk'. unfold Routes.slice_to, Routes.relative, int. simpl.
    rewrite Z.quot_1_r. destruct (Z.ltb_spec (- Z.of_nat k) 0); [|lia].
    do 2 f_equal. fold rows. lia.
Qed.

End RouteFilters.

Section UpdateRoute.
Context `{DateEngine}.
#[local] Open Scope nat_scope.



End UpdateRoute.

(** *** Closed instances *)

Lemma bulkInsert_counts_witness :
  DatabaseInv.reachable Scenario.shop1
  ∧ Database.getTable "users" Scenario.shop1 = Some Scenario.users
  ∧ ∃ r, (Routes.bulkInsert Scenario.today "users" (Some Scenario.bulk_rows)
            Scenario.shop1).2 = Returns r
         ∧ Routes.status r = 200.
Proof.
  assert (Hget : Database.getTable "users" Scenario.shop1 = Some Scenario.users)
    by (vm_compute; reflexivity).
  assert (Hrun : ∃ db' r,
             Routes.bulkInsert Scenario.today "users" (Some Scenario.bulk_rows)
               Scenario.shop1 = (db', Returns r))
    by (vm_compute; eauto).
  destruct Hrun as (db' & r & Hrun).
  split; [exact shop1_reachable|]. split; [exact Hget|].
  exists r. split; [by rewrite Hrun|].
  exact (proj1 (bulkInsert_counts Scenario.today "users" Scenario.bulk_rows
                  Scenario.shop1 db' Scenario.users r shop1_reachable Hget Hrun)).
Defined.

Lemma deleteRowById_removes_by_key_witness :
  Database.getTable "items" Scenario.stock1 = Some Scenario.items1
  ∧ ∃ table',
      Database.getTable "items"
        (Routes.deleteRowById Scenario.today "items" "1" Scenario.stock1).1 = Some table'
      ∧ Table.rows table'
        = List.filter
            (fun row => negb (String.eqb (ToString (get row "id")) "1"))
            (Table.rows Scenario.items1).
Proof.
  split; [reflexivity|].
  exact (proj2 (proj2 (deleteRowById_removes_by_key Scenario.today "items" "1"
                         Scenario.stock1 Scenario.items1 eq_refl)
                  [] (Column.new "id" "INTEGER" (Some true) (Some false) None Undefined) []
                  eq_refl (Forall_nil_2 _) eq_refl)).
Defined.

Lemma getData_pages_witness :
  (∃ table, Database.getTable "users" Scenario.shop3 = Some table
            ∧ Routes.data (Routes.getData "users" (Some "1") (Some "1") Scenario.shop3)
              = Some (take 1 (drop 1 (Table.rows table))))
  ∧ Routes.given (Some "1") = Some "1"
  ∧ parseInt (Str "1") = int 1.
Proof.
  assert (Hget : ∃ table, Database.getTable "users" Scenario.shop3 = Some table)
    by (vm_compute; eauto).
  destruct Hget as [table Hget].
  assert (Hint : parseInt (Str "1") = int 1) by (vm_compute; reflexivity).
  split; [|split; [reflexivity|exact Hint]].
  exists table. split; [exact Hget|].
  exact (proj1 (proj2 (proj2 (getData_pages "users" (Some "1") (Some "1") Scenario.shop3
                                table Hget)))
           "1" "1" 1%nat 1%nat eq_refl Hint (le_n 1) eq_refl Hint).
Defined.

(** ** What a column stores, and when a method throws *)

Section ColumnStorage.
Context `{DateEngine}.
#[local] Open Scope nat_scope.

Lemma normalize_zero (m : Z) (k : nat) : (normalize m k).1 = 0%Z ↔ m = 0%Z.
Proof.
  revert m. induction k as [|k IH]; intros m; simpl; [done|].
  destruct (Z.eqb_spec (m mod 10) 0) as [Hm|Hm]; [|done].
  rewrite IH. apply Z.mod_divide in Hm; [|lia]. destruct Hm as [q ->].
  rewrite Z.div_mul by lia. lia.
Qed.

Lemma strict_equals_Str (v : Value) (s : string) :
  strict_equals v (Str s) = true → v = Str s.
Proof. destruct v as [| |?|[]|?|[[] ? ?]]; simpl; try done. by intros ->%String.eqb_eq. Qed.

Lemma strict_equals_zero (v : Value) :
  strict_equals v (Number (int 0)) = true ↔ ∃ k, v = Number (Finite 0 k).
Proof.
  split.
  - destruct v as [| |?|[| |m k]|?|[[] ? ?]]; simpl; try done.
    destruct (normalize m k) as [m' k'] eqn:Hnorm.
    intros [->%Z.eqb_eq _]%andb_true_iff. exists k.
    by rewrite (proj1 (normalize_zero m k)) by (by rewrite Hnorm).
  - intros [k ->]. simpl. destruct (normalize 0 k) as [m' k'] eqn:Hnorm.
    assert (Hm : (normalize 0 k).1 = 0%Z) by (by apply normalize_zero).
    assert (Hk : (normalize 0 k).2 = 0) by (apply normalize_integral, Z.divide_0_r).
    rewrite Hnorm in Hm, Hk. simpl in *. by subst.
Qed.

Lemma strict_equals_one (v : Value) :
  strict_equals v (Number (int 1)) = true →
  ∃ m k, v = Number (Finite m k) ∧ m ≠ 0%Z.
Proof.
  destruct v as [| |?|[| |m k]|?|[[] ? ?]]; simpl; try done.
  destruct (normalize m k) as [m' k'] eqn:Hnorm.
  intros [->%Z.eqb_eq _]%andb_true_iff. exists m, k. split; [done|].
  intros ->. assert (Hm : (normalize 0 k).1 = 0%Z) by (by apply normalize_zero).
  by rewrite Hnorm in Hm.
Qed.

(** What a BOOLEAN column accepts, and what it stores for it. *)
Lemma boolean_storage (c : Column.t) (v : Value) :
  Column.type c = "BOOLEAN" → nullish v = false → Column.validate c v = true →
  ((∃ b, v = Boolean b) ∨ v = Str "true" ∨ v = Str "false"
   ∨ strict_equals v (Number (int 0)) = true
   ∨ strict_equals v (Number (int 1)) = true)
  ∧ ∃ b, Column.serialize c v = Returns (Boolean b)
         ∧ (b = false ↔ v = Boolean false
                        ∨ strict_equals v (Number (int 0)) = true).
Proof.
  intros Htype Hv. unfold Column.validate, Column.serialize. rewrite Hv, Htype. simpl.
  intros Hvalid.
  apply orb_true_iff in Hvalid as [Hvalid|Hone];
    [apply orb_true_iff in Hvalid as [Hvalid|Hzero];
      [apply orb_true_iff in Hvalid as [Hvalid|Hfalse];
        [apply orb_true_iff in Hvalid as [Hbool|Htrue]|]|]|].
  - destruct v as [| |b|?|?|[[] ? ?]]; try done. split; [left; by exists b|].
    exists b. split; [done|]. split; [intros ->; by left|]. by intros [[= ->]|?].
  - apply strict_equals_Str in Htrue as ->. split; [right; by left|].
    exists true. split; [done|]. split; [done|]. by intros [?|?].
  - apply strict_equals_Str in Hfalse as ->. split; [right; right; by left|].
    exists true. split; [done|]. split; [done|]. by intros [?|?].
  - split; [do 3 right; by left|]. exists false.
    pose proof (proj1 (strict_equals_zero v) Hzero) as [k ->].
    split; [done|]. split; [by right|done].
  - split; [do 4 right; done|]. exists true.
    destruct (strict_equals_one v Hone) as (m & k & -> & Hm). split.
    + simpl. by destruct (Z.eqb_spec m 0).
    + split; [done|]. intros [?|[k' [= -> _]]%strict_equals_zero]; done.
Qed.

(** X22. What is stored for a value a column accepted.  A STRING column
    stores the value itself.  A BOOLEAN column accepts the booleans, the
    strings ["true"] and ["false"] and the numbers 0 and 1, and stores
    [false] for [false] and 0 only -- the accepted string ["false"] is
    stored as [true].  A DATE column given a string stores the ISO
    rendering of the time the string parses to, and never throws.  What a
    STRING or BOOLEAN column stored is accepted by it again, and storing
    it once more changes nothing. *)
Theorem column_stores_accepted_values (c : Column.t) (v : Value) :
  Column.validate c v = true →
  nullish v = false →
  (Column.type c = "STRING" →
     Column.serialize c v = Returns v ∧ ∃ s, v = Str s)
  ∧ (Column.type c = "BOOLEAN" →
       (∃ b, v = Boolean b) ∨ v = Str "true" ∨ v = Str "false"
       ∨ strict_equals v (Number (int 0)) = true
       ∨ strict_equals v (Number (int 1)) = true)
  ∧ (Column.type c = "BOOLEAN" →
       ∃ b, Column.serialize c v = Returns (Boolean b)
            ∧ (b = false ↔ v = Boolean false ∨ strict_equals v (Number (int 0)) = true))
  ∧ (Column.type c = "DATE" → ∀ s, v = Str s →
       ∃ t, Date_parse s = Some t
            ∧ Column.serialize c v = Returns (Str (Date_toISOString t)))
  ∧ (Column.type c = "STRING" ∨ Column.type c = "BOOLEAN" →
       ∃ w, Column.serialize c v = Returns w
            ∧ Column.validate c w = true
            ∧ Column.serialize c w = Returns w).
Proof.
  intros Hvalid Hv.
  assert (Hstring : Column.type c = "STRING" →
            Column.serialize c v = Returns v ∧ ∃ s, v = Str s).
  { intros Htype. revert Hvalid. unfold Column.validate, Column.serialize.
    rewrite Hv, Htype. simpl.
    destruct v as [| |b|n|s|[[] ? ?]]; try done. intros _. split; [done|by exists s]. }
  pose proof (fun Htype => boolean_storage c v Htype Hv Hvalid) as Hbool.
  split; [exact Hstring|]. split; [by intros [? _]%Hbool|].
  split; [by intros [_ ?]%Hbool|]. split.
  - intros Htype s ->. revert Hvalid. unfold Column.validate, Column.serialize.
    rewrite Htype. simpl. rewrite orb_false_r.
    destruct (Date_parse s) as [t|]; [|done]. intros _. by exists t.
  - intros [Htype|Htype].
    + destruct (Hstring Htype) as [Hser [s ->]]. exists (Str s).
      split; [done|]. split; [|done].
      unfold Column.validate. rewrite Htype. done.
    + destruct (Hbool Htype) as [_ (b & Hser & _)]. exists (Boolean b).
      split; [done|]. split.
      * unfold Column.validate. rewrite Htype. done.
      * unfold Column.serialize. rewrite Htype. done.
Qed.

(** [serialize] throws for one reason only. *)
Lemma serialize_throws (c : Column.t) (v : Value) (e : Error) :
  Column.serialize c v = Throws e
  ↔ e = RangeError "Invalid time value"
    ∧ Column.type c = "DATE" ∧ nullish v = false ∧ new_Date v = None.
Proof.
  unfold Column.serialize. split.
  - destruct (nullish v); [discriminate|].
    destruct (String.eqb (Column.type c) "INTEGER"); [discriminate|].
    destruct (String.eqb (Column.type c) "FLOAT"); [discriminate|].
    destruct (String.eqb (Column.type c) "BOOLEAN"); [discriminate|].
    destruct (String.eqb (Column.type c) "STRING"); [discriminate|].
    destruct (String.eqb_spec (Column.type c) "DATE") as [Htype|]; [|discriminate].
    destruct (new_Date v); [discriminate|]. by intros [= <-].
  - intros (-> & Htype & -> & ->). by rewrite Htype.
Qed.

(** A loop whose body throws, for an element, whatever the state. *)
Lemma foldM_throws {X S} (f : S → X → Completion S) (P : X → Prop) (e0 : Error) :
  (∀ s x, (∃ e, f s x = Throws e) ↔ P x) →
  (∀ s x e, f s x = Throws e → e = e0) →
  ∀ xs s e, foldM f xs s = Throws e ↔ e = e0 ∧ ∃ x, In x xs ∧ P x.
Proof.
  intros Hbad Hsame xs. induction xs as [|x xs IH]; intros s e; simpl.
  - split; [done|]. by intros (_ & x & [] & _).
  - destruct (f s x) as [s'|e'] eqn:Hstep; simpl.
    + rewrite IH. split; intros (He & y & Hin & Hy).
      * split; [done|]. exists y. split; [by right|done].
      * split; [done|]. exists y. split; [|done].
        destruct Hin as [<-|Hin]; [|done].
        apply (Hbad s) in Hy as [e'' Hthrow]. congruence.
    + pose proof (Hsame s x e' Hstep) as ->. split.
      * intros [= <-]. split; [done|]. exists x. split; [by left|].
        apply (Hbad s). eauto.
      * by intros (-> & _).
Qed.

(** A key of the updates whose value cannot be stored: it names a DATE
    column and is no date. *)
Lemma applyUpdates_throws (updates row : RowData) (cols : list Column.t) (e : Error) :
  Table.applyUpdates updates row cols = Throws e
  ↔ e = RangeError "Invalid time value"
    ∧ ∃ key,
        In key (Table.keys updates)
        ∧ ∃ c, List.find (fun c => String.eqb (Column.name c) key) cols = Some c
               ∧ Column.type c = "DATE"
               ∧ nullish (get updates key) = false
               ∧ new_Date (get updates key) = None.
Proof.
  unfold Table.applyUpdates. apply foldM_throws.
  - intros updatedRow key. destruct (List.find _ cols) as [column|]; simpl.
    2: { split; [by intros [? ?]|by intros (? & ? & _)]. }
    destruct (strict_equals (get updates key) Undefined) eqn:Hundef; simpl.
    { split; [by intros [? ?]|]. intros (c & _ & _ & Hnull & _).
      by destruct (get updates key) as [| |?|[]|?|[[] ? ?]]. }
    destruct (Column.serialize column (get updates key)) as [value|e'] eqn:Hser; simpl.
    + split; [by intros [? ?]|]. intros (c & [= <-] & Htype & Hnull & Hdate).
      assert (Hthrow : Column.serialize column (get updates key)
                       = Throws (RangeError "Invalid time value"))
        by (by apply serialize_throws).
      congruence.
    + apply serialize_throws in Hser as (-> & Htype & Hnull & Hdate).
      split; [|eauto]. intros _. by exists column.
  - intros updatedRow key e'. destruct (List.find _ cols) as [column|]; simpl; [|done].
    destruct (negb _); simpl; [|done].
    destruct (Column.serialize column (get updates key)) as [value|e''] eqn:Hser;
      simpl; [done|].
    apply serialize_throws in Hser as (-> & _). by intros [= <-].
Qed.

Lemma updateLoop_returns (updates : RowData) (cols : list Column.t)
    (candidates : list (nat * RowData)) (tb : Table.t) (affected : nat)
    (errors : list string) :
  (∀ row e, Table.applyUpdates updates row cols ≠ Throws e) →
  Table.columns tb = cols →
  ∃ res, (Table.updateLoop updates candidates tb affected errors).2 = Returns res.
Proof.
  intros Hnever. revert tb affected errors.
  induction candidates as [|[index row] rest IH]; intros tb affected errors Hcols; simpl.
  - eauto.
  - rewrite Hcols.
    destruct (Table.applyUpdates updates row cols) as [updatedRow|e] eqn:Hrun;
      [|by apply Hnever in Hrun].
    simpl. match goal with
           | |- context [if negb ?c then _ else _] => destruct c
           end; simpl; by apply IH.
Qed.

(** [update] either throws on the first row it selected, before changing
    anything, or does not throw at all. *)
Lemma update_throws (updates : RowData) (where_ : option (RowData → bool))
    (tb : Table.t) (e : Error) :
  Table.completion (Table.update updates where_ tb) = Throws e →
  Table.update updates where_ tb = Table.mkOutcome tb (Throws e) false
  ∧ ∃ index row rest,
      Table.rowsToUpdate where_ tb = (index, row) :: rest
      ∧ Table.applyUpdates updates row (Table.columns tb) = Throws e.
Proof.
  unfold Table.update.
  destruct (Table.rowsToUpdate where_ tb) as [|[index row] rest] eqn:Hcands; [done|].
  destruct (Table.applyUpdates updates row (Table.columns tb)) as [updatedRow|e']
    eqn:Hrun.
  - assert (Hnever : ∀ row' e'',
              Table.applyUpdates updates row' (Table.columns tb) ≠ Throws e'').
    { intros row' e'' Hthrow. apply applyUpdates_throws in Hthrow as [-> Hbad].
      assert (Hrow : Table.applyUpdates updates row (Table.columns tb)
                     = Throws (RangeError "Invalid time value"))
        by (by apply applyUpdates_throws).
      congruence. }
    destruct (updateLoop_returns updates (Table.columns tb) ((index, row) :: rest) tb 0 []
                Hnever eq_refl) as [[affected errs] Hres].
    destruct (Table.updateLoop updates ((index, row) :: rest) tb 0 [])
      as [tb' [[a errs']|e'']]; simpl in *; done.
  - simpl. rewrite Hrun. simpl. intros [= ->]. split; [done|]. by exists index, row, rest.
Qed.


End ColumnStorage.

(** *** Closed instances *)

Lemma column_stores_accepted_values_witness :
  let flag := Column.new "flag" "BOOLEAN" None None None Undefined in
  Column.validate flag (Str "false") = true
  ∧ nullish (Str "false") = false
  ∧ ∃ b, Column.serialize flag (Str "false") = Returns (Boolean b)
         ∧ (b = false ↔ Str "false" = Boolean false
                        ∨ strict_equals (Str "false") (Number (int 0)) = true).
Proof.
  split; [reflexivity|]. split; [reflexivity|].
  exact (proj1 (proj2 (proj2 (column_stores_accepted_values
                                (Column.new "flag" "BOOLEAN" None None None Undefined)
                                (Str "false") eq_refl eq_refl)))
           eq_refl).
Defined.

(** ** Indexes of tables without deletions *)

Section IndexCompleteness.
Context `{DateEngine}.
#[local] Open Scope nat_scope.

Import TableInv.

Implicit Types (ix : gmap string Table.Index) (index : Table.Index)
  (cn : string) (k v : Value) (i j : nat).

Lemma grown_reachable (tb : Table.t) : grown tb → reachable tb.
Proof. induction 1; by constructor. Qed.

(** [removeFromIndex] for one position keeps the others. *)
Lemma removeFromIndex_keeps cn cn' v v' i j ix index (l : list nat) :
  ix !! cn' = Some index → distinct_keys index →
  Map_get v' index = Some l → In j l → j ≠ i →
  ∃ index' l', Table.removeFromIndex cn v i ix !! cn' = Some index'
               ∧ distinct_keys index'
               ∧ Map_get v' index' = Some l' ∧ In j l'.
Proof.
  intros Hix Hdist Hget Hin Hne. unfold Table.removeFromIndex.
  destruct (ix !! cn) as [index0|] eqn:Hcn; [|by exists index, l].
  destruct (Map_get v index0) as [indices|] eqn:Hv; [|by exists index, l].
  destruct (decide (cn = cn')) as [<-|Hcn'].
  2: { rewrite lookup_insert_ne by done. by exists index, l. }
  assert (index0 = index) as -> by congruence. rewrite lookup_insert_eq.
  destruct (same_value_zero v v') eqn:Hsame.
  - rewrite (Map_get_same v v' index Hsame) in Hv.
    assert (indices = l) as -> by congruence.
    assert (Hkept : In j (filter (λ i0, i0 ≠ i) l))
      by (by apply list_elem_of_In, list_elem_of_filter; split; [|apply list_elem_of_In]).
    destruct (filter (λ i0, i0 ≠ i) l) as [|x rest] eqn:Hfilter; [done|]. simpl.
    eexists _, _. split; [done|]. split; [by apply Map_set_distinct|].
    by rewrite Map_get_set, Hsame.
  - destruct (length (filter (λ i0, i0 ≠ i) indices) =? 0).
    + eexists _, l. split; [done|]. split; [by apply Map_delete_distinct|].
      by rewrite Map_get_delete, Hsame.
    + eexists _, l. split; [done|]. split; [by apply Map_set_distinct|].
      by rewrite Map_get_set, Hsame.
Qed.

Lemma fold_removeFromIndex_keeps (entries : list (string * Value)) cn' v' i j ix index
    (l : list nat) :
  ix !! cn' = Some index → distinct_keys index →
  Map_get v' index = Some l → In j l → j ≠ i →
  ∃ index' l',
    fold_left (λ ix nv, Table.removeFromIndex nv.1 nv.2 i ix) entries ix !! cn'
    = Some index'
    ∧ Map_get v' index' = Some l' ∧ In j l'.
Proof.
  revert ix index l. induction entries as [|[n v] entries IH];
    intros ix index l Hix Hdist Hget Hin Hne; simpl; [by exists index, l|].
  destruct (removeFromIndex_keeps n cn' v v' i j ix index l Hix Hdist Hget Hin Hne)
    as (index1 & l1 & Hix1 & Hdist1 & Hget1 & Hin1).
  by apply (IH _ index1 l1).
Qed.

Lemma removeFromIndex_other cn cn' v i ix :
  cn ≠ cn' → Table.removeFromIndex cn v i ix !! cn' = ix !! cn'.
Proof.
  intros Hne. unfold Table.removeFromIndex.
  destruct (ix !! cn) as [index|]; [|done].
  destruct (Map_get v index); [|done]. by rewrite lookup_insert_ne.
Qed.

Lemma fold_removeFromIndex_other (entries : list (string * Value)) cn' i ix :
  (∀ v, ¬ In (cn', v) entries) →
  fold_left (λ ix nv, Table.removeFromIndex nv.1 nv.2 i ix) entries ix !! cn' = ix !! cn'.
Proof.
  revert ix. induction entries as [|[n v] entries IH]; intros ix Hnot; simpl; [done|].
  rewrite IH.
  - apply removeFromIndex_other. intros ->. apply (Hnot v). by left.
  - intros v' Hin. apply (Hnot v'). by right.
Qed.

Lemma new_indexes_full (name : string) (cols : list Column.t)
    (primaryKeyColumn : option string) (onChange : bool) :
  indexes_full (Table.new name cols primaryKeyColumn onChange).
Proof.
  split.
  - apply reachable_indexed_dom. constructor.
  - intros cn index. simpl. rewrite createIndexes_lookup.
    destruct (existsb _ _); [|done]. by intros [= <-].
  - by intros i row c.
Qed.

Lemma indexed_has_map (tb : Table.t) (c : Column.t) :
  indexed_dom tb → In c (Table.columns tb) → Column.indexed c = true →
  is_Some (Table.indexes tb !! Column.name c).
Proof.
  intros Hdom Hc Hix. apply Hdom, existsb_exists. exists c. split; [done|].
  unfold Table.indexedAs. by rewrite Hix, String.eqb_refl.
Qed.

Lemma insert_indexes_full (data : RowData) (tb : Table.t) :
  indexes_full tb → indexes_full (Table.after (Table.insert data tb)).
Proof.
  intros [Hdom Hdist Hcomplete]. split; [by apply insert_indexed_dom| |].
  - unfold Table.insert. destruct (negb (Table.validateRow data tb).1); [done|].
    destruct (Table.buildRow data (Table.columns tb)) as [row|e]; [|done]. simpl.
    intros cn index'. rewrite indexRow_fold.
    intros (index & Hix & Hd & _)%fold_updateIndex_spec. eauto.
  - unfold Table.insert. destruct (negb (Table.validateRow data tb).1); [done|].
    destruct (Table.buildRow data (Table.columns tb)) as [row|e]; [|done].
    intros i stored c. cbn [Table.after Table.rows Table.columns Table.indexes
                            Table.with_rows Table.with_indexes].
    intros Hstored Hc Hindexed. rewrite indexRow_fold.
    apply lookup_app_Some in Hstored as [Hold|[Hlen Hnew]].
    + destruct (Hcomplete i stored c Hold Hc Hindexed) as (index & l & Hix & Hget & Hin).
      by apply (fold_updateIndex_keeps _ _ _ _ _ _ index l).
    + assert (i = length (Table.rows tb) ∧ stored = row) as [-> ->].
      { destruct (i - length (Table.rows tb)) eqn:Hi; simpl in Hnew; [|done].
        split; [lia|congruence]. }
      apply fold_updateIndex_records.
      * apply In_index_entries. split; [done|]. apply existsb_exists. exists c.
        split; [done|]. unfold Table.indexedAs. by rewrite Hindexed, String.eqb_refl.
      * by apply indexed_has_map.
Qed.

(** One pass of the loop of [update] over a row that passed validation. *)
Lemma update_row_indexes_full (tb : Table.t) (index : nat) (row updatedRow : RowData) :
  indexes_full tb →
  Table.rows tb !! index = Some row →
  let changed := Table.changedIndexedColumns row updatedRow (Table.columns tb) in
  indexes_full
    (Table.with_indexes
       (fold_left (fun ix '(name, _, newValue) => Table.updateIndex name newValue index ix)
          changed
          (fold_left
             (fun ix '(name, oldValue, _) => Table.removeFromIndex name oldValue index ix)
             changed (Table.indexes tb)))
       (Table.with_rows (<[index := updatedRow]> (Table.rows tb)) tb)).
Proof.
  intros [Hdom Hdist Hcomplete] Hrow changed.
  rewrite changed_old_fold, changed_new_fold.
  split.
  - intros cn. simpl. rewrite fold_updateIndex_dom, fold_removeFromIndex_dom. apply Hdom.
  - intros cn index2. simpl.
    intros (index1 & (index0 & Hix & Hd0 & _)%fold_removeFromIndex_spec & Hd1 & _)
      %fold_updateIndex_spec. apply Hd1, Hd0, (Hdist cn), Hix.
  - intros j stored c. cbn [Table.rows Table.columns Table.indexes
                            Table.with_rows Table.with_indexes].
    intros Hstored Hc Hindexed.
    destruct (decide (j = index)) as [->|Hne].
    + rewrite list_lookup_insert_eq in Hstored by (by apply lookup_lt_Some in Hrow).
      injection Hstored as <-.
      destruct (strict_equals (get row (Column.name c)) (get updatedRow (Column.name c)))
        eqn:Hse.
      * destruct (Hcomplete index row c Hrow Hc Hindexed) as (index0 & l & Hix & Hget & Hin).
        pose proof (strict_equals_same_value_zero _ _ Hse) as Hsame.
        rewrite (Map_get_same _ _ index0 Hsame) in Hget.
        apply (fold_updateIndex_keeps _ _ _ _ _ _ index0 l); [|done|done].
        rewrite fold_removeFromIndex_other; [done|].
        intros v ([[n o] w] & [= -> ->] & Hin')%in_map_iff.
        apply In_changedIndexedColumns in Hin' as (_ & _ & _ & Hchanged). congruence.
      * apply fold_updateIndex_records.
        -- apply in_map_iff.
           exists (Column.name c, get row (Column.name c), get updatedRow (Column.name c)).
           split; [done|]. apply In_changedIndexedColumns. repeat split; [|done].
           apply existsb_exists. exists c. split; [done|].
           unfold Table.indexedAs. by rewrite Hindexed, String.eqb_refl.
        -- apply fold_removeFromIndex_dom. by apply indexed_has_map.
    + rewrite list_lookup_insert_ne in Hstored by done.
      destruct (Hcomplete j stored c Hstored Hc Hindexed) as (index0 & l & Hix & Hget & Hin).
      destruct (fold_removeFromIndex_keeps
                  (map (λ change, (change.1.1, change.1.2)) changed)
                  (Column.name c) (get stored (Column.name c)) index j
                  (Table.indexes tb) index0 l Hix (Hdist _ _ Hix) Hget Hin Hne)
        as (index1 & l1 & Hix1 & Hget1 & Hin1).
      by apply (fold_updateIndex_keeps _ _ _ _ _ _ index1 l1).
Qed.

Lemma updateLoop_indexes_full (updates : RowData) (candidates : list (nat * RowData))
    (tb : Table.t) (affected : nat) (errors : list string) :
  indexes_full tb →
  NoDup (map fst candidates) →
  (∀ i row, In (i, row) candidates → Table.rows tb !! i = Some row) →
  indexes_full (Table.updateLoop updates candidates tb affected errors).1.
Proof.
  revert tb affected errors.
  induction candidates as [|[index row] rest IH];
    intros tb affected errors Hok Hnodup Hcands; simpl; [done|].
  apply NoDup_cons in Hnodup as [Hfresh Hnodup]. simpl in Hfresh.
  destruct (Table.applyUpdates updates row (Table.columns tb)) as [updatedRow|e];
    simpl; [|done].
  match goal with
  | |- context [if negb ?c then _ else _] => destruct c
  end; simpl.
  - apply IH; [|done|].
    + apply (update_row_indexes_full tb index row updatedRow Hok). apply Hcands. by left.
    + intros i row' Hin. simpl. rewrite list_lookup_insert_ne.
      * apply Hcands. by right.
      * intros <-. apply Hfresh, list_elem_of_In, in_map_iff. by exists (index, row').
  - apply IH; [done|done|]. intros i row' Hin. apply Hcands. by right.
Qed.

Lemma grown_indexes_full (tb : Table.t) : grown tb → indexes_full tb.
Proof.
  induction 1 as [name cols pk cb|data tb _ IH|updates where_ tb _ IH|cb tb _ IH].
  - apply new_indexes_full.
  - by apply insert_indexes_full.
  - pose proof (updateLoop_indexes_full updates (Table.rowsToUpdate where_ tb) tb 0 [] IH
                  (rowsToUpdate_NoDup where_ tb) (rowsToUpdate_lookup where_ tb)) as Hloop.
    unfold Table.update.
    by destruct (Table.updateLoop updates (Table.rowsToUpdate where_ tb) tb 0 [])
      as [tb' [[affected errs]|e]].
  - by destruct IH.
Qed.

(** X24. As long as no row was deleted from a table, its indexes are
    complete: every stored row is found through every primary-key or unique
    column, that is, [findByIndex] with the value the row holds in the
    column returns the row.  Only [delete] can make an index lose a row
    that is stored. *)
Theorem findByIndex_finds_every_row_before_a_delete (tb : Table.t) (i : nat)
    (row : RowData) (c : Column.t) :
  grown tb →
  Table.rows tb !! i = Some row →
  In c (Table.columns tb) →
  Column.indexed c = true →
  In row (Table.findByIndex (Column.name c) (get row (Column.name c)) tb).
Proof.
  intros [_ _ Hcomplete]%grown_indexes_full Hrow Hc Hindexed.
  destruct (Hcomplete i row c Hrow Hc Hindexed) as (index & l & Hix & Hget & Hin).
  unfold Table.findByIndex. rewrite Hix, Hget. apply in_map_iff. exists i.
  split; [|done]. unfold Table.row_at. by rewrite Hrow.
Qed.

End IndexCompleteness.

(** *** Closed instances *)

Lemma findByIndex_finds_every_row_before_a_delete_witness :
  TableInv.grown Scenario.users1
  ∧ Table.rows Scenario.users1 !! 0%nat = Some (Scenario.user 1 "a")
  ∧ In (Scenario.user 1 "a")
      (Table.findByIndex "id" (Scenario.num 1) Scenario.users1).
Proof.
  assert (Hgrown : TableInv.grown Scenario.users1)
    by apply TableInv.grow_insert, TableInv.grow_new.
  split; [exact Hgrown|]. split; [reflexivity|].
  exact (findByIndex_finds_every_row_before_a_delete Scenario.users1 0
           (Scenario.user 1 "a")
           (Column.new "id" "INTEGER" (Some false) (Some true) None Undefined)
           Hgrown eq_refl (or_introl eq_refl) eq_refl).
Defined.

(** ** Saving and restoring a schema *)

Section SchemaRoundTrip.
Context `{DateEngine}.
#[local] Open Scope nat_scope.

Lemma restoreRows_columns (rows : list RowData) (table table' : Table.t) :
  Database.restoreRows rows table = Returns table' →
  Table.columns table' = Table.columns table
  ∧ Table.name table' = Table.name table
  ∧ Table.primaryKeyColumn table' = Table.primaryKeyColumn table.
Proof.
  revert table. induction rows as [|rowData rows IH]; intros table; simpl.
  - by intros [= <-].
  - pose proof (insertWithoutNotify_after table rowData) as Hafter.
    destruct (Database.insertWithoutNotify table rowData) as [table1 [r|e]]; [|done].
    simpl in Hafter. intros (Hcols & Hname & Hpk)%IH.
    rewrite Hcols, Hname, Hpk, Hafter. unfold Table.insert.
    destruct (negb (Table.validateRow rowData table).1); [done|].
    by destruct (Table.buildRow rowData (Table.columns table)).
Qed.

(** X25. A schema survives a save and a restart.  The table restored from
    the saved form of a table -- the entry [toJSON] writes for it, read
    back from the file -- has the same name, the same primary-key column
    and the same columns, with name, type and flags as they were; a default
    value that JSON cannot represent ([undefined], [NaN], an infinity)
    comes back as [null], any other default as it was.  The restored table
    has its change callback installed and holds at most the rows that were
    saved. *)
Theorem restored_table_has_the_saved_schema (now : string) (db : Database.t)
    (saved : Database.TableData) (restored : Table.t) :
  In saved (Database.snapshot_tables
              (Database.json_roundtrip (Database.toJSON now db))) →
  Database.restoreTable saved = Returns restored →
  ∃ key table,
    In (key, table) (Database.tables db)
    ∧ Table.name restored = ToString key
    ∧ Table.columns restored
      = map (fun c =>
               Column.mk (Column.name c) (Column.type c) (Column.primaryKey c)
                 (Column.unique c) (Column.nullable c)
                 (match Database.json_value (Column.defaultValue c) with
                  | Some d => d
                  | None => Null
                  end))
          (Table.columns table)
    ∧ (Forall (λ c, Database.json_value (Column.defaultValue c)
                    = Some (Column.defaultValue c)) (Table.columns table) →
       Table.columns restored = Table.columns table)
    ∧ Table.primaryKeyColumn restored
      = Column.name <$> List.find Column.primaryKey (Table.columns table)
    ∧ Table.onChange restored = true
    ∧ length (Table.rows restored) ≤ length (Table.rows table).
Proof.
  unfold Database.json_roundtrip, Database.toJSON. simpl. rewrite map_map.
  intros ([key table] & <- & Hin)%in_map_iff Hrestore.
  exists key, table. split; [done|].
  pose proof (restoreTable_rowCount _ _ Hrestore) as Hcount.
  unfold Table.rowCount in Hcount. simpl in Hcount. rewrite length_map in Hcount.
  revert Hrestore. unfold Database.restoreTable. simpl.
  destruct (Database.restoreRows _ _) as [table1|e] eqn:Hrows; simpl; [|done].
  intros [= <-]. apply restoreRows_columns in Hrows as (Hcols & Hname & Hpk).
  simpl in *.
  assert (Hcolumns : Table.columns table1
    = map (fun c =>
             Column.mk (Column.name c) (Column.type c) (Column.primaryKey c)
               (Column.unique c) (Column.nullable c)
               (match Database.json_value (Column.defaultValue c) with
                | Some d => d
                | None => Null
                end))
        (Table.columns table)).
  { rewrite Hcols, !map_map. apply map_ext. intros c. unfold Column.new. simpl.
    f_equal. by destruct (Column.defaultValue c) as [| |?|[]|?|[[] ? ?]]. }
  split; [done|]. split; [done|]. split; [|split; [|split; [done|done]]].
  - intros Hsafe. rewrite Hcolumns. clear -Hsafe.
    induction (Table.columns table) as [|c cols IH]; simpl; [done|].
    apply Forall_cons_1 in Hsafe as [Hc Hsafe]. rewrite IH by done.
    f_equal. rewrite Hc. by destruct c.
  - rewrite Hpk. rewrite !map_map. simpl. clear.
    induction (Table.columns table) as [|c cols IH]; simpl; [done|].
    by destruct (Column.primaryKey c).
Qed.

End SchemaRoundTrip.

(** *** Closed instances *)

Lemma restored_table_has_the_saved_schema_witness :
  In Scenario.users_saved
    (Database.snapshot_tables
       (Database.json_roundtrip (Database.toJSON Scenario.today Scenario.shop2)))
  ∧ Database.restoreTable Scenario.users_saved = Returns Scenario.users1
  ∧ Table.onChange Scenario.users1 = true.
Proof.
  assert (Hin : In Scenario.users_saved
                  (Database.snapshot_tables
                     (Database.json_roundtrip
                        (Database.toJSON Scenario.today Scenario.shop2))))
    by (vm_compute; left; reflexivity).
  assert (Hrestore : Database.restoreTable Scenario.users_saved = Returns Scenario.users1)
    by (vm_compute; reflexivity).
  split; [exact Hin|]. split; [exact Hrestore|].
  destruct (restored_table_has_the_saved_schema Scenario.today Scenario.shop2
              Scenario.users_saved Scenario.users1 Hin Hrestore)
    as (key & table & _ & _ & _ & _ & _ & Hcb & _).
  exact Hcb.
Defined.

(** ** Creating, clearing and dropping tables by request *)

Section TableManagement.
Context `{DateEngine}.
#[local] Open Scope nat_scope.


End TableManagement.

(** *** Closed instances *)


(** ** Clearing the persistence queue *)

Section QueueClear.
Context {A : Type}.
Import FileQueue QueueProgress.
#[local] Open Scope nat_scope.

Implicit Types (q : FileQueue.t A) (item : Item A) (task : Task A) (u c k : nat).

(** From a pending retry timer the item is attempted once for every retry
    its counter leaves, and once more; then it is given up. *)
Lemma retry_run k : ∀ q item delay c,
  tasks q = [Timeout item delay] →
  retryCountOf (filePath item) q = c →
  c + k = MAX_RETRIES →
  ∃ q', settles (2 * S k) q q'
        ∧ attempts (uid item) q' = attempts (uid item) q + S k
        ∧ dropped (uid item) q'.
Proof.
  induction k as [|k IH]; intros q item delay c Hts Hc Hk.
  - set (q1 := timeoutFired item (with_tasks [] q)).
    set (q2 := writeFailed item (with_tasks [] q1)).
    exists q2. split; [|split].
    + apply (settles_S _ q q1); [by apply (settle_timeout q [] item delay [])|].
      apply (settles_S _ q1 q2); [by apply (settle_write_failed q1 [] item [])|].
      constructor.
    + subst q2 q1. unfold writeFailed, timeoutFired, processQueue, with_tasks, attempts.
      unfold retryCountOf in Hc. simpl. rewrite Hc.
      replace (c <? MAX_RETRIES) with false by (symmetry; apply Nat.ltb_ge; lia).
      simpl. rewrite attemptsIn_snoc, attemptsIn_snoc. simpl.
      rewrite Nat.eqb_refl. lia.
    + subst q2 q1. unfold writeFailed, timeoutFired, processQueue, with_tasks, dropped.
      unfold retryCountOf in Hc. simpl. rewrite Hc.
      replace (c <? MAX_RETRIES) with false by (symmetry; apply Nat.ltb_ge; lia).
      simpl. apply in_app_iff. right. by left.
  - set (q1 := timeoutFired item (with_tasks [] q)).
    set (q2 := writeFailed item (with_tasks [] q1)).
    assert (Hlow : (c <? MAX_RETRIES) = true) by (apply Nat.ltb_lt; lia).
    assert (Hq2 : q2 = mk (queue q) true (<[filePath item := c + 1]> (retryAttempts q))
                        [Timeout item (100 * (c + 1))] (nextUid q)
                        ((log q ++ [Attempt (uid item)]) ++ [Retrying (uid item) (c + 1)])).
    { subst q2 q1. unfold writeFailed, timeoutFired, processQueue, with_tasks.
      unfold retryCountOf in Hc. simpl. by rewrite Hc, Hlow. }
    destruct (IH q2 item (100 * (c + 1)) (c + 1)) as (q' & Hrun & Hatt & Hdrop).
    + by rewrite Hq2.
    + rewrite Hq2. unfold retryCountOf. simpl. by rewrite lookup_insert_eq.
    + lia.
    + exists q'. split; [|split; [|done]].
      * replace (2 * S (S k)) with (S (S (2 * S k))) by lia.
        apply (settles_S _ q q1); [by apply (settle_timeout q [] item delay [])|].
        apply (settles_S _ q1 q2); [by apply (settle_write_failed q1 [] item [])|].
        done.
      * rewrite Hatt, Hq2. unfold attempts. simpl.
        rewrite attemptsIn_snoc, attemptsIn_snoc. simpl. rewrite Nat.eqb_refl. lia.
Qed.

Lemma gone_processQueue u q :
  gone u q →
  gone u (processQueue q)
  ∧ ∀ e, In e (log (processQueue q)) → In e (log q) ∨ subject e ≠ u.
Proof.
  intros (Hlt & Hqueue & Htasks). unfold processQueue.
  destruct (queue q) as [|item rest] eqn:Hq; simpl.
  - split; [|by left]. split; [done|]. split; [by intros []|done].
  - simpl in Hqueue. split.
    + split; [done|]. split; [tauto|]. simpl. intros task item' Hin Hheld.
      apply in_app_iff in Hin as [Hin|[<-|[]]]; [by apply (Htasks task)|].
      simpl in Hheld. injection Hheld as <-. intros Heq. tauto.
    + intros e [Hin|[<-|[]]]%in_app_iff; [by left|]. right. simpl. tauto.
Qed.

Lemma gone_without u q pre task post :
  gone u q → tasks q = pre ++ task :: post →
  gone u (with_tasks (pre ++ post) q)
  ∧ ∀ item, held task = Some item → uid item ≠ u.
Proof.
  intros (Hlt & Hqueue & Htasks) Hts. split.
  - split; [done|]. split; [done|]. simpl. intros task' item Hin Hheld.
    apply (Htasks task'); [|done]. rewrite Hts.
    apply in_app_iff in Hin as [Hin|Hin]; apply in_app_iff; [by left|]. right. by right.
  - intros item Hheld. apply (Htasks task); [|done]. rewrite Hts.
    apply in_app_iff. right. by left.
Qed.

Lemma gone_turn u q q' :
  gone u q → turn q q' →
  gone u q' ∧ ∀ e, In e (log q') → In e (log q) ∨ subject e ≠ u.
Proof.
  intros Hgone Hturn. revert Hgone. destruct Hturn as [q0 q1 Hstep|q0].
  - destruct Hstep as [q0 p d|q0 pre item post Hts|q0 pre item post Hts
                      |q0 pre item delay post Hts|q0 pre post Hts]; intros Hgone.
    + unfold enqueue.
      set (q1 := mk (queue q0 ++ [mkItem p d (nextUid q0)]) (isProcessing q0)
                    (retryAttempts q0) (tasks q0) (S (nextUid q0)) (log q0)).
      assert (Hq1 : gone u q1).
      { destruct Hgone as (Hlt & Hqueue & Htasks). subst q1. split; [simpl; lia|].
        split; [|done]. simpl. rewrite map_app. simpl.
        intros [Hin|[Heq|[]]]%in_app_iff; [done|lia]. }
      change (isProcessing q1) with (isProcessing q0).
      destruct (isProcessing q0); [by split; [|left]|].
      exact (gone_processQueue u _ Hq1).
    + destruct (gone_without u q0 pre (Write item) post Hgone Hts)
        as ((Hlt & Hqueue & Htasks) & Hne). specialize (Hne item eq_refl). split.
      * split; [done|]. split; [done|]. simpl. intros task item' Hin Hheld.
        apply in_app_iff in Hin as [Hin|[<-|[]]]; [by apply (Htasks task)|done].
      * simpl. intros e [Hin|[<-|[]]]%in_app_iff; [by left|by right].
    + destruct (gone_without u q0 pre (Write item) post Hgone Hts)
        as ((Hlt & Hqueue & Htasks) & Hne). specialize (Hne item eq_refl).
      unfold writeFailed.
      match goal with |- context [if ?b then _ else _] => destruct b end; split.
      * split; [done|]. split; [done|]. simpl. intros task item' Hin Hheld.
        apply in_app_iff in Hin as [Hin|[<-|[]]]; [by apply (Htasks task)|].
        simpl in Hheld. by injection Hheld as <-.
      * simpl. intros e [Hin|[<-|[]]]%in_app_iff; [by left|by right].
      * split; [done|]. split; [done|]. simpl. intros task item' Hin Hheld.
        apply in_app_iff in Hin as [Hin|[<-|[]]]; [by apply (Htasks task)|done].
      * simpl. intros e [Hin|[<-|[]]]%in_app_iff; [by left|by right].
    + destruct (gone_without u q0 pre (Timeout item delay) post Hgone Hts)
        as ((Hlt & Hqueue & Htasks) & Hne). specialize (Hne item eq_refl).
      unfold timeoutFired. refine (gone_processQueue u _ _).
      split; [done|]. split; [|done]. simpl. intros [Heq|Hin]; [done|].
      by apply Hqueue.
    + destruct (gone_without u q0 pre Immediate post Hgone Hts) as (Hgone' & _).
      exact (gone_processQueue u _ Hgone').
  - intros (Hlt & Hqueue & Htasks). split; [|by left].
    split; [done|]. split; [by intros []|done].
Qed.

Lemma gone_turns u q q' :
  gone u q → turns q q' →
  gone u q' ∧ ∀ e, In e (log q') → In e (log q) ∨ subject e ≠ u.
Proof.
  intros Hgone Hrun. induction Hrun as [q|q1 q2 q3 _ IH Hturn]; [by split; [|left]|].
  destruct (IH Hgone) as [Hgone2 Hlog2].
  destruct (gone_turn u q2 q3 Hgone2 Hturn) as [Hgone3 Hlog3]. split; [done|].
  intros e Hin. destruct (Hlog3 e Hin) as [Hin2|Hne]; [by apply Hlog2|by right].
Qed.

(** X27. What [clear] does to a running queue.  It empties the queue, and
    the snapshots that waited are lost for good: whatever happens
    afterwards -- writes that settle, timers, new items, further calls of
    [clear] -- none of them is ever written, retried or reported.  It does
    not cancel the timer of a pending retry, and it forgets the retry
    count of the item the timer holds: that item, already attempted at
    least once, can be attempted [MAX_RETRIES + 1] more times before it is
    given up. *)
Theorem clear_loses_the_queue_and_renews_the_retries q :
  reachable q →
  getQueueLength (clear q) = 0
  ∧ (∀ item q', In item (queue q) → turns (clear q) q' →
       ∀ e, In e (log q') → subject e ≠ uid item)
  ∧ (∀ item delay, In (Timeout item delay) (tasks q) →
       1 ≤ attempts (uid item) q
       ∧ ∃ q', settles (2 * S MAX_RETRIES) (clear q) q'
               ∧ attempts (uid item) q' = attempts (uid item) q + S MAX_RETRIES
               ∧ dropped (uid item) q').
Proof.
  intros Hreach. pose proof (Inv_reachable q Hreach) as HI.
  pose proof (Ordered_reachable q Hreach) as HO.
  split; [done|]. split.
  - intros item q' Hin Hrun e He.
    assert (Hgone : gone (uid item) (clear q)).
    { split; [by apply (ord_queued q HO)|]. split; [by intros []|].
      simpl. intros task item' Htask Hheld Heq.
      destruct (ord_held q HO task item' Htask Hheld) as (_ & Hbefore & _).
      specialize (Hbefore item Hin). lia. }
    destruct (gone_turns _ _ _ Hgone Hrun) as [_ Hlog].
    destruct (Hlog e He) as [Hold|Hne]; [|done].
    simpl in Hold. pose proof (ord_waiting q HO e item Hold Hin). lia.
  - intros item delay Hin. apply in_split in Hin as (pre & post & Hts).
    destruct (Inv_task q pre _ post HI Hts) as (_ & -> & -> & c & Hc1 & _ & Hfl).
    destruct Hfl as (_ & Hatt & _). split; [lia|].
    apply (retry_run MAX_RETRIES (clear q) item delay 0); [done| |done].
    unfold retryCountOf. simpl. by rewrite lookup_empty.
Qed.

End QueueClear.

(** *** Closed instances *)

Lemma queue_retrying_reachable : FileQueue.reachable Scenario.queue_retrying.
Proof.
  eapply FileQueue.steps_step.
  - eapply FileQueue.steps_step.
    + eapply FileQueue.steps_step; [apply FileQueue.steps_refl|].
      apply (FileQueue.step_enqueue _ "data/db.json" "snapshot").
    + apply (FileQueue.step_enqueue _ "data/db.json" "snapshot 2").
  - apply (FileQueue.step_write_failed _ [] Scenario.snapshot_job []).
    vm_compute; reflexivity.
Qed.

Lemma clear_loses_the_queue_and_renews_the_retries_witness :
  FileQueue.reachable Scenario.queue_retrying
  ∧ (FileQueue.attempts 0 Scenario.queue_retrying = 1
     ∧ FileQueue.getQueueLength Scenario.queue_retrying = 1)
  ∧ ∃ q', QueueProgress.settles 8 (FileQueue.clear Scenario.queue_retrying) q'
          ∧ FileQueue.attempts 0 q' = 1 + 4
          ∧ FileQueue.dropped 0 q'.
Proof.
  split; [exact queue_retrying_reachable|]. split; [split; vm_compute; reflexivity|].
  apply (proj2 (proj2 (clear_loses_the_queue_and_renews_the_retries Scenario.queue_retrying
                         queue_retrying_reachable))
           Scenario.snapshot_job 100).
  vm_compute. by left.
Defined.

(** ** Rows across a restart *)

Section RowRoundTrip.
Context `{DateEngine}.
Import TableInv.
#[local] Open Scope nat_scope.

Implicit Types (row data : RowData) (cols : list Column.t) (tb : Table.t).

Lemma settled_defined c v : settled c v → strict_equals v Undefined = false.
Proof. intros (Hjson & _). by destruct v as [| |?|[]|?|[[] ? ?]]. Qed.

Lemma settled_required c v : settled c v → negb (Column.nullable c) && nullish v = false.
Proof.
  intros (_ & Hvalid & _). destruct (nullish v) eqn:Hv; [|by rewrite andb_false_r].
  rewrite validate_nullish in Hvalid by done. by rewrite Hvalid.
Qed.

Lemma json_settled_row cols row :
  row_keyed cols row →
  (∀ c, In c cols → settled c (get row (Column.name c))) →
  omap Database.json_value row = row.
Proof.
  intros Hkeys Hsettled. apply map_eq. intros key. rewrite lookup_omap.
  destruct (row !! key) as [v|] eqn:Hv; simpl; [|done].
  assert (In key (map Column.name cols)) as (c & <- & Hc)%in_map_iff
    by (apply Hkeys; eauto).
  destruct (Hsettled c Hc) as (Hjson & _). unfold get in Hjson. by rewrite Hv in Hjson.
Qed.

Lemma written_lookup row cols (row0 : RowData) (key : string) :
  (In key (map Column.name cols) →
   fold_left (fun r c => <[Column.name c := get row (Column.name c)]> r) cols row0 !! key
   = Some (get row key))
  ∧ (¬ In key (map Column.name cols) →
     fold_left (fun r c => <[Column.name c := get row (Column.name c)]> r) cols row0 !! key
     = row0 !! key).
Proof.
  revert row0. induction cols as [|c cols IH]; intros row0; simpl; [by split|].
  destruct (IH (<[Column.name c := get row (Column.name c)]> row0)) as [IHin IHout].
  destruct (In_dec string_dec key (map Column.name cols)) as [Hin|Hout].
  - split; [intros _; by apply IHin|]. intros Hno. exfalso. apply Hno. by right.
  - split.
    + intros [<-|Hin]; [|done]. by rewrite IHout, lookup_insert_eq.
    + intros Hno. rewrite IHout by done. apply lookup_insert_ne. intros Heq.
      apply Hno. by left.
Qed.

(** [insert] builds a settled row again as it is. *)
Lemma buildRow_settled cols row :
  row_keyed cols row →
  (∀ c, In c cols → settled c (get row (Column.name c))) →
  Table.buildRow row cols = Returns row.
Proof.
  intros Hkeys Hsettled. unfold Table.buildRow.
  assert (Hfold : ∀ cols' row0, (∀ c, In c cols' → In c cols) →
    foldM
      (fun (r : RowData) column =>
         value ←
           (if negb (strict_equals (get row (Column.name column)) Undefined)
            then Column.serialize column (get row (Column.name column))
            else Returns (Column.defaultValue column));
         Returns (<[Column.name column := value]> r))
      cols' row0
    = Returns (fold_left (fun r c => <[Column.name c := get row (Column.name c)]> r)
                 cols' row0)).
  { induction cols' as [|c cols' IH]; intros row0 Hsub; simpl; [done|].
    pose proof (Hsettled c (Hsub c (or_introl eq_refl))) as Hc.
    rewrite (settled_defined c _ Hc). simpl.
    destruct Hc as (_ & _ & ->). simpl. apply IH. intros c' Hc'. apply Hsub. by right. }
  rewrite Hfold by done. f_equal. apply map_eq. intros key.
  destruct (written_lookup row cols ∅ key) as [Hwritten Hleft].
  destruct (In_dec string_dec key (map Column.name cols)) as [Hin|Hin].
  - rewrite Hwritten by done. apply Hkeys in Hin as [v Hv]. unfold get. by rewrite Hv.
  - rewrite Hleft, lookup_empty by done.
    destruct (row !! key) as [v|] eqn:Hv; [|done].
    exfalso. apply Hin, Hkeys. eauto.
Qed.

(** No row is found under a value that no stored row holds. *)
Lemma findByIndex_fresh tb (cn : string) (v : Value) :
  indexes_ok tb →
  (∀ i row, Table.rows tb !! i = Some row → same_value_zero (get row cn) v = false) →
  Table.findByIndex cn v tb = [].
Proof.
  intros Hok Hfresh. unfold Table.findByIndex.
  destruct (Table.indexes tb !! cn) as [index|] eqn:Hix; [|done].
  destruct (Map_get v index) as [[|i l]|] eqn:Hget; [done| |done].
  apply Map_get_Some in Hget as (k & Hin & Hk).
  destruct (ok_sound tb Hok cn index k i Hix) as (row & Hrow & Hsame).
  { exists (i :: l). split; [done|by left]. }
  pose proof (same_value_zero_trans _ _ _ Hsame Hk) as Hheld.
  by rewrite (Hfresh i row Hrow) in Hheld.
Qed.

Lemma validateRow_settled tb row :
  (∀ c, In c (Table.columns tb) → settled c (get row (Column.name c))) →
  (∀ c, In c (Table.columns tb) → Column.unique c = true →
        nullish (get row (Column.name c)) = false →
        Table.findByIndex (Column.name c) (get row (Column.name c)) tb = []) →
  Table.validateRow row tb = (true, []).
Proof.
  intros Hsettled Hfresh. unfold Table.validateRow.
  assert (Hnone : flat_map (Table.validateColumn row tb) (Table.columns tb) = []).
  { revert Hsettled Hfresh. generalize (Table.columns tb).
    induction l as [|c cols IH]; intros Hsettled Hfresh; simpl; [done|].
    rewrite IH; [|intros; apply Hsettled; by right|intros; apply Hfresh; auto; by right].
    rewrite app_nil_r.
    pose proof (Hsettled c (or_introl eq_refl)) as Hc.
    unfold Table.validateColumn. rewrite (settled_required c _ Hc).
    destruct Hc as (_ & -> & _). rewrite andb_false_r. simpl.
    destruct (Column.unique c) eqn:Hu; [|done].
    destruct (nullish (get row (Column.name c))) eqn:Hv; [done|]. simpl.
    by rewrite (Hfresh c (or_introl eq_refl) Hu Hv). }
  by rewrite Hnone.
Qed.

(** The loop of [restoreFromData] stores every row of the document. *)
Lemma restoreRows_settled cols (rest : list RowData) : ∀ (pre : list RowData) tb,
  Table.columns tb = cols → Table.rows tb = pre →
  TableInv.reachable tb → unique_index_names cols →
  Forall (row_keyed cols) (pre ++ rest) →
  rows_settled cols (pre ++ rest) →
  unique_values cols (pre ++ rest) →
  ∃ tb', Database.restoreRows rest tb = Returns tb' ∧ Table.rows tb' = pre ++ rest.
Proof.
  induction rest as [|row rest IH]; intros pre tb Hcols Hrows Hreach Hnames Hkeys Hset Huniq.
  - exists tb. by rewrite app_nil_r.
  - assert (Hin : In row (pre ++ row :: rest)) by (apply in_or_app; right; by left).
    assert (Hrow : ∀ c, In c cols → settled c (get row (Column.name c)))
      by (intros c Hc; by apply Hset).
    assert (Hkey : row_keyed cols row).
    { rewrite Forall_forall in Hkeys. by apply Hkeys, list_elem_of_In. }
    pose proof (insertWithoutNotify_after tb row) as Hafter.
    simpl. unfold Database.insertWithoutNotify in *.
    rewrite validateRow_settled in *; [|by rewrite Hcols| |by rewrite Hcols|].
    2, 3: intros c Hc Hu Hv; apply findByIndex_fresh;
      [apply reachable_indexes_ok; [done|by rewrite Hcols]|];
      intros i row_i Hi; rewrite Hcols in Hc; rewrite Hrows in Hi;
      apply (Huniq i (length pre) row_i row c); try done;
      [by apply lookup_lt_Some in Hi
      |by rewrite lookup_app_l by (by apply lookup_lt_Some in Hi)
      |by rewrite list_lookup_middle].
    simpl in *. rewrite Hcols, buildRow_settled in * by done. simpl in *.
    rewrite Hrows in *.
    assert (Heq : pre ++ row :: rest = (pre ++ [row]) ++ rest) by (by rewrite <- app_assoc).
    rewrite Heq in *. apply (IH (pre ++ [row])); simpl; try done.
    rewrite Hafter. by apply reach_insert.
Qed.

Lemma saved_rows_settled cols (rows : list RowData) :
  Forall (row_keyed cols) rows → rows_settled cols rows →
  map (omap Database.json_value) rows = rows.
Proof.
  intros Hkeys Hset. induction rows as [|row rows IH]; simpl; [done|].
  apply Forall_cons_1 in Hkeys as [Hkey Hkeys].
  rewrite IH; [|done|intros r c Hr Hc; apply Hset; [by right|done]].
  f_equal. apply (json_settled_row cols); [done|].
  intros c Hc. apply Hset; [by left|done].
Qed.

(** X28. Rows across a restart.  Take a table of the database whose
    indexed columns have distinct names and whose default values JSON can
    write, in which every stored value is settled -- written by JSON as it
    is, accepted by [validate] of its column and returned unchanged by
    [serialize] -- and in which no unique column holds a value twice.  Then
    the entry [toJSON] writes for the table, read back from the file, is
    restored without an exception, and the restored table holds the same
    rows in the same order under the same columns.  A string in a STRING
    column, a boolean in a BOOLEAN column and [null] in a nullable column
    are settled. *)
Theorem restart_keeps_the_rows (now : string) (db : Database.t) (key : Value)
    (tb : Table.t) :
  In (key, tb) (Database.tables db) →
  TableInv.reachable tb →
  unique_index_names (Table.columns tb) →
  Forall (λ c, Database.json_value (Column.defaultValue c) = Some (Column.defaultValue c))
    (Table.columns tb) →
  rows_settled (Table.columns tb) (Table.rows tb) →
  unique_values (Table.columns tb) (Table.rows tb) →
  (∃ saved restored,
     In saved (Database.snapshot_tables
                 (Database.json_roundtrip (Database.toJSON now db)))
     ∧ Database.table_name saved = ToString key
     ∧ Database.restoreTable saved = Returns restored
     ∧ Table.rows restored = Table.rows tb
     ∧ Table.columns restored = Table.columns tb)
  ∧ (∀ c v,
       (Column.type c = "STRING" ∧ typeof v = "string")
       ∨ (Column.type c = "BOOLEAN" ∧ typeof v = "boolean")
       ∨ (Column.nullable c = true ∧ v = Null) →
       settled c v).
Proof.
  intros Hin Hreach Hnames Hdefaults Hset Huniq. split.
  - pose proof (reachable_well_formed tb Hreach) as Hformed.
    assert (Hkeys : Forall (row_keyed (Table.columns tb)) (Table.rows tb)).
    { eapply Forall_impl; [exact Hformed|]. by intros row (Hkey & _). }
    assert (Hcolumns :
      map (fun x =>
             Column.new (Column.name x) (Column.type x) (Some (Column.primaryKey x))
               (Some (Column.unique x)) (Some (Column.nullable x))
               (default Undefined (Database.json_value (Column.defaultValue x))))
        (Table.columns tb)
      = Table.columns tb).
    { clear -Hdefaults. induction Hdefaults as [|c cols Hc _ IH]; simpl; [done|].
      rewrite IH. f_equal. rewrite Hc. unfold Column.new. simpl.
      destruct c as [n t p u nl d]. simpl in *. f_equal. by destruct d. }
    assert (Hrestore : ∀ pk, ∃ tb',
      Database.restoreRows (Table.rows tb)
        (Table.with_onChange false (Table.new (ToString key) (Table.columns tb) pk false))
      = Returns tb'
      ∧ Table.rows tb' = Table.rows tb
      ∧ Table.columns tb' = Table.columns tb).
    { intros pk.
      destruct (restoreRows_settled (Table.columns tb) (Table.rows tb) []
                  (Table.with_onChange false
                     (Table.new (ToString key) (Table.columns tb) pk false)))
        as (tb' & Hrun & Hrows); try done.
      - apply reach_onChange, reach_new.
      - exists tb'. split; [done|]. split; [done|].
        by apply restoreRows_columns in Hrun as (-> & _). }
    unfold Database.json_roundtrip, Database.toJSON. simpl. rewrite map_map.
    match goal with
    | |- ∃ saved restored, In saved (map ?f _) ∧ _ =>
        destruct (Hrestore
                    (Database.col_name <$>
                     List.find (fun c => default false (Database.col_primaryKey c))
                       (Database.schema_columns (Database.schema (f (key, tb))))))
          as (tb' & Hrun & Hrows & Hcols);
        exists (f (key, tb)), (Table.with_onChange true tb')
    end.
    split; [apply in_map_iff; exists (key, tb); split; [reflexivity|done]|].
    simpl. split; [done|]. split; [|done].
    unfold Database.restoreTable. simpl.
    rewrite (saved_rows_settled (Table.columns tb)) by done.
    rewrite !map_map. simpl. rewrite Hcolumns.
    simpl in Hrun. rewrite !map_map in Hrun. simpl in Hrun. by rewrite Hrun.
  - intros c v [[Htype Hv]|[[Htype Hv]|[Hnull ->]]].
    + destruct v as [| |?|?|s|[[] ? ?]]; try done. unfold settled, Column.validate, Column.serialize.
      rewrite Htype. simpl. done.
    + destruct v as [| |b|?|?|[[] ? ?]]; try done. unfold settled, Column.validate, Column.serialize.
      rewrite Htype. simpl. done.
    + unfold settled, Column.validate, Column.serialize. simpl. by rewrite Hnull.
Qed.

End RowRoundTrip.
(** *** Closed instances *)

Lemma users1_settled :
  TableInv.rows_settled (Table.columns Scenario.users1) (Table.rows Scenario.users1).
Proof.
  intros row c [<-|[]] [<-|[<-|[]]]; repeat split; vm_compute; reflexivity.
Qed.

Lemma users1_unique_values :
  TableInv.unique_values (Table.columns Scenario.users1) (Table.rows Scenario.users1).
Proof.
  intros i [|j] row_i row_j c Hlt Hi Hj; [by apply Nat.nlt_0_r in Hlt|discriminate Hj].
Qed.

Lemma restart_keeps_the_rows_witness :
  In (Str "users", Scenario.users1) (Database.tables Scenario.shop2)
  ∧ TableInv.reachable Scenario.users1
  ∧ ∃ saved restored,
      In saved (Database.snapshot_tables
                  (Database.json_roundtrip (Database.toJSON Scenario.today Scenario.shop2)))
      ∧ Database.table_name saved = "users"
      ∧ Database.restoreTable saved = Returns restored
      ∧ Table.rows restored = [Scenario.user 1 "a"]
      ∧ Table.columns restored = Scenario.users_columns.
Proof.
  assert (Hin : In (Str "users", Scenario.users1) (Database.tables Scenario.shop2))
    by (left; reflexivity).
  assert (Hdefaults :
    Forall (λ c, Database.json_value (Column.defaultValue c) = Some (Column.defaultValue c))
      (Table.columns Scenario.users1))
    by (repeat constructor).
  split; [exact Hin|]. split; [exact users1_reachable|].
  exact (proj1 (restart_keeps_the_rows Scenario.today Scenario.shop2 (Str "users")
                  Scenario.users1 Hin users1_reachable (NoDup_singleton "id")
                  Hdefaults users1_settled users1_unique_values)).
Defined.

(** ** Integers in INTEGER columns *)

Section IntegerStorage.
#[local] Open Scope Z_scope.

Implicit Types (ds : list N) (l rest : list ascii) (x d : N) (z : Z).











End IntegerStorage.

Section IntegerColumns.
Context `{DateEngine}.


End IntegerColumns.

(** *** Closed instances *)


(** ** Saving follows changes *)

Section SavesFollowChanges.
Context `{DateEngine}.
Import DatabaseInv.
#[local] Open Scope nat_scope.

(** [affected] counts the rows [update] replaced: it never goes down, and
    while it stays the table is as it was. *)
Lemma updateLoop_idle (updates : RowData) (candidates : list (nat * RowData)) :
  ∀ (tb : Table.t) (affected : nat) (errors : list string) tb' affected' errors',
    Table.updateLoop updates candidates tb affected errors
    = (tb', Returns (affected', errors')) →
    affected ≤ affected' ∧ (affected' = affected → tb' = tb).
Proof.
  induction candidates as [|[index row] rest IH]; intros tb affected errors tb' a' e'; simpl.
  - intros [= <- <- <-]. done.
  - destruct (Table.applyUpdates updates row (Table.columns tb)) as [updatedRow|e]; [|done].
    match goal with |- context [if ?c then _ else _] => destruct c end.
    + apply IH.
    + intros Hrun. apply IH in Hrun as [Hle Hsame]. split; [lia|]. intros ->. lia.
Qed.

(** X30. Saving follows changes.  A [delete] or an [update] made on a
    table of the database enqueues a snapshot exactly when it changed rows:
    a [delete] that finds no row and an [update] that replaces no row --
    because none is selected, because every candidate fails validation, or
    because [serialize] throws -- leave the database, its queue included,
    as it was; otherwise one snapshot is enqueued, that of the database
    holding the table after the call. *)
Theorem saves_follow_changes (now tableName : string) (db : Database.t)
    (table : Table.t) :
  reachable db →
  Database.getTable tableName db = Some table →
  (∀ where_,
     let o := Table.delete where_ table in
     let r := Database.onTable now tableName (Table.delete where_) db in
     ∃ n, Table.completion o = Returns (Table.mkResult true None (Some n) None)
          ∧ (n = 0 → r.1 = db)
          ∧ (0 < n →
               Database.getTable tableName r.1 = Some (Table.after o)
               ∧ Database.fileQueue r.1
                 = FileQueue.enqueue (Database.dbFilePath db) (Database.toJSON now r.1)
                     (Database.fileQueue db)))
  ∧ (∀ updates where_,
       let o := Table.update updates where_ table in
       let r := Database.onTable now tableName (Table.update updates where_) db in
       (∀ e, Table.completion o = Throws e → r.1 = db)
       ∧ (∀ res, Table.completion o = Returns res →
            ∃ n, Table.rowsAffected res = Some n
                 ∧ (n = 0 → r.1 = db)
                 ∧ (0 < n →
                      Database.getTable tableName r.1 = Some (Table.after o)
                      ∧ Database.fileQueue r.1
                        = FileQueue.enqueue (Database.dbFilePath db)
                            (Database.toJSON now r.1) (Database.fileQueue db)))).
Proof.
  intros Hreach Hget. pose proof (reachable_Inv db Hreach) as HI.
  pose proof (inv_loaded db HI) as Hloaded.
  destruct (getTable_ok tableName table db HI Hget) as [_ Hcb]. split.
  - intros where_ o r.
    destruct (onTable_found now tableName (Table.delete where_) db table Hloaded Hget)
      as (_ & Hafter & _ & _ & Hsaved & Hidle).
    fold r in Hafter, Hsaved, Hidle. fold o in Hafter, Hsaved, Hidle.
    exists (length (Table.indicesToDelete where_ table)). split; [done|]. split.
    + intros Hnone. apply Hidle; subst o; unfold Table.delete.
      * by rewrite Hnone.
      * apply length_zero_iff_nil in Hnone. by rewrite Hnone.
    + intros Hsome. split; [done|]. apply Hsaved.
      pose proof (delete_onChange where_ table) as Hsame. subst o.
      unfold Table.delete in *. simpl in *.
      apply Nat.ltb_lt in Hsome. rewrite Hsome. unfold Table.notifyChange. congruence.
  - intros updates where_ o r.
    destruct (onTable_found now tableName (Table.update updates where_) db table
                Hloaded Hget) as (_ & Hafter & _ & _ & Hsaved & Hidle).
    fold r in Hafter, Hsaved, Hidle. fold o in Hafter, Hsaved, Hidle. split.
    + intros e [Hthrows _]%update_throws. fold o in Hthrows.
      apply Hidle; by rewrite Hthrows.
    + intros res Hres. pose proof (update_onChange updates where_ table) as Hsame.
      fold o in Hsame. revert Hres Hsame Hafter Hsaved Hidle. subst o. unfold Table.update.
      destruct (Table.updateLoop updates (Table.rowsToUpdate where_ table) table 0 [])
        as [tb' [[affected errs]|e]] eqn:Hloop; simpl; [|done].
      intros [= <-] Hsame Hafter Hsaved Hidle. simpl. exists affected. split; [done|].
      apply updateLoop_idle in Hloop as [_ Hkept]. split.
      * intros ->. apply Hidle; [done|]. by apply Hkept.
      * intros Hsome. split; [done|]. apply Hsaved.
        apply Nat.ltb_lt in Hsome. rewrite Hsome. unfold Table.notifyChange. congruence.
Qed.

End SavesFollowChanges.

(** *** Closed instances *)

Lemma saves_follow_changes_witness :
  DatabaseInv.reachable Scenario.shop2
  ∧ Database.getTable "users" Scenario.shop2 = Some Scenario.users1
  ∧ (Database.onTable Scenario.today "users"
       (Table.delete (Some (fun row => strict_equals (get row "id") (Scenario.num 7))))
       Scenario.shop2).1
    = Scenario.shop2.
Proof.
  split; [exact shop2_reachable|]. split; [reflexivity|].
  destruct (proj1 (saves_follow_changes Scenario.today "users" Scenario.shop2
                     Scenario.users1 shop2_reachable eq_refl)
              (Some (fun row => strict_equals (get row "id") (Scenario.num 7))))
    as (n & Hn & Hidle & _).
  apply Hidle.
  assert (Hnone :
    Table.completion
      (Table.delete (Some (fun row => strict_equals (get row "id") (Scenario.num 7)))
         Scenario.users1)
    = Returns (Table.mkResult true None (Some 0) None)) by (vm_compute; reflexivity).
  rewrite Hnone in Hn. by injection Hn as <-.
Defined.
